(** * Indoor routing engine: a shallow embedding and its checked properties

    The development follows the JavaScript sources of the routing core:
    [CollisionDetector], [EdgeBuilder], [AStar] (with its [MinHeap]),
    [PathCache], [PathfindingEngine.findRoute] and the two callers that
    post-process a route ([NavigationController.computeRoute] and
    [DirectionsUI.withRouteEndpoints]).

    Conventions of the embedding.
    - A JavaScript number is a rational ([Q]); [Infinity] only occurs as the
      initial value of a running minimum and is rendered by [option].
      Comparisons are the boolean tests [num_lt], [num_le], [num_gt].
    - [Math.sqrt], [Math.cos] and the functions of the turf geometry library
      are not part of the repository: they are the fields of the class
      [Platform].  A turf call that may throw inside a [try] block returns an
      [option] ([None] is the exception).
    - Objects that are mutated (the engine's error slot and path cache, the
      A* open heap and score maps) are threaded explicitly.
    - A [Map] or [Set] whose iteration order is never observed is a [gmap]
      or a [gset]; the path cache, whose first key is the eviction victim, is
      an association list in insertion order. *)

From Stdlib Require Import QArith Qabs Qround Qminmax ZArith Lia Permutation Sorted.
From stdpp Require Import gmap strings list pretty.

Set Default Proof Using "Type".

(* ===================================================================== *)
(** ** Numbers *)
(* ===================================================================== *)

Definition num_lt (a b : Q) : bool :=
  match Qcompare a b with Lt => true | _ => false end.

Definition num_gt (a b : Q) : bool := num_lt b a.

Definition num_le (a b : Q) : bool := Qle_bool a b.

Definition num_ge (a b : Q) : bool := Qle_bool b a.

(** [Math.round]: nearest integer, halves towards plus infinity. *)
Definition Math_round (x : Q) : Q := inject_Z (Qfloor (x + (1 # 2))%Q).

Definition Math_abs (x : Q) : Q := Qabs x.

(** A coordinate pair [[lng, lat]]. *)
Definition Coord : Type := (Q * Q)%type.

Definition lng (c : Coord) : Q := fst c.
Definition lat (c : Coord) : Q := snd c.

(** A bounding box [[minX, minY, maxX, maxY]]. *)
Record BBox : Type := mkBBox { minX : Q; minY : Q; maxX : Q; maxY : Q }.

(* ===================================================================== *)
(** ** What the platform provides *)
(* ===================================================================== *)

(** A GeoJSON geometry with its nested coordinate arrays. *)
Inductive Geometry : Type :=
  | Point (position : Coord)
  | LineString (positions : list Coord)
  | MultiLineString (lines : list (list Coord))
  | Polygon (rings : list (list Coord))
  | MultiPolygon (polygons : list (list (list Coord))).

(** A GeoJSON feature, as far as the routing core looks into it. *)
Record Feature : Type := mkFeature { geometry : Geometry }.

(** [feature.geometry.type] *)
Definition geometryType (f : Feature) : string :=
  match geometry f with
  | Point _ => "Point"
  | LineString _ => "LineString"
  | MultiLineString _ => "MultiLineString"
  | Polygon _ => "Polygon"
  | MultiPolygon _ => "MultiPolygon"
  end.

Class Platform : Type := {
  Math_sqrt : Q -> Q;
  (** [Math.cos (deg * Math.PI / 180)], the cosine of an angle in degrees *)
  Math_cos_deg : Q -> Q;
  (** [turf.distance (turf.point a) (turf.point b) {units: 'meters'}] *)
  turf_distance : Coord -> Coord -> Q;
  turf_booleanPointInPolygon : Coord -> Feature -> option bool;
  (** the intersection points of the segment [[a, b]] with a feature *)
  turf_lineIntersect : Coord -> Coord -> Feature -> option (list Coord);
  turf_pointToLineDistance : Coord -> Feature -> option Q;
  (** the text a number takes inside a template string *)
  String_of_number : Q -> string
}.

(* ===================================================================== *)
(** ** Results of JavaScript calls *)
(* ===================================================================== *)

(** A call returns a value, throws, or (in the model only) exhausts the
    iteration budget of a [while] loop. *)
Inductive js (A : Type) : Type :=
  | Ret (a : A)
  | Throw (message : string)
  | OutOfFuel.

Arguments Ret {A} a.
Arguments Throw {A} message.
Arguments OutOfFuel {A}.

(** Sequencing, written [x ← m; k] below. *)
#[export] Instance js_bind : MBind js := fun A B k m =>
  match m with
  | Ret a => k a
  | Throw s => Throw s
  | OutOfFuel => OutOfFuel
  end.

#[export] Instance js_ret : MRet js := fun A a => Ret a.

(* ===================================================================== *)
(** ** Graph data *)
(* ===================================================================== *)

Record Metadata : Type := mkMetadata {
  geometryIds : list string;
  roomIds : option (list string);   (* undefined until a room is assigned *)
  roomId : option string;
  isDoor : bool;
  isPublic : bool;
  isLocked : bool;
  isStairs : bool;
  isElevator : bool
}.

Record Node : Type := mkNode {
  id : string;
  coords : Coord;
  floorId : string;
  ntype : string;
  metadata : Metadata
}.

Record Edge : Type := mkEdge {
  target : string;
  weight : option Q;     (* [edge.weight ?? ...]: may be missing *)
  etype : string;
  accessible : bool
}.

(** Modelled from the spec: [core/Graph.js] is not among the sources.  The
    graph owns the nodes keyed by id and the adjacency [id -> sequence of
    edges]; its three nearest-node searches, whose algorithms are unknown,
    are carried as functions. *)
Record Graph : Type := mkGraph {
  nodes : gmap string Node;
  adjacency : gmap string (list Edge);
  findNearestNode : Coord -> string -> option Node;
  findNearestNodesInRadius : Coord -> string -> Q -> nat -> list Node;
  findNearestNodeExpanded : Coord -> string -> option Node
}.

Definition getNode (g : Graph) (i : string) : option Node := nodes g !! i.

Definition getEdges (g : Graph) (i : string) : list Edge :=
  default [] (adjacency g !! i).

(** Modelled from the spec: [Graph.getNodesOnFloor] is in [core/Graph.js],
    not among the sources.  The graph is partitioned per floor: the nodes
    of a floor are the nodes of the graph whose floor id is that floor.
    The order of the answer is not specified; that of the node map is
    taken. *)
Definition getNodesOnFloor (g : Graph) (floor : string) : list Node :=
  List.filter (fun n => String.eqb (floorId n) floor) (map snd (map_to_list (nodes g))).

(** Modelled from the spec: the quad tree of a floor, built by
    [Graph.buildSpatialIndexes] in [core/Graph.js], holds exactly the nodes
    of that floor, and its [query] returns all of them whose coordinates
    fall in the inclusive rectangle. *)
Definition queryFloor (g : Graph) (floor : string) (range : BBox) : list Node :=
  List.filter
    (fun n => num_le (minX range) (lng (coords n)) && num_le (lng (coords n)) (maxX range)
              && num_le (minY range) (lat (coords n)) && num_le (lat (coords n)) (maxY range))
    (getNodesOnFloor g floor).

(* ===================================================================== *)
(** ** CollisionDetector *)
(* ===================================================================== *)

Module CollisionDetector.
Section WithPlatform.
Context `{Platform}.

Record Obstacle : Type := mkObstacle {
  feature : Feature;
  bbox : option BBox
}.

Record t : Type := mk {
  obstacles : gmap string (list Obstacle);
  doorSegments : gmap string (list Feature)
}.

Definition doorToleranceMeters : Q := (6 # 10)%Q.

(** [doorSegments.some(...)] inside [try]: the first segment close enough
    answers true, an exception answers false. *)
Fixpoint someDoorWithin (p : Coord) (segments : list Feature) : bool :=
  match segments with
  | [] => false
  | segment :: rest =>
      match turf_pointToLineDistance p segment with
      | None => false
      | Some distance =>
          if num_le distance doorToleranceMeters then true
          else someDoorWithin p rest
      end
  end.

Definition isIntersectionAtDoor (cd : t) (p : Coord) (floor : string) : bool :=
  match doorSegments cd !! floor with
  | None => false
  | Some [] => false
  | Some segments => someDoorWithin p segments
  end.

Fixpoint anyObstacleContains (p : Coord) (obs : list Obstacle) : bool :=
  match obs with
  | [] => false
  | o :: rest =>
      match turf_booleanPointInPolygon p (feature o) with
      | None => false
      | Some true => true
      | Some false => anyObstacleContains p rest
      end
  end.

Definition pointInObstacle (cd : t) (p : Coord) (floor : string) : bool :=
  match obstacles cd !! floor with
  | None => false
  | Some obs =>
      if isIntersectionAtDoor cd p floor then false
      else anyObstacleContains p obs
  end.

(** [turf.bbox] of the two-point line [[a, b]]. *)
Definition lineBBox (a b : Coord) : BBox :=
  mkBBox (Qmin (lng a) (lng b)) (Qmin (lat a) (lat b))
         (Qmax (lng a) (lng b)) (Qmax (lat a) (lat b)).

Definition bboxDisjoint (line o : BBox) : bool :=
  num_lt (maxX o) (minX line) || num_gt (minX o) (maxX line)
  || num_lt (maxY o) (minY line) || num_gt (minY o) (maxY line).

Fixpoint crossesSomeObstacle (cd : t) (a b : Coord) (floor : string)
    (obs : list Obstacle) : bool :=
  match obs with
  | [] => false
  | o :: rest =>
      let skipped :=
        match bbox o with
        | Some ob => bboxDisjoint (lineBBox a b) ob
        | None => false
        end in
      if skipped then crossesSomeObstacle cd a b floor rest
      else
        match turf_lineIntersect a b (feature o) with
        | None => false
        | Some points =>
            match points with
            | [] => crossesSomeObstacle cd a b floor rest
            | _ =>
                if forallb (fun q => isIntersectionAtDoor cd q floor) points
                then crossesSomeObstacle cd a b floor rest
                else true
            end
        end
  end.

Definition lineIntersectsObstacle (cd : t) (a b : Coord) (floor : string) : bool :=
  match obstacles cd !! floor with
  | None => false
  | Some [] => false
  | Some obs => crossesSomeObstacle cd a b floor obs
  end.

Definition isPathClear (cd : t) (a b : Coord) (floor : string) : bool :=
  if pointInObstacle cd a floor || pointInObstacle cd b floor then false
  else negb (lineIntersectsObstacle cd a b floor).

(** The length the relaxed check compares with 2 and 10: the planar
    distance in degrees times 111320. *)
Definition distMeters (a b : Coord) : Q :=
  let dx := (lng b - lng a)%Q in
  let dy := (lat b - lat a)%Q in
  let distDegrees := Math_sqrt (dx * dx + dy * dy)%Q in
  (distDegrees * 111320)%Q.

Definition isPathClearRelaxed (cd : t) (a b : Coord) (floor : string) : bool :=
  if num_lt (distMeters a b) 2%Q then true
  else if num_lt (distMeters a b) 10%Q
  then negb (lineIntersectsObstacle cd a b floor)
  else isPathClear cd a b floor.





End WithPlatform.
End CollisionDetector.

(* ===================================================================== *)
(** ** EdgeBuilder *)
(* ===================================================================== *)

Module EdgeBuilder.
Section WithPlatform.
Context `{Platform}.

Record t : Type := mk { collisionDetector : CollisionDetector.t }.

(** An element of the array [buildEdgesForFloor] returns. *)
Record BuiltEdge : Type := mkBuiltEdge {
  from : string;
  to : string;
  weight : Q;
  type : string
}.

(** The spatial index of a floor: [Some query] when both [spatialIndex]
    and [spatialIndex.quadTree] are present. *)
Definition SpatialIndex : Type := option (BBox -> list Node).

Definition distSqDegrees (a b : Node) : Q :=
  let dx := (lng (coords b) - lng (coords a))%Q in
  let dy := (lat (coords b) - lat (coords a))%Q in
  (dx * dx + dy * dy)%Q.

(** [-Infinity] is [None]. *)
Definition aboveWorst (distSq : Q) (worst : option Q) : bool :=
  match worst with None => true | Some w => num_gt distSq w end.

Definition notBelowWorst (distSq : Q) (worst : option Q) : bool :=
  match worst with None => true | Some w => num_ge distSq w end.

(** The rescan after a replacement: the first largest [distSq]. *)
Fixpoint findWorst (best : list (Node * Q)) (i : nat)
    (worstIndex : nat) (worstDistSq : option Q) : nat * option Q :=
  match best with
  | [] => (worstIndex, worstDistSq)
  | item :: rest =>
      if aboveWorst (snd item) worstDistSq
      then findWorst rest (S i) i (Some (snd item))
      else findWorst rest (S i) worstIndex worstDistSq
  end.

Fixpoint selectLoop (nodeA : Node) (candidates : list Node) (maxNeighbors : nat)
    (best : list (Node * Q)) (worstIndex : nat) (worstDistSq : option Q)
    : list (Node * Q) :=
  match candidates with
  | [] => best
  | candidate :: rest =>
      if String.eqb (id candidate) (id nodeA)
      then selectLoop nodeA rest maxNeighbors best worstIndex worstDistSq
      else
        let distSq := distSqDegrees nodeA candidate in
        if (length best <? maxNeighbors)%nat then
          let best' := best ++ [(candidate, distSq)] in
          if aboveWorst distSq worstDistSq
          then selectLoop nodeA rest maxNeighbors best' (length best' - 1) (Some distSq)
          else selectLoop nodeA rest maxNeighbors best' worstIndex worstDistSq
        else if notBelowWorst distSq worstDistSq
        then selectLoop nodeA rest maxNeighbors best worstIndex worstDistSq
        else
          let best' := <[worstIndex := (candidate, distSq)]> best in
          let '(wi, wd) := findWorst best' 0 0 None in
          selectLoop nodeA rest maxNeighbors best' wi wd
  end.

(** [best.sort((a, b) => a.distSq - b.distSq)]: stable, ascending. *)
Fixpoint insertByDistSq (item : Node * Q) (sorted : list (Node * Q))
    : list (Node * Q) :=
  match sorted with
  | [] => [item]
  | x :: rest =>
      if num_lt (snd item) (snd x) then item :: x :: rest
      else x :: insertByDistSq item rest
  end.

Definition sortByDistSq (best : list (Node * Q)) : list (Node * Q) :=
  fold_left (fun acc item => insertByDistSq item acc) best [].

Definition selectNearestCandidates (nodeA : Node) (candidates : list Node)
    (maxNeighbors : nat) : list Node :=
  map fst (sortByDistSq (selectLoop nodeA candidates maxNeighbors [] 0 None)).

Definition hasLineOfSight (eb : t) (a b : Coord) (floor : string) : bool :=
  CollisionDetector.isPathClear (collisionDetector eb) a b floor.

Definition metersPerDegreeLat : Q := 111320%Q.

Definition metersPerDegreeLng (nodeA : Node) : Q :=
  (Math_cos_deg (lat (coords nodeA)) * metersPerDegreeLat)%Q.

(** The squared planar distance in meters, scaled at [nodeA]'s latitude. *)
Definition distanceSqMeters (nodeA nodeB : Node) : Q :=
  let dxMeters := ((lng (coords nodeB) - lng (coords nodeA)) * metersPerDegreeLng nodeA)%Q in
  let dyMeters := ((lat (coords nodeB) - lat (coords nodeA)) * metersPerDegreeLat)%Q in
  (dxMeters * dxMeters + dyMeters * dyMeters)%Q.

(** [neighborLimit && addedForNode >= neighborLimit] *)
Definition limitReached (neighborLimit : option nat) (addedForNode : nat) : bool :=
  match neighborLimit with
  | Some (S n) => (S n <=? addedForNode)%nat
  | _ => false
  end.

(** The inner [for (const nodeB of candidates)] loop of one [nodeA]. *)
Fixpoint edgesFromNode (eb : t) (floor : string) (maxDistance : Q)
    (neighborLimit : option nat) (nodeA : Node) (candidates : list Node)
    (addedForNode : nat) : list BuiltEdge :=
  match candidates with
  | [] => []
  | nodeB :: rest =>
      if String.leb (id nodeB) (id nodeA)
      then edgesFromNode eb floor maxDistance neighborLimit nodeA rest addedForNode
      else if num_gt (distanceSqMeters nodeA nodeB) (maxDistance * maxDistance)%Q
      then edgesFromNode eb floor maxDistance neighborLimit nodeA rest addedForNode
      else if hasLineOfSight eb (coords nodeA) (coords nodeB) floor then
        let distance := Math_sqrt (distanceSqMeters nodeA nodeB) in
        mkBuiltEdge (id nodeA) (id nodeB) distance "walkable"
        :: mkBuiltEdge (id nodeB) (id nodeA) distance "walkable"
        :: (if limitReached neighborLimit (S addedForNode) then []
            else edgesFromNode eb floor maxDistance neighborLimit nodeA rest
                   (S addedForNode))
      else edgesFromNode eb floor maxDistance neighborLimit nodeA rest addedForNode
  end.

Definition candidatePoolMultiplier : nat := 6.

Definition candidatePoolLimit (neighborLimit : option nat) : option nat :=
  match neighborLimit with
  | Some (S n) => Some (Nat.max (S n) (S n * candidatePoolMultiplier))
  | _ => None
  end.

(** The candidates of [nodeA]: the quad tree's answer on the square around
    it, or the bounding-box filter of [nodes], cut to the pool limit. *)
Definition candidatesOf (nodes : list Node) (maxDistance : Q)
    (spatialIndex : SpatialIndex) (neighborLimit : option nat) (nodeA : Node)
    : list Node :=
  let maxDistDegrees := (maxDistance / 111320)%Q in
  let lngA := lng (coords nodeA) in
  let latA := lat (coords nodeA) in
  let candidates :=
    match spatialIndex with
    | Some query =>
        query (mkBBox (lngA - maxDistDegrees) (latA - maxDistDegrees)
                      (lngA + maxDistDegrees) (latA + maxDistDegrees))%Q
    | None =>
        List.filter
          (fun n =>
             num_le (Math_abs (lng (coords n) - lngA)) maxDistDegrees
             && num_le (Math_abs (lat (coords n) - latA)) maxDistDegrees)%Q
          nodes
    end in
  match candidatePoolLimit neighborLimit with
  | Some limit =>
      if (limit <? length candidates)%nat
      then selectNearestCandidates nodeA candidates limit
      else candidates
  | None => candidates
  end.

(** [buildEdgesForFloor]; [maxNeighbors] is [None] when the argument is not
    a finite number.  The yields to the main thread between two nodes do
    not touch [edges] and are left out. *)
Definition buildEdgesForFloor (eb : t) (nodes : list Node) (floor : string)
    (maxDistance : Q) (spatialIndex : SpatialIndex) (maxNeighbors : option nat)
    : list BuiltEdge :=
  let neighborLimit := maxNeighbors in
  flat_map
    (fun nodeA =>
       edgesFromNode eb floor maxDistance neighborLimit nodeA
         (candidatesOf nodes maxDistance spatialIndex neighborLimit nodeA) 0)
    nodes.

(** [floorList]: the floors of the nodes of the graph, each once, in the
    order of the node map. *)
Definition floorsOf (g : Graph) : list string :=
  remove_dups (map (fun kv => floorId (snd kv)) (map_to_list (nodes g))).

(** The call of [buildEdgesForFloor] that [buildAllEdges] makes for a
    floor: on [graph.getNodesOnFloor(floorId)] and the quad tree
    [graph.spatialIndex.get(floorId)], which the engine builds before the
    edges. *)
Definition edgesOfFloor (eb : t) (g : Graph) (maxDistance : Q)
    (maxNeighbors : option nat) (floor : string) : list BuiltEdge :=
  buildEdgesForFloor eb (getNodesOnFloor g floor) floor maxDistance
                     (Some (queryFloor g floor)) maxNeighbors.

(** [buildAllEdges] with [collectEdges]: the edges of all the floors.
    Each edge is also handed to [graph.addEdge], and the status callback is
    told of each floor; neither changes the edges returned. *)
Definition buildAllEdges (eb : t) (g : Graph) (maxDistance : Q)
    (maxNeighbors : option nat) : list BuiltEdge :=
  flat_map (edgesOfFloor eb g maxDistance maxNeighbors) (floorsOf g).

End WithPlatform.
End EdgeBuilder.

(* ===================================================================== *)
(** ** Routing options *)
(* ===================================================================== *)

(** The [options] object of a query.  A flag the code compares with a
    literal holds the outcome of that comparison: [useCache] and
    [snapToDoors] are false only for [=== false], [allowLockedDoors] is true
    only for [=== true]; the other flags hold the truthiness of the
    property.  A numeric option is [Some] when [Number.isFinite] accepts it. *)
Record Options : Type := mkOptions {
  useCache : bool;
  snapToDoors : bool;
  allowLockedDoors : bool;
  roomTraversalMode : option string;
  disallowOtherRooms : bool;
  publicRoomDoorCount : option Q;
  publicRoomArea : option Q;
  allowedRoomIds : option (gset string);
  nodeFilter : option (Node -> bool);
  accessibleOnly : bool;
  avoidStairs : bool;
  heuristicWeight : option Q
}.

(** [options = {}] *)
Definition noOptions : Options :=
  mkOptions true true false None false None None None None false false None.

(** [s || d] on strings: the empty string is falsy. *)
Definition string_or (s : option string) (d : string) : string :=
  match s with
  | Some EmptyString | None => d
  | Some v => v
  end.

(* ===================================================================== *)
(** ** PathCache *)
(* ===================================================================== *)

(** What [getStats] returns. *)
Module CacheStats.
Record t : Type := mk { size : nat; maxSize : nat }.
End CacheStats.

Module PathCache.
Section WithPlatform.
Context `{Platform}.
Context {Route : Type}.

(** The [Map] in insertion order, oldest entry first. *)
Record t : Type := mk {
  cache : list (string * Route);
  maxSize : nat
}.

Definition roundCoord (c : Q) : Q := (Math_round (c * 10000) / 10000)%Q.

(** [options.roomTraversalMode || (options.disallowOtherRooms ? 'strict' : 'all')] *)
Definition roomMode (options : Options) : string :=
  string_or (roomTraversalMode options)
            (if disallowOtherRooms options then "strict" else "all").

Definition generateKey (startCoords endCoords : Coord)
    (startFloorId endFloorId : string) (options : Options) : string :=
  let startKey :=
    String_of_number (roundCoord (lng startCoords)) +:+ "," +:+
    String_of_number (roundCoord (lat startCoords)) +:+ "," +:+ startFloorId in
  let endKey :=
    String_of_number (roundCoord (lng endCoords)) +:+ "," +:+
    String_of_number (roundCoord (lat endCoords)) +:+ "," +:+ endFloorId in
  let baseKey := if accessibleOnly options then "acc" else "std" in
  let roomDoorCount :=
    match publicRoomDoorCount options with
    | Some n => String_of_number n
    | None => ""
    end in
  let roomArea :=
    match publicRoomArea options with
    | Some n => String_of_number n
    | None => ""
    end in
  let optionsKey :=
    baseKey +:+ ":" +:+ roomMode options +:+ ":" +:+ roomDoorCount +:+ ":" +:+ roomArea in
  startKey +:+ "|" +:+ endKey +:+ "|" +:+ optionsKey.

Fixpoint lookupKey (key : string) (entries : list (string * Route)) : option Route :=
  match entries with
  | [] => None
  | (k, v) :: rest => if String.eqb k key then Some v else lookupKey key rest
  end.

Definition deleteKey (key : string) (entries : list (string * Route))
    : list (string * Route) :=
  List.filter (fun kv => negb (String.eqb (fst kv) key)) entries.

(** [Map.prototype.set]: an existing key keeps its place. *)
Fixpoint setKey (key : string) (v : Route) (entries : list (string * Route))
    : list (string * Route) :=
  match entries with
  | [] => [(key, v)]
  | (k, v') :: rest =>
      if String.eqb k key then (k, v) :: rest else (k, v') :: setKey key v rest
  end.

(** [get]: a hit moves the entry to the most recent end. *)
Definition get (pc : t) (startCoords endCoords : Coord)
    (startFloorId endFloorId : string) (options : Options) : option Route * t :=
  let key := generateKey startCoords endCoords startFloorId endFloorId options in
  match lookupKey key (cache pc) with
  | Some value =>
      (Some value, mk (deleteKey key (cache pc) ++ [(key, value)]) (maxSize pc))
  | None => (None, pc)
  end.

(** [set]: at capacity the oldest key goes first. *)
Definition set (pc : t) (startCoords endCoords : Coord)
    (startFloorId endFloorId : string) (options : Options) (route : Route) : t :=
  let key := generateKey startCoords endCoords startFloorId endFloorId options in
  let entries :=
    if (maxSize pc <=? length (cache pc))%nat then
      match cache pc with
      | [] => []
      | (firstKey, _) :: _ => deleteKey firstKey (cache pc)
      end
    else cache pc in
  mk (setKey key route entries) (maxSize pc).

Definition clear (pc : t) : t := mk [] (maxSize pc).

Definition getStats (pc : t) : CacheStats.t :=
  CacheStats.mk (length (cache pc)) (maxSize pc).

End WithPlatform.
Arguments t : clear implicits.
End PathCache.

(* ===================================================================== *)
(** ** MinHeap *)
(* ===================================================================== *)

Module MinHeap.

Record Item : Type := mkItem { nodeId : string; priority : Q }.

(** The array [this.heap]. *)
Abbreviation t := (list Item).

Definition swap (heap : t) (i j : nat) : t :=
  match heap !! i, heap !! j with
  | Some a, Some b => <[i := b]> (<[j := a]> heap)
  | _, _ => heap
  end.

(** [bubbleUp]: the index strictly decreases, [index] rounds are enough. *)
Fixpoint bubbleUpLoop (rounds : nat) (heap : t) (index : nat) : t :=
  match rounds with
  | O => heap
  | S rounds' =>
      if (0 <? index)%nat then
        let parentIndex := ((index - 1) / 2)%nat in
        match heap !! index, heap !! parentIndex with
        | Some child, Some parent =>
            if num_ge (priority child) (priority parent) then heap
            else bubbleUpLoop rounds' (swap heap index parentIndex) parentIndex
        | _, _ => heap
        end
      else heap
  end.

Definition bubbleUp (heap : t) (index : nat) : t := bubbleUpLoop index heap index.

Definition smallerAt (heap : t) (candidate smallest : nat) : nat :=
  match heap !! candidate, heap !! smallest with
  | Some c, Some s => if num_lt (priority c) (priority s) then candidate else smallest
  | _, _ => smallest
  end.

(** [bubbleDown]: the index strictly increases, [length heap] rounds are
    enough. *)
Fixpoint bubbleDownLoop (rounds : nat) (heap : t) (index : nat) : t :=
  match rounds with
  | O => heap
  | S rounds' =>
      let leftChild := (2 * index + 1)%nat in
      let rightChild := (2 * index + 2)%nat in
      let smallest := smallerAt heap rightChild (smallerAt heap leftChild index) in
      if (smallest =? index)%nat then heap
      else bubbleDownLoop rounds' (swap heap index smallest) smallest
  end.

Definition bubbleDown (heap : t) (index : nat) : t :=
  bubbleDownLoop (length heap) heap index.

Definition push (heap : t) (item : Item) : t :=
  bubbleUp (heap ++ [item]) (length heap).

(** [pop]: [None] for [null]. *)
Definition pop (heap : t) : option Item * t :=
  match heap with
  | [] => (None, [])
  | [only] => (Some only, [])
  | min :: rest =>
      match List.last rest min, removelast heap with
      | final, _ :: shorter => (Some min, bubbleDown (final :: shorter) 0)
      | _, [] => (Some min, [])
      end
  end.

Definition isEmpty (heap : t) : bool :=
  match heap with [] => true | _ => false end.

End MinHeap.

(* ===================================================================== *)
(** ** AStar *)
(* ===================================================================== *)

Module Segment.
Record t : Type := mk {
  from : string;
  to : string;
  fromCoords : Coord;
  toCoords : Coord;
  distance : Q;
  floorChange : bool;
  fromFloor : string;
  toFloor : string
}.
End Segment.

(** What [reconstructPath] returns. *)
Module PathResult.
Record t : Type := mk {
  nodeIds : list string;
  nodes : list Node;
  coords : list Coord;
  floors : list string;
  distance : option Q;       (* [gScore.get(currentId)] *)
  segments : list Segment.t
}.
End PathResult.

Module AStar.
Section WithPlatform.
Context `{Platform}.

Definition heuristic (nodeA nodeB : Node) : Q :=
  let dist := turf_distance (coords nodeA) (coords nodeB) in
  let floorPenalty := if String.eqb (floorId nodeA) (floorId nodeB) then 0%Q else 10%Q in
  (dist + floorPenalty)%Q.

(** [metadata.roomIds || (metadata.roomId ? [metadata.roomId] : [])] *)
Definition roomIdsOf (m : Metadata) : list string :=
  match roomIds m with
  | Some ids => ids
  | None =>
      match roomId m with
      | Some EmptyString | None => []
      | Some r => [r]
      end
  end.

Definition inRoomSet (allowedRoomSet : gset string) (r : string) : bool :=
  bool_decide (r ∈ allowedRoomSet).

(** [isRoomAllowed] as [findPath] defines it. *)
Definition findPath_isRoomAllowed (options : Options) (node : Node) : bool :=
  if negb (disallowOtherRooms options) then true
  else if isElevator (metadata node) || isStairs (metadata node) || isDoor (metadata node)
  then true
  else
    match roomIdsOf (metadata node) with
    | [] => true
    | ids =>
        match allowedRoomIds options with
        | None => true
        | Some allowedRoomSet =>
            if (size allowedRoomSet =? 0)%nat then true
            else existsb (inRoomSet allowedRoomSet) ids
        end
    end.

(** [isRoomAllowed] as [findPathBidirectional] defines it. *)
Definition findPathBidirectional_isRoomAllowed (options : Options) (node : Node) : bool :=
  if negb (disallowOtherRooms options) then true
  else
    match roomIdsOf (metadata node) with
    | [] => true
    | ids =>
        match allowedRoomIds options with
        | None => false
        | Some allowedRoomSet =>
            if (size allowedRoomSet =? 0)%nat then false
            else existsb (inRoomSet allowedRoomSet) ids
        end
    end.

Definition passesNodeFilter (options : Options) (node : Node) : bool :=
  match nodeFilter options with
  | Some accept => accept node
  | None => true
  end.

Definition findPath_isNodeAllowed (options : Options) (node : Node) : bool :=
  if negb (passesNodeFilter options node) then false
  else findPath_isRoomAllowed options node.

Definition findPathBidirectional_isNodeAllowed (options : Options) (node : Node) : bool :=
  if negb (passesNodeFilter options node) then false
  else findPathBidirectional_isRoomAllowed options node.

(** The mutable locals of [findPath]. *)
Record SearchState : Type := mkState {
  openSet : MinHeap.t;
  closedSet : gset string;
  gScore : gmap string Q;
  fScore : gmap string Q;
  cameFrom : gmap string string
}.

(** [tentativeG < (gScore.get(neighborId) || Infinity)]: a missing score
    and a score of zero both read as [Infinity]. *)
Definition improves (tentativeG : Q) (known : option Q) : bool :=
  match known with
  | None => true
  | Some g => if Qeq_bool g 0 then true else num_lt tentativeG g
  end.

Definition weightOrDefault (options : Options) : Q :=
  default 1%Q (heuristicWeight options).

(** [edge.weight ?? turf.distance(currentNode.coords, neighborNode.coords)] *)
Definition edgeDistance (g : Graph) (currentId : string) (neighborNode : Node)
    (edge : Edge) : js Q :=
  match weight edge with
  | Some w => Ret w
  | None =>
      match getNode g currentId with
      | Some currentNode => Ret (turf_distance (coords currentNode) (coords neighborNode))
      | None => Throw "TypeError: currentNode is undefined"
      end
  end.

(** One round of [for (const edge of edges)] for the node [currentId]. *)
Definition relax (g : Graph) (endNode : Node) (options : Options)
    (currentId : string) (st : SearchState) (edge : Edge) : js SearchState :=
  if accessibleOnly options && negb (accessible edge) then Ret st
  else if avoidStairs options && String.eqb (etype edge) "stairs" then Ret st
  else
    let neighborId := target edge in
    if bool_decide (neighborId ∈ closedSet st) then Ret st
    else
      match getNode g neighborId with
      | None => Ret st
      | Some neighborNode =>
          if negb (findPath_isNodeAllowed options neighborNode) then Ret st
          else
            distance ← edgeDistance g currentId neighborNode edge;
            match gScore st !! currentId with
            | None => Ret st
            | Some gCurrent =>
                let tentativeG := (gCurrent + distance)%Q in
                if improves tentativeG (gScore st !! neighborId) then
                  let h := (heuristic neighborNode endNode * weightOrDefault options)%Q in
                  let f := (tentativeG + h)%Q in
                  Ret (mkState
                         (MinHeap.push (openSet st) (MinHeap.mkItem neighborId f))
                         (closedSet st)
                         (<[neighborId := tentativeG]> (gScore st))
                         (<[neighborId := f]> (fScore st))
                         (<[neighborId := currentId]> (cameFrom st)))
                else Ret st
            end
      end.

Fixpoint relaxAll (g : Graph) (endNode : Node) (options : Options)
    (currentId : string) (st : SearchState) (edges : list Edge) : js SearchState :=
  match edges with
  | [] => Ret st
  | edge :: rest =>
      st' ← relax g endNode options currentId st edge;
      relaxAll g endNode options currentId st' rest
  end.

Fixpoint buildSegments (nodes : list Node) : list Segment.t :=
  match nodes with
  | a :: ((b :: _) as rest) =>
      Segment.mk (id a) (id b) (coords a) (coords b)
                 (turf_distance (coords a) (coords b))
                 (negb (String.eqb (floorId a) (floorId b)))
                 (floorId a) (floorId b)
      :: buildSegments rest
  | _ => []
  end.

(** [while (cameFrom.has(current))]: walks back and prepends. *)
Fixpoint walkBack (rounds : nat) (cameFrom : gmap string string)
    (current : string) (path : list string) : js (list string) :=
  match cameFrom !! current with
  | None => Ret path
  | Some previous =>
      match rounds with
      | O => OutOfFuel
      | S rounds' => walkBack rounds' cameFrom previous (previous :: path)
      end
  end.

(** [path.map(id => this.graph.getNode(id))] followed by [node.coords]:
    an unknown id is a [TypeError]. *)
Fixpoint nodesOf (g : Graph) (path : list string) : js (list Node) :=
  match path with
  | [] => Ret []
  | i :: rest =>
      match getNode g i with
      | None => Throw "TypeError: node is undefined"
      | Some n => ns ← nodesOf g rest; Ret (n :: ns)
      end
  end.

Definition reconstructPath (g : Graph) (cameFrom : gmap string string)
    (currentId : string) (gScore : gmap string Q) : js PathResult.t :=
  path ← walkBack (size cameFrom) cameFrom currentId [currentId];
  ns ← nodesOf g path;
  Ret (PathResult.mk path ns (map coords ns) (map floorId ns)
                     (gScore !! currentId) (buildSegments ns)).

(** What one round of [while (!openSet.isEmpty())] leads to: the function
    returns, or the loop goes on with new locals. *)
Inductive Progress : Type :=
  | Finished (result : option PathResult.t)
  | Continue (st : SearchState).

Definition searchStep (g : Graph) (endNodeId : string) (endNode : Node)
    (options : Options) (st : SearchState) : js Progress :=
  match MinHeap.pop (openSet st) with
  | (None, _) => Ret (Finished None)
  | (Some current, rest) =>
      let currentId := MinHeap.nodeId current in
      let st1 := mkState rest (closedSet st) (gScore st) (fScore st) (cameFrom st) in
      if String.eqb currentId endNodeId
      then r ← reconstructPath g (cameFrom st1) currentId (gScore st1);
           Ret (Finished (Some r))
      else if bool_decide (currentId ∈ closedSet st1)
      then Ret (Continue st1)
      else
        let st2 := mkState rest ({[currentId]} ∪ closedSet st1)
                           (gScore st1) (fScore st1) (cameFrom st1) in
        st3 ← relaxAll g endNode options currentId st2 (getEdges g currentId);
        Ret (Continue st3)
  end.

Fixpoint searchLoop (rounds : nat) (g : Graph) (endNodeId : string)
    (endNode : Node) (options : Options)
    (st : SearchState) : js (option PathResult.t) :=
  progress ← searchStep g endNodeId endNode options st;
  match progress with
  | Finished result => Ret result
  | Continue st' =>
      match rounds with
      | O => OutOfFuel
      | S rounds' => searchLoop rounds' g endNodeId endNode options st'
      end
  end.

(** Every round pops one entry and an entry is pushed only while a node
    is expanded, once per node: one more than the number of edges bounds
    the rounds. *)
Definition searchBudget (g : Graph) : nat :=
  S (map_fold (fun _ edges total => (length edges + total)%nat) 0%nat (adjacency g)).

Definition initialState (startNodeId : string) (h : Q) : SearchState :=
  mkState (MinHeap.push [] (MinHeap.mkItem startNodeId h)) ∅
          {[startNodeId := 0%Q]} {[startNodeId := h]} ∅.

Definition findPath (g : Graph) (startNodeId endNodeId : string) (options : Options)
    : js (option PathResult.t) :=
  match getNode g startNodeId, getNode g endNodeId with
  | Some startNode, Some endNode =>
      searchLoop (searchBudget g) g endNodeId endNode options
                 (initialState startNodeId (heuristic startNode endNode))
  | _, _ => Ret None
  end.

(** *** The bidirectional variant *)

(** The locals of one direction of [findPathBidirectional]. *)
Record Side : Type := mkSide {
  sideOpen : MinHeap.t;
  sideClosed : gset string;
  sideG : gmap string Q;
  sideCameFrom : gmap string string
}.

(** One round of either [for (const edge of edges)] loop; [towards] is
    the node the heuristic aims at. *)
Definition relaxSide (g : Graph) (towards : Node) (options : Options)
    (currentId : string) (side : Side) (edge : Edge) : js Side :=
  if accessibleOnly options && negb (accessible edge) then Ret side
  else if avoidStairs options && String.eqb (etype edge) "stairs" then Ret side
  else
    let neighborId := target edge in
    if bool_decide (neighborId ∈ sideClosed side) then Ret side
    else
      match getNode g neighborId with
      | None => Ret side
      | Some neighborNode =>
          if negb (findPathBidirectional_isNodeAllowed options neighborNode) then Ret side
          else
            distance ← edgeDistance g currentId neighborNode edge;
            match sideG side !! currentId with
            | None => Ret side
            | Some gCurrent =>
                let tentativeG := (gCurrent + distance)%Q in
                if improves tentativeG (sideG side !! neighborId) then
                  let h := (heuristic neighborNode towards * weightOrDefault options)%Q in
                  Ret (mkSide
                         (MinHeap.push (sideOpen side)
                                       (MinHeap.mkItem neighborId (tentativeG + h)%Q))
                         (sideClosed side)
                         (<[neighborId := tentativeG]> (sideG side))
                         (<[neighborId := currentId]> (sideCameFrom side)))
                else Ret side
            end
      end.

Fixpoint relaxSideAll (g : Graph) (towards : Node) (options : Options)
    (currentId : string) (side : Side) (edges : list Edge) : js Side :=
  match edges with
  | [] => Ret side
  | edge :: rest =>
      side' ← relaxSide g towards options currentId side edge;
      relaxSideAll g towards options currentId side' rest
  end.

(** [meetingNode] with [bestDistance]; [None] while they are [null] and
    [Infinity]. *)
Definition Meeting : Type := option (string * Q).

(** One [if (!open.isEmpty()) { ... }] block: pops, closes, records a
    meeting with the other direction, expands. *)
Definition expandSide (g : Graph) (towards : Node) (options : Options)
    (side other : Side) (meeting : Meeting) : js (Side * Meeting) :=
  match MinHeap.pop (sideOpen side) with
  | (None, _) => Ret (side, meeting)
  | (Some current, rest) =>
      let currentId := MinHeap.nodeId current in
      let popped := mkSide rest (sideClosed side) (sideG side) (sideCameFrom side) in
      if bool_decide (currentId ∈ sideClosed side) then Ret (popped, meeting)
      else
        let closed := mkSide rest ({[currentId]} ∪ sideClosed side)
                             (sideG side) (sideCameFrom side) in
        let meeting' :=
          if bool_decide (currentId ∈ sideClosed other) then
            match sideG side !! currentId, sideG other !! currentId with
            | Some a, Some b =>
                let totalDist := (a + b)%Q in
                match meeting with
                | Some (_, bestDistance) =>
                    if num_lt totalDist bestDistance
                    then Some (currentId, totalDist) else meeting
                | None => Some (currentId, totalDist)
                end
            | _, _ => meeting
            end
          else meeting in
        side' ← relaxSideAll g towards options currentId closed (getEdges g currentId);
        Ret (side', meeting')
  end.

(** [open.isEmpty() ? Infinity : open.heap[0]?.priority || Infinity] *)
Definition topPriority (heap : MinHeap.t) : option Q :=
  match heap with
  | [] => None
  | top :: _ => if Qeq_bool (MinHeap.priority top) 0 then None
                else Some (MinHeap.priority top)
  end.

Definition canStop (forward backward : Side) (meeting : Meeting) : bool :=
  match meeting with
  | Some (meetingNode, bestDistance) =>
      if String.eqb meetingNode "" then false
      else
        match topPriority (sideOpen forward), topPriority (sideOpen backward) with
        | Some forwardMin, Some backwardMin =>
            num_le bestDistance (forwardMin + backwardMin)%Q
        | _, _ => true
        end
  | None => false
  end.

Fixpoint alternate (rounds : nat) (g : Graph) (startNode endNode : Node)
    (options : Options) (forward backward : Side) (meeting : Meeting)
    : js Meeting * Side * Side :=
  if MinHeap.isEmpty (sideOpen forward) && MinHeap.isEmpty (sideOpen backward)
  then (Ret meeting, forward, backward)
  else
    match expandSide g endNode options forward backward meeting with
    | Ret (forward', meeting1) =>
        match expandSide g startNode options backward forward' meeting1 with
        | Ret (backward', meeting2) =>
            if canStop forward' backward' meeting2
            then (Ret meeting2, forward', backward')
            else
              match rounds with
              | O => (OutOfFuel, forward', backward')
              | S rounds' =>
                  alternate rounds' g startNode endNode options
                            forward' backward' meeting2
              end
        | Throw msg => (Throw msg, forward', backward)
        | OutOfFuel => (OutOfFuel, forward', backward)
        end
    | Throw msg => (Throw msg, forward, backward)
    | OutOfFuel => (OutOfFuel, forward, backward)
    end.

(** [while (current !== startId && forwardCameFrom.has(current))] *)
Fixpoint walkForward (rounds : nat) (cameFrom : gmap string string)
    (startId current : string) (path : list string) : js (list string) :=
  if String.eqb current startId then Ret path
  else
    match cameFrom !! current with
    | None => Ret path
    | Some previous =>
        match rounds with
        | O => OutOfFuel
        | S rounds' => walkForward rounds' cameFrom startId previous (current :: path)
        end
    end.

(** [while (current !== endId && backwardCameFrom.has(current))] *)
Fixpoint walkBackward (rounds : nat) (cameFrom : gmap string string)
    (endId current : string) (path : list string) : js (list string) :=
  if String.eqb current endId then Ret path
  else
    match cameFrom !! current with
    | None => Ret path
    | Some following =>
        match rounds with
        | O => OutOfFuel
        | S rounds' => walkBackward rounds' cameFrom endId following (path ++ [following])
        end
    end.

Definition reconstructBidirectionalPath (g : Graph)
    (forwardCameFrom backwardCameFrom : gmap string string)
    (meetingNode startId endId : string) (distance : Q) : js PathResult.t :=
  forwardPath ← walkForward (size forwardCameFrom) forwardCameFrom startId meetingNode [];
  backwardPath ← walkBackward (size backwardCameFrom) backwardCameFrom endId meetingNode [];
  let fullPath := (startId :: forwardPath) ++ backwardPath in
  ns ← nodesOf g fullPath;
  Ret (PathResult.mk fullPath ns (map coords ns) (map floorId ns)
                     (Some distance) (buildSegments ns)).

Definition findPathBidirectional (g : Graph) (startNodeId endNodeId : string)
    (options : Options) : js (option PathResult.t) :=
  match getNode g startNodeId, getNode g endNodeId with
  | Some startNode, Some endNode =>
      let forward :=
        mkSide (MinHeap.push [] (MinHeap.mkItem startNodeId (heuristic startNode endNode)))
               ∅ {[startNodeId := 0%Q]} ∅ in
      let backward :=
        mkSide (MinHeap.push [] (MinHeap.mkItem endNodeId (heuristic endNode startNode)))
               ∅ {[endNodeId := 0%Q]} ∅ in
      match alternate (2 * searchBudget g) g startNode endNode options
                      forward backward None with
      | (Ret (Some (meetingNode, bestDistance)), forward', backward') =>
          if String.eqb meetingNode "" then Ret None
          else
            r ← reconstructBidirectionalPath g (sideCameFrom forward')
                   (sideCameFrom backward') meetingNode startNodeId endNodeId
                   bestDistance;
            Ret (Some r)
      | (Ret None, _, _) => Ret None
      | (Throw msg, _, _) => Throw msg
      | (OutOfFuel, _, _) => OutOfFuel
      end
  | _, _ => Ret None
  end.

End WithPlatform.
End AStar.

(* ===================================================================== *)
(** ** PathfindingEngine *)
(* ===================================================================== *)

Module RouteMeta.
Record t : Type := mk {
  startCoords : Coord;
  endCoords : Coord;
  startFloorId : string;
  endFloorId : string;
  startRoomId : option string;
  endRoomId : option string;
  sameRoom : bool;                       (* set on the same-room route only *)
  startDoorId : option string;
  endDoorId : option string;
  roomTraversalMode : option string      (* set after a graph search only *)
}.
End RouteMeta.

Module Route.
Record t : Type := mk {
  path : list Coord;
  nodeIds : list string;
  distance : Q;
  floors : list string;
  segments : list Segment.t;
  startNode : option Node;
  endNode : option Node;
  meta : RouteMeta.t
}.
End Route.

(** What [snapToWalkableNode] returns. *)
Module Snapped.
Record t : Type := mk { node : Node; coords : Coord; distanceMeters : Q }.
End Snapped.

Module PathfindingEngine.
Section WithPlatform.
Context `{Platform}.

Record Room : Type := mkRoom {
  geometryId : string;
  roomFloorId : string;
  feature : Feature;
  buffer : option Feature;
  bbox : BBox
}.

Record RoomMetaEntry : Type := mkRoomMeta {
  area : Q;
  doorCount : nat;
  publicDoorCount : nat
}.

Record RouteError : Type := mkRouteError { code : string; message : string }.

Record t : Type := mk {
  graph : Graph;
  collisionDetector : CollisionDetector.t;
  initialized : bool;
  roomIndex : gmap string (list Room);
  roomDoorIndex : gmap string (list Node);
  roomMeta : gmap string RoomMetaEntry;
  walkableNodesByFloor : gmap string (list Node);
  lastRouteError : option RouteError;
  pathCache : PathCache.t Route.t
}.

Definition withError (e : t) (err : option RouteError) : t :=
  mk (graph e) (collisionDetector e) (initialized e) (roomIndex e)
     (roomDoorIndex e) (roomMeta e) (walkableNodesByFloor e) err (pathCache e).

Definition withCache (e : t) (pc : PathCache.t Route.t) : t :=
  mk (graph e) (collisionDetector e) (initialized e) (roomIndex e)
     (roomDoorIndex e) (roomMeta e) (walkableNodesByFloor e) (lastRouteError e) pc.

Definition getLastRouteError (e : t) : option RouteError := lastRouteError e.

Definition setRouteError (e : t) (code message : string) : t :=
  withError e (Some (mkRouteError code message)).

Definition isPointInRoom (p : Coord) (room : Room) : bool :=
  let target := default (feature room) (buffer room) in
  default false (turf_booleanPointInPolygon p target).

Fixpoint firstRoomContaining (p : Coord) (rooms : list Room) : option Room :=
  match rooms with
  | [] => None
  | room :: rest =>
      let b := bbox room in
      if num_lt (lng p) (minX b) || num_gt (lng p) (maxX b)
         || num_lt (lat p) (minY b) || num_gt (lat p) (maxY b)
      then firstRoomContaining p rest
      else if isPointInRoom p room then Some room
      else firstRoomContaining p rest
  end.

Definition findRoomAtPoint (e : t) (p : Coord) (floor : string) : option Room :=
  match roomIndex e !! floor with
  | None => None
  | Some rooms => firstRoomContaining p rooms
  end.

(** [snapToDoors ? this.findRoomAtPoint(coords, floorId) : null] *)
Definition detectRoom (e : t) (options : Options) (p : Coord) (floor : string)
    : option Room :=
  if snapToDoors options then findRoomAtPoint e p floor else None.

Record DoorCandidates : Type := mkDoorCandidates {
  available : list Node;
  locked : list Node;
  total : nat
}.

Definition getRoomDoorCandidates (e : t) (room : Room) (allowLocked : bool)
    : DoorCandidates :=
  let doors := default [] (roomDoorIndex e !! geometryId room) in
  mkDoorCandidates
    (List.filter (fun door => allowLocked || negb (isLocked (metadata door))) doors)
    (List.filter (fun door => isLocked (metadata door)) doors)
    (length doors).

Definition isConnectorClear (e : t) (a b : Coord) (floor : string) : bool :=
  CollisionDetector.isPathClear (collisionDetector e) a b floor.

(** The nearest of the pre-indexed walkable nodes of a floor; the first
    of several equally near ones. *)
Fixpoint nearestOf (p : Coord) (candidates : list Node)
    (nearest : option Node) (minDistSq : option Q) : option Node :=
  match candidates with
  | [] => nearest
  | node :: rest =>
      let dx := (lng (coords node) - lng p)%Q in
      let dy := (lat (coords node) - lat p)%Q in
      let distSq := (dx * dx + dy * dy)%Q in
      let closer :=
        match minDistSq with None => true | Some m => num_lt distSq m end in
      if closer then nearestOf p rest (Some node) (Some distSq)
      else nearestOf p rest nearest minDistSq
  end.

Definition findNearestWalkableNode (e : t) (p : Coord) (floor : string) : option Node :=
  match walkableNodesByFloor e !! floor with
  | None => None
  | Some candidates => nearestOf p candidates None None
  end.

Definition num_of_nat (n : nat) : Q := inject_Z (Z.of_nat n).

Definition doorCountThreshold (options : Options) : Q :=
  default 2%Q (publicRoomDoorCount options).

Definition areaThreshold (options : Options) : Q :=
  default 80%Q (publicRoomArea options).

(** [isPublicRoom]; a room without metadata is not public. *)
Definition isPublicRoom (options : Options) (meta : option RoomMetaEntry) : bool :=
  match meta with
  | None => false
  | Some m =>
      if num_ge (num_of_nat (publicDoorCount m)) (doorCountThreshold options) then true
      else if num_ge (num_of_nat (doorCount m)) (Qmax 2 (doorCountThreshold options)) then true
      else num_ge (area m) (areaThreshold options)
  end.

Definition optionalRoomId (room : option Room) : gset string :=
  match room with Some r => {[geometryId r]} | None => ∅ end.

Definition buildAllowedRoomIds (e : t) (options : Options)
    (startRoom endRoom : option Room) (mode : string) : gset string :=
  optionalRoomId startRoom ∪ optionalRoomId endRoom
  ∪ (if String.eqb mode "public"
     then dom (filter (fun kv => isPublicRoom options (Some (snd kv)) = true) (roomMeta e))
     else ∅)
  ∪ default ∅ (allowedRoomIds options).

(** The [nodeFilter] of [routeOptions]. *)
Definition routeNodeFilter (options : Options) (node : Node) : bool :=
  if negb (AStar.passesNodeFilter options node) then false
  else if negb (allowLockedDoors options)
          && isDoor (metadata node) && isLocked (metadata node)
  then false
  else true.

Definition routeOptionsOf (options : Options) (applyRoomConstraints : bool)
    (allowed : option (gset string)) : Options :=
  mkOptions (useCache options) (snapToDoors options) (allowLockedDoors options)
            (roomTraversalMode options)
            applyRoomConstraints
            (publicRoomDoorCount options) (publicRoomArea options)
            (if applyRoomConstraints then allowed else None)
            (Some (routeNodeFilter options))
            (accessibleOnly options) (avoidStairs options) (heuristicWeight options).

(** [pushUnique]: appends the nodes whose id is not in the list yet. *)
Definition pushUnique (into nodes : list Node) : list Node :=
  fold_left
    (fun acc node =>
       if existsb (fun existing => String.eqb (id existing) (id node)) acc
       then acc else acc ++ [node])
    nodes into.

(** Steps 2 to 5 of the query for one endpoint: the candidates (nearest
    node, then the usable doors of a private room), filtered by the strict
    connector check, then by the relaxed one, then taken as they are when
    the endpoint is in a room, else searched around the endpoint. *)
Definition connectable (e : t) (p : Coord) (floor : string)
    (room : option Room) (nearest : option Node) (doors : option DoorCandidates)
    : list Node :=
  let candidates0 :=
    match nearest with Some n => pushUnique [] [n] | None => [] end in
  let candidates :=
    match doors with
    | Some d =>
        match available d with
        | [] => candidates0
        | doorNodes => pushUnique candidates0 doorNodes
        end
    | None => candidates0
    end in
  let strict :=
    List.filter (fun c => isConnectorClear e p (coords c) floor) candidates in
  let relaxed :=
    match strict, candidates with
    | [], _ :: _ =>
        List.filter
          (fun c => CollisionDetector.isPathClearRelaxed (collisionDetector e)
                      p (coords c) floor)
          candidates
    | _, _ => strict
    end in
  let inRoom :=
    match relaxed, room, candidates with
    | [], Some _, _ :: _ => candidates
    | _, _, _ => relaxed
    end in
  match inRoom, room with
  | [], None =>
      let nearbyNodes := findNearestNodesInRadius (graph e) p floor (2 # 1000)%Q 10 in
      match List.filter
              (fun n => CollisionDetector.isPathClearRelaxed (collisionDetector e)
                          p (coords n) floor)
              nearbyNodes with
      | [] =>
          match findNearestNodeExpanded (graph e) p floor with
          | Some expandedNode => [expandedNode]
          | None => []
          end
      | found => found
      end
  | _, _ => inRoom
  end.

(** The running optimum of [findBestPath]. *)
Record Best : Type := mkBest {
  best : PathResult.t;
  bestStart : Node;
  bestEnd : Node;
  bestDistance : Q
}.

Definition tryPair (e : t) (startCoords endCoords : Coord) (optionsForPath : Options)
    (acc : option Best) (candidates : Node * Node) : js (option Best) :=
  let '(startCandidate, endCandidate) := candidates in
  found ← AStar.findPath (graph e) (id startCandidate) (id endCandidate) optionsForPath;
  match found with
  | None => Ret acc
  | Some path =>
      let startConnectorDistance := turf_distance startCoords (coords startCandidate) in
      let endConnectorDistance := turf_distance endCoords (coords endCandidate) in
      match PathResult.distance path with
      | None => Ret acc
      | Some indoor =>
          let totalDistance := (indoor + startConnectorDistance + endConnectorDistance)%Q in
          let better :=
            match acc with
            | None => true
            | Some b => num_lt totalDistance (bestDistance b)
            end in
          if better
          then Ret (Some (mkBest path startCandidate endCandidate totalDistance))
          else Ret acc
      end
  end.

Fixpoint tryPairs (e : t) (startCoords endCoords : Coord) (optionsForPath : Options)
    (acc : option Best) (pairs : list (Node * Node)) : js (option Best) :=
  match pairs with
  | [] => Ret acc
  | candidates :: rest =>
      acc' ← tryPair e startCoords endCoords optionsForPath acc candidates;
      tryPairs e startCoords endCoords optionsForPath acc' rest
  end.

Definition findBestPath (e : t) (startCoords endCoords : Coord)
    (startConnectable endConnectable : list Node) (optionsForPath : Options)
    : js (option Best) :=
  tryPairs e startCoords endCoords optionsForPath None
    (flat_map (fun sc => map (fun ec => (sc, ec)) endConnectable) startConnectable).

Definition doorIdOf (n : Node) : option string :=
  if isDoor (metadata n) then Some (id n) else None.

(** The route of two endpoints in one room with a clear segment. *)
Definition sameRoomRoute (startCoords endCoords : Coord)
    (startFloorId endFloorId : string) (startRoom endRoom : Room) : Route.t :=
  let distance := turf_distance startCoords endCoords in
  Route.mk [startCoords; endCoords] [] distance [startFloorId; endFloorId]
    [Segment.mk "start" "end" startCoords endCoords distance false
                startFloorId endFloorId]
    None None
    (RouteMeta.mk startCoords endCoords startFloorId endFloorId
                  (Some (geometryId startRoom)) (Some (geometryId endRoom))
                  true None None None).

Definition isSameRoom (startRoom endRoom : option Room) : bool :=
  match startRoom, endRoom with
  | Some a, Some b => String.eqb (geometryId a) (geometryId b)
  | _, _ => false
  end.

Definition noDoorMessage (which : string) (doors : DoorCandidates) : string :=
  if (0 <? total doors)%nat
  then "All doors are locked for the " +:+ which +:+ " room."
  else "No doors found for the " +:+ which +:+ " room.".

(** [findNearestWalkableNode(...) || graph.findNearestNode(...)] *)
Definition nearestAnchor (e : t) (p : Coord) (floor : string) : option Node :=
  match findNearestWalkableNode e p floor with
  | Some n => Some n
  | None => findNearestNode (graph e) p floor
  end.

(** The door candidates of an endpoint: asked for only when the endpoint is
    in a room that is not public. *)
Definition doorAnchors (e : t) (options : Options) (room : option Room)
    : option DoorCandidates :=
  match room with
  | Some r =>
      if isPublicRoom options (roomMeta e !! geometryId r) then None
      else Some (getRoomDoorCandidates e r (allowLockedDoors options))
  | None => None
  end.

(** The two calls of [findBestPath]: with the room constraints and, when
    these apply and no pair of candidates is joined, without them.  The
    answer comes with the effective traversal mode. *)
Definition attemptSearch (e : t) (startCoords endCoords : Coord)
    (startConnectable endConnectable : list Node) (options : Options)
    (applyRoomConstraints : bool) (allowed : option (gset string)) (mode : string)
    : js (option (Best * string)) :=
  first ← findBestPath e startCoords endCoords startConnectable endConnectable
            (routeOptionsOf options applyRoomConstraints allowed);
  match first with
  | Some b => Ret (Some (b, if applyRoomConstraints then mode else "all"))
  | None =>
      if applyRoomConstraints then
        second ← findBestPath e startCoords endCoords startConnectable endConnectable
                   (routeOptionsOf options false None);
        Ret (option_map (fun b => (b, "all")) second)
      else Ret None
  end.

(** The route object built from the best pair. *)
Definition assembleRoute (startCoords endCoords : Coord)
    (startFloorId endFloorId : string) (startRoom endRoom : option Room)
    (b : Best) (effectiveTraversalMode : string) : Route.t :=
  Route.mk (PathResult.coords (best b)) (PathResult.nodeIds (best b))
    (bestDistance b) (PathResult.floors (best b))
    (PathResult.segments (best b))
    (Some (bestStart b)) (Some (bestEnd b))
    (RouteMeta.mk startCoords endCoords startFloorId endFloorId
       (option_map geometryId startRoom) (option_map geometryId endRoom)
       false (doorIdOf (bestStart b)) (doorIdOf (bestEnd b))
       (Some effectiveTraversalMode)).

(** The query once the connectable candidates of both endpoints are known:
    the graph search, the route and its entry in the cache. *)
Definition searchedRoute (e : t) (startCoords endCoords : Coord)
    (startFloorId endFloorId : string) (options : Options)
    (startRoom endRoom : option Room) (startConnectable endConnectable : list Node)
    : js (option Route.t) * t :=
  match startConnectable, endConnectable with
  | [], _ =>
      (Ret None,
       setRouteError e "blocked"
         "Cannot find a path from this location. Try clicking closer to a walkable area.")
  | _, [] =>
      (Ret None,
       setRouteError e "blocked"
         "Cannot find a path to this destination. Try clicking closer to a walkable area.")
  | _, _ =>
      let mode := string_or (roomTraversalMode options) "public" in
      let useRoomConstraints := negb (String.eqb mode "all") in
      let allowed :=
        if useRoomConstraints
        then Some (buildAllowedRoomIds e options startRoom endRoom mode) else None in
      let hasAllowedRooms :=
        match allowed with Some ids => (0 <? size ids)%nat | None => false end in
      let applyRoomConstraints := useRoomConstraints && hasAllowedRooms in
      match attemptSearch e startCoords endCoords startConnectable endConnectable
                          options applyRoomConstraints allowed mode with
      | Throw msg => (Throw msg, e)
      | OutOfFuel => (OutOfFuel, e)
      | Ret None =>
          (Ret None, setRouteError e "no-path" "No path available from this location.")
      | Ret (Some (b, effectiveTraversalMode)) =>
          let route :=
            assembleRoute startCoords endCoords startFloorId endFloorId
                          startRoom endRoom b effectiveTraversalMode in
          (Ret (Some route),
           if useCache options
           then withCache e (PathCache.set (pathCache e) startCoords endCoords
                               startFloorId endFloorId options route)
           else e)
      end
  end.

(** The query from door anchoring on: what [findRoute] does once the two
    endpoints are known not to share a room. *)
Definition anchoredRoute (e : t) (startCoords endCoords : Coord)
    (startFloorId endFloorId : string) (options : Options)
    (startRoom endRoom : option Room) : js (option Route.t) * t :=
  let startNode := nearestAnchor e startCoords startFloorId in
  let endNode := nearestAnchor e endCoords endFloorId in
  let startDoorResult := doorAnchors e options startRoom in
  let endDoorResult := doorAnchors e options endRoom in
  match startDoorResult with
  | Some (mkDoorCandidates [] _ _ as doors) =>
      (Ret None, setRouteError e "no-door" (noDoorMessage "start" doors))
  | _ =>
      match endDoorResult with
      | Some (mkDoorCandidates [] _ _ as doors) =>
          (Ret None, setRouteError e "no-door" (noDoorMessage "destination" doors))
      | _ =>
          searchedRoute e startCoords endCoords startFloorId endFloorId options
            startRoom endRoom
            (connectable e startCoords startFloorId startRoom startNode startDoorResult)
            (connectable e endCoords endFloorId endRoom endNode endDoorResult)
      end
  end.

(** [findRoute] after the cache lookup: the error slot is cleared, the
    rooms of the two endpoints are detected, and two endpoints of one room
    are joined directly or not at all. *)
Definition freshRoute (e : t) (startCoords endCoords : Coord)
    (startFloorId endFloorId : string) (options : Options)
    : js (option Route.t) * t :=
  let e1 := withError e None in
  let startRoom := detectRoom e options startCoords startFloorId in
  let endRoom := detectRoom e options endCoords endFloorId in
  match startRoom, endRoom with
  | Some sr, Some er =>
      if isSameRoom startRoom endRoom then
        if CollisionDetector.isPathClear (collisionDetector e1)
             startCoords endCoords startFloorId
        then (Ret (Some (sameRoomRoute startCoords endCoords
                           startFloorId endFloorId sr er)), e1)
        else (Ret None, setRouteError e1 "no-path" "No clear path inside this room.")
      else anchoredRoute e1 startCoords endCoords startFloorId endFloorId
                         options startRoom endRoom
  | _, _ => anchoredRoute e1 startCoords endCoords startFloorId endFloorId
                          options startRoom endRoom
  end.

Definition findRoute (e : t) (startCoords endCoords : Coord)
    (startFloorId endFloorId : string) (options : Options)
    : js (option Route.t) * t :=
  if negb (initialized e)
  then (Throw "PathfindingEngine not initialized. Call initialize() first.", e)
  else if useCache options then
    match PathCache.get (pathCache e) startCoords endCoords
                        startFloorId endFloorId options with
    | (Some cached, pc) => (Ret (Some cached), withCache e pc)
    | (None, _) => freshRoute e startCoords endCoords startFloorId endFloorId options
    end
  else freshRoute e startCoords endCoords startFloorId endFloorId options.

(** [{accessibleOnly: true, avoidStairs: true}] *)
Definition accessibleOptions : Options :=
  mkOptions true true false None false None None None None true true None.

Definition findAccessibleRoute (e : t) (startCoords endCoords : Coord)
    (startFloorId endFloorId : string) : js (option Route.t) * t :=
  findRoute e startCoords endCoords startFloorId endFloorId accessibleOptions.

Definition clearCache (e : t) : t := withCache e (PathCache.clear (pathCache e)).

Definition getCacheStats (e : t) : CacheStats.t := PathCache.getStats (pathCache e).

(** [snapToWalkableNode]; the caller that leaves [maxDistanceMeters] out
    gets 6. *)
Definition snapToWalkableNode (e : t) (p : Coord) (floor : string)
    (maxDistanceMeters : Q) : option Snapped.t :=
  match findNearestWalkableNode e p floor with
  | None => None
  | Some nearest =>
      let dx := (lng (coords nearest) - lng p)%Q in
      let dy := (lat (coords nearest) - lat p)%Q in
      let distMeters := (Math_sqrt (dx * dx + dy * dy) * 111320)%Q in
      if num_gt distMeters maxDistanceMeters then None
      else Some (Snapped.mk nearest (coords nearest) distMeters)
  end.

End WithPlatform.
End PathfindingEngine.

(* ===================================================================== *)
(** ** DirectionsUI: the route handed to the renderer *)
(* ===================================================================== *)

Module DirectionsUI.
Section WithPlatform.
Context `{Platform}.

(** [{...route, path, floors, warnings}] *)
Record EnrichedRoute : Type := mkEnriched {
  route : Route.t;
  path : list Coord;
  floors : list string;
  warnings : list string
}.

Definition coordsEqual (a b : Coord) : bool :=
  num_lt (Math_abs (lng a - lng b)) (1 # 10000000)%Q
  && num_lt (Math_abs (lat a - lat b)) (1 # 10000000)%Q.

(** The floors when their number does not match the path: the last entry
    is the end floor, every other one the start floor. *)
Definition defaultFloors (n : nat) (startFloorId endFloorId : string) : list string :=
  map (fun index =>
         if (index =? 0)%nat then startFloorId
         else if (index =? n - 1)%nat then endFloorId
         else startFloorId)
      (seq 0 n).

(** [withRouteEndpoints] on a route with at least one coordinate; on an
    empty path the function hands [undefined] to turf, which is outside
    the model ([None]). *)
Definition withRouteEndpoints (detector : CollisionDetector.t) (r : Route.t)
    (startCoords endCoords : Coord) (startFloorId endFloorId : string)
    : option EnrichedRoute :=
  match Route.path r, last (Route.path r) with
  | first :: _, Some final =>
      let startDiffers := negb (coordsEqual first startCoords) in
      let endDiffers := negb (coordsEqual final endCoords) in
      let startClear :=
        CollisionDetector.isPathClear detector startCoords first startFloorId in
      let endClear :=
        CollisionDetector.isPathClear detector final endCoords endFloorId in
      let addedStart := startDiffers && startClear in
      let addedEnd := endDiffers && endClear in
      let path1 := if addedStart then startCoords :: Route.path r else Route.path r in
      let path2 := if addedEnd then path1 ++ [endCoords] else path1 in
      let warnings :=
        (if startDiffers && negb startClear
         then ["Start point is blocked by walls."] else [])
        ++ (if endDiffers && negb endClear
            then ["Destination is blocked by walls."] else []) in
      let floors0 := Route.floors r in
      let floors1 :=
        match floors0 with
        | [] => []
        | _ =>
            (if addedStart then [startFloorId] else [])
            ++ floors0 ++ (if addedEnd then [endFloorId] else [])
        end in
      let floors2 :=
        if (length floors1 =? length path2)%nat then floors1
        else defaultFloors (length path2) startFloorId endFloorId in
      Some (mkEnriched r path2 floors2 warnings)
  | _, _ => None
  end.

End WithPlatform.
End DirectionsUI.

(* ===================================================================== *)
(** ** NavigationController.computeRoute *)
(* ===================================================================== *)

Module UserLocation.
Record t : Type := mk {
  coords : Coord;
  floorId : string;
  snappedCoords : option Coord
}.
End UserLocation.

Module Destination.
Record t : Type := mk {
  coords : option Coord;     (* missing when only a geometry id is known *)
  floorId : string
}.
End Destination.

Module NavigationController.
Section WithPlatform.
Context `{Platform}.

(** The route object after [computeRoute] has added its properties. *)
Record NavRoute : Type := mkNavRoute {
  route : Route.t;
  fullPath : list Coord;
  startCoords : Coord;
  endCoords : Coord;
  anchorStartCoords : Coord;
  anchorEndCoords : Coord;
  startInside : bool;
  endInside : bool
}.

Record t : Type := mk {
  engine : PathfindingEngine.t;
  initialized : bool;
  userLocation : option UserLocation.t;
  destination : option Destination.t;
  walkableAreas : option (list Feature);
  groundFloorId : option string;
  currentRoute : option NavRoute
}.

Definition withRoute (nc : t) (e : PathfindingEngine.t) (r : option NavRoute) : t :=
  mk e (initialized nc) (userLocation nc) (destination nc) (walkableAreas nc)
     (groundFloorId nc) r.

Definition isPolygonal (f : Feature) : bool :=
  String.eqb (geometryType f) "Polygon" || String.eqb (geometryType f) "MultiPolygon".

(** [isInsideWalkableArea]; turf is called outside any [try]. *)
Fixpoint insideSome (p : Coord) (areas : list Feature) : js bool :=
  match areas with
  | [] => Ret false
  | area :: rest =>
      if isPolygonal area then
        match turf_booleanPointInPolygon p area with
        | None => Throw "turf.booleanPointInPolygon"
        | Some true => Ret true
        | Some false => insideSome p rest
        end
      else insideSome p rest
  end.

Definition isInsideWalkableArea (nc : t) (p : Coord) : js bool :=
  match walkableAreas nc with
  | None => Ret false
  | Some areas => insideSome p areas
  end.

Fixpoint nearestByDistance (origin : Coord) (candidates : list Node)
    (nearest : option Node) (bestDist : option Q) : option Node :=
  match candidates with
  | [] => nearest
  | node :: rest =>
      let dist := turf_distance origin (coords node) in
      let closer := match bestDist with None => true | Some b => num_lt dist b end in
      if closer then nearestByDistance origin rest (Some node) (Some dist)
      else nearestByDistance origin rest nearest bestDist
  end.

(** [findNearestEntranceNode] with the ground floor preferred; the nodes
    are visited in the order of [map_to_list]. *)
Definition findNearestEntranceNode (nc : t) (p : Coord) : option Node :=
  let allNodes := map snd (map_to_list (nodes (PathfindingEngine.graph (engine nc)))) in
  let entrances := List.filter (fun n => String.eqb (ntype n) "entrance") allNodes in
  let candidates :=
    match groundFloorId nc with
    | Some EmptyString | None => entrances
    | Some preferred =>
        match List.filter (fun n => String.eqb (floorId n) preferred) entrances with
        | [] => entrances
        | sameFloor => sameFloor
        end
    end in
  nearestByDistance p candidates None None.

(** [computeRoute]: [None] for [null]. *)
Definition computeRoute (nc : t) (options : Options) : js (option NavRoute) * t :=
  if negb (initialized nc) then (Ret None, nc)
  else
    match userLocation nc, destination nc with
    | Some user, Some dest =>
        let rawStartCoords := UserLocation.coords user in
        let rawStartFloorId := UserLocation.floorId user in
        match Destination.coords dest with
        | None => (Ret None, nc)
        | Some rawEndCoords =>
            let rawEndFloorId := Destination.floorId dest in
            match isInsideWalkableArea nc rawStartCoords,
                  isInsideWalkableArea nc rawEndCoords with
            | Ret startIn, Ret endIn =>
                let start0 := (default rawStartCoords (UserLocation.snappedCoords user), rawStartFloorId) in
                let end0 := (rawEndCoords, rawEndFloorId) in
                let start1 :=
                  if negb startIn && endIn then
                    match findNearestEntranceNode nc rawStartCoords with
                    | Some entrance => (coords entrance, floorId entrance)
                    | None => start0
                    end
                  else start0 in
                let end1 :=
                  if startIn && negb endIn then
                    match findNearestEntranceNode nc rawEndCoords with
                    | Some entrance => (coords entrance, floorId entrance)
                    | None => end0
                    end
                  else end0 in
                if negb startIn && negb endIn
                then (Ret None, withRoute nc (engine nc) None)
                else
                  match PathfindingEngine.findRoute (engine nc) (fst start1) (fst end1)
                          (snd start1) (snd end1) options with
                  | (Ret (Some r), e') =>
                      let full :=
                        mkNavRoute r ([rawStartCoords] ++ Route.path r ++ [rawEndCoords])
                                   rawStartCoords rawEndCoords (fst start1) (fst end1)
                                   startIn endIn in
                      (Ret (Some full), withRoute nc e' (Some full))
                  | (Ret None, e') => (Ret None, withRoute nc e' (currentRoute nc))
                  | (Throw msg, e') => (Throw msg, withRoute nc e' (currentRoute nc))
                  | (OutOfFuel, e') => (OutOfFuel, withRoute nc e' (currentRoute nc))
                  end
            | Throw msg, _ | _, Throw msg => (Throw msg, nc)
            | _, _ => (OutOfFuel, nc)
            end
        end
    | _, _ => (Ret None, nc)
    end.

Definition withUserLocation (nc : t) (u : UserLocation.t) : t :=
  mk (engine nc) (initialized nc) (Some u) (destination nc) (walkableAreas nc)
     (groundFloorId nc) (currentRoute nc).

Definition withDestination (nc : t) (d : Destination.t) : t :=
  mk (engine nc) (initialized nc) (userLocation nc) (Some d) (walkableAreas nc)
     (groundFloorId nc) (currentRoute nc).

(** [setUserLocation]: inside a walkable area the location is snapped to
    a walkable node at most 6 meters away.  The node itself is stored too
    ([snappedNode]) and never read; it is left out.  An exception of turf
    leaves the unsnapped location behind. *)
Definition setUserLocation (nc : t) (p : Coord) (floor : string)
    : js UserLocation.t * t :=
  let raw := UserLocation.mk p floor None in
  match isInsideWalkableArea nc p with
  | Ret true =>
      match PathfindingEngine.snapToWalkableNode (engine nc) p floor 6 with
      | Some snapped =>
          let located := UserLocation.mk p floor (Some (Snapped.coords snapped)) in
          (Ret located, withUserLocation nc located)
      | None => (Ret raw, withUserLocation nc raw)
      end
  | Ret false => (Ret raw, withUserLocation nc raw)
  | Throw msg => (Throw msg, withUserLocation nc raw)
  | OutOfFuel => (OutOfFuel, withUserLocation nc raw)
  end.

Definition setDestination (nc : t) (d : Destination.t) : t := withDestination nc d.

(** [navigateTo(coords, floorId, options)] *)
Definition navigateTo (nc : t) (p : Coord) (floor : string) (options : Options)
    : js (option NavRoute) * t :=
  computeRoute (setDestination nc (Destination.mk (Some p) floor)) options.

(** The loop of [_computeCumulativeDistances] from the point after
    [previous] on; [total] is the last distance pushed. *)
Fixpoint cumulativeFrom (previous : Coord) (total : Q) (later : list Coord) : list Q :=
  match later with
  | [] => []
  | p :: rest =>
      let d := (total + turf_distance previous p)%Q in
      d :: cumulativeFrom p d rest
  end.

Definition _computeCumulativeDistances (path : list Coord) : list Q :=
  0%Q :: match path with
         | [] => []
         | first :: rest => cumulativeFrom first 0%Q rest
         end.

(** The loop of [_interpolatePosition] from index [i] on; [segmentStart]
    is [distances[i - 1]].  [None] is [undefined], the last element of an
    empty path; reading a coordinate of a point the path does not have is
    a [TypeError]. *)
Fixpoint interpolateFrom (path : list Coord) (targetDist : Q) (i : nat)
    (segmentStart : Q) (later : list Q) : js (option Coord) :=
  match later with
  | [] => Ret (last path)
  | segmentEnd :: rest =>
      if num_ge segmentEnd targetDist then
        let segmentLen := (segmentEnd - segmentStart)%Q in
        let t :=
          if num_gt segmentLen 0 then ((targetDist - segmentStart) / segmentLen)%Q
          else 0%Q in
        match path !! (i - 1)%nat, path !! i with
        | Some p0, Some p1 =>
            Ret (Some ((lng p0 + t * (lng p1 - lng p0))%Q,
                       (lat p0 + t * (lat p1 - lat p0))%Q))
        | _, _ => Throw "TypeError: p0 or p1 is undefined"
        end
      else interpolateFrom path targetDist (S i) segmentEnd rest
  end.

Definition _interpolatePosition (path : list Coord) (distances : list Q)
    (targetDist : Q) : js (option Coord) :=
  match distances with
  | [] => Ret (last path)
  | first :: later => interpolateFrom path targetDist 1 first later
  end.

End WithPlatform.
End NavigationController.

(* ===================================================================== *)
(** ** A concrete platform and a small building *)
(* ===================================================================== *)

(** The examples below run the model on a platform whose features are
    axis-aligned rectangles, in a plane where one degree is 111320 meters
    in both directions. *)
Module Plan.

(** The root of a rational from below, to twelve decimal places. *)
Definition sqrt_below (x : Q) : Q :=
  let scale := (10 ^ 12)%Z in
  (Z.sqrt (Qnum x * Zpos (Qden x) * scale * scale)
   # (Qden x * Z.to_pos scale))%Q.

Definition positionsOf (g : Geometry) : list Coord :=
  match g with
  | Point c => [c]
  | LineString cs => cs
  | MultiLineString ls => concat ls
  | Polygon rings => concat rings
  | MultiPolygon polygons => concat (concat polygons)
  end.

(** [turf.bbox]: the axis-aligned hull of the positions of a feature. *)
Definition boxOf (f : Feature) : BBox :=
  match positionsOf (geometry f) with
  | [] => mkBBox 0 0 0 0
  | c :: cs =>
      fold_left
        (fun box q => mkBBox (Qmin (minX box) (lng q)) (Qmin (minY box) (lat q))
                             (Qmax (maxX box) (lng q)) (Qmax (maxY box) (lat q)))
        cs (mkBBox (lng c) (lat c) (lng c) (lat c))
  end.

(** The rectangle with the given opposite corners, as a polygon feature. *)
Definition rectangle (x0 y0 x1 y1 : Q) : Feature :=
  mkFeature (Polygon [[(x0, y0); (x1, y0); (x1, y1); (x0, y1); (x0, y0)]]).

Definition rectContains (box : BBox) (p : Coord) : bool :=
  num_le (minX box) (lng p) && num_le (lng p) (maxX box)
  && num_le (minY box) (lat p) && num_le (lat p) (maxY box).

(** Where the segment [[a, b]] meets the vertical line [x]. *)
Definition meetsVertical (a b : Coord) (x lo hi : Q) : list Coord :=
  if Qeq_bool (lng a) (lng b) then []
  else
    let t := ((x - lng a) / (lng b - lng a))%Q in
    let y := (lat a + t * (lat b - lat a))%Q in
    if num_le 0 t && num_le t 1 && num_le lo y && num_le y hi then [(x, Qred y)] else [].

Definition meetsHorizontal (a b : Coord) (y lo hi : Q) : list Coord :=
  if Qeq_bool (lat a) (lat b) then []
  else
    let t := ((y - lat a) / (lat b - lat a))%Q in
    let x := (lng a + t * (lng b - lng a))%Q in
    if num_le 0 t && num_le t 1 && num_le lo x && num_le x hi then [(Qred x, y)] else [].

(** The points where a segment crosses the boundary of a rectangle. *)
Definition crossings (a b : Coord) (box : BBox) : list Coord :=
  meetsVertical a b (minX box) (minY box) (maxY box)
  ++ meetsVertical a b (maxX box) (minY box) (maxY box)
  ++ meetsHorizontal a b (minY box) (minX box) (maxX box)
  ++ meetsHorizontal a b (maxY box) (minX box) (maxX box).

Definition planarMeters (a b : Coord) : Q :=
  let dx := (lng b - lng a)%Q in
  let dy := (lat b - lat a)%Q in
  Qred (sqrt_below (dx * dx + dy * dy) * 111320)%Q.

Definition gap (lo hi x : Q) : Q :=
  if num_lt x lo then (lo - x)%Q else if num_gt x hi then (x - hi)%Q else 0%Q.

Definition metersToRect (p : Coord) (box : BBox) : Q :=
  let dx := gap (minX box) (maxX box) (lng p) in
  let dy := gap (minY box) (maxY box) (lat p) in
  Qred (sqrt_below (dx * dx + dy * dy) * 111320)%Q.

Definition showNumber (x : Q) : string :=
  let r := Qred x in
  match Qden r with
  | 1%positive => pretty (Qnum r)
  | d => pretty (Qnum r) +:+ "/" +:+ pretty (Zpos d)
  end.

(** Every feature of the examples is a rectangle and is taken for its
    bounding box. *)
#[export] Instance platform : Platform := {|
  Math_sqrt := sqrt_below;
  Math_cos_deg := fun _ => 1%Q;
  turf_distance := planarMeters;
  turf_booleanPointInPolygon := fun p f => Some (rectContains (boxOf f) p);
  turf_lineIntersect := fun a b f => Some (crossings a b (boxOf f));
  turf_pointToLineDistance := fun p f => Some (metersToRect p (boxOf f));
  String_of_number := showNumber
|}.

(** A coordinate in units of 0.00001 degree, about 1.1 m. *)
Definition at_ (x y : Z) : Coord := ((x # 100000)%Q, (y # 100000)%Q).

Definition plainMeta (rooms : option (list string)) : Metadata :=
  mkMetadata [] rooms (match rooms with Some (r :: _) => Some r | _ => None end)
             false false false false false.

Definition doorMeta (geometry : string) (rooms : list string) (public : bool) : Metadata :=
  mkMetadata [geometry] (Some rooms)
             (match rooms with r :: _ => Some r | _ => None end)
             true public (negb public) false false.

Definition walkable (name : string) (c : Coord) (floor : string)
    (rooms : option (list string)) : Node :=
  mkNode name c floor "walkable" (plainMeta rooms).

Definition link (destination : string) (meters : Q) : Edge :=
  mkEdge destination (Some meters) "walkable" true.

(** A graph answering the nearest-node searches by a linear scan. *)
Definition graphOf (ns : list Node) (edges : list (string * list Edge)) : Graph :=
  let onFloor floor := List.filter (fun n => String.eqb (floorId n) floor) ns in
  mkGraph (list_to_map (map (fun n => (id n, n)) ns)) (list_to_map edges)
    (fun p floor => PathfindingEngine.nearestOf p (onFloor floor) None None)
    (fun p floor radius k =>
       take k (List.filter
                 (fun n => num_le (Math_abs (lng (coords n) - lng p)) radius
                           && num_le (Math_abs (lat (coords n) - lat p)) radius)%Q
                 (onFloor floor)))
    (fun p floor => PathfindingEngine.nearestOf p (onFloor floor) None None).

(** *** One floor: a room, a corridor and a pillar

    Room [R1] is the square from [(0,0)] to [(4,4)]; its only door [D1]
    sits at [(2,0)] and leads to the corridor below.  A pillar stands in
    the room around [(2,3)].  Node [n1] is in the room, node [n2] in the
    corridor. *)

Definition roomR1 : PathfindingEngine.Room :=
  let outline := rectangle 0 0 (4 # 100000) (4 # 100000) in
  PathfindingEngine.mkRoom "R1" "F0" outline None (boxOf outline).

Definition pillar : CollisionDetector.Obstacle :=
  let outline :=
    rectangle (18 # 1000000) (28 # 1000000) (22 # 1000000) (32 # 1000000) in
  CollisionDetector.mkObstacle outline (Some (boxOf outline)).

Definition detector : CollisionDetector.t :=
  CollisionDetector.mk {["F0" := [pillar]]} ∅.

Definition n1 : Node := walkable "n1" (at_ 1 2) "F0" (Some ["R1"]).
Definition n2 : Node := walkable "n2" (at_ 3 (-2)) "F0" None.

Definition doorD1 (public : bool) : Node :=
  mkNode "door_D1" (at_ 2 0) "F0" "door" (doorMeta "D1" ["R1"] public).

Definition floorGraph (public : bool) : Graph :=
  graphOf [n1; n2; doorD1 public]
    [("n1", [link "door_D1" (249 # 100)]);
     ("door_D1", [link "n1" (249 # 100); link "n2" (249 # 100)]);
     ("n2", [link "door_D1" (249 # 100)])].

(** The engine after [initialize]; [public] says whether door [D1] is
    public (unlocked) or locked. *)
Definition building (public : bool) : PathfindingEngine.t :=
  PathfindingEngine.mk (floorGraph public) detector true
    {["F0" := [roomR1]]}
    {["R1" := [doorD1 public]]}
    {["R1" := PathfindingEngine.mkRoomMeta 20 1 (if public then 1 else 0)]}
    {["F0" := [n1; n2]]}
    None
    (PathCache.mk [] 100).

Definition open_ : PathfindingEngine.t := building true.
Definition locked_ : PathfindingEngine.t := building false.

(** Endpoints: two in the room with nothing between them, two in the room
    on either side of the pillar, one in the corridor.  All five round to
    the same cache cell. *)
Definition inRoomA : Coord := at_ 1 1.
Definition inRoomB : Coord := at_ 3 1.
Definition leftOfPillar : Coord := at_ 1 3.
Definition rightOfPillar : Coord := at_ 3 3.
Definition inCorridor : Coord := at_ 3 (-3).

Definition query (e : PathfindingEngine.t) (a b : Coord) (options : Options)
    : js (option Route.t) * PathfindingEngine.t :=
  PathfindingEngine.findRoute e a b "F0" "F0" options.

Definition withLockedDoors : Options :=
  mkOptions true true true None false None None None None false false None.

Definition uncached : Options :=
  mkOptions false true false None false None None None None false false None.

Definition othersDisallowed : Options :=
  mkOptions true true false None true None None None None false false None.

(** A query that switches the detection of rooms off. *)
Definition unsnapped : Options :=
  mkOptions true false false None false None None None None false false None.

(** The controller over the open building, with the user in the room and
    the destination in the corridor; the walkable area covers both. *)
Definition controller : NavigationController.t :=
  NavigationController.mk open_ true
    (Some (UserLocation.mk inRoomA "F0" None))
    (Some (Destination.mk (Some inCorridor) "F0"))
    (Some [rectangle (-(10 # 100000)) (-(10 # 100000)) (10 # 100000) (10 # 100000)])
    (Some "F0") None.

(** *** A passage through a door of a room that is not on the list

    Two corridor nodes joined through door [D2] of room [R2]; the search
    is told that only room [R1] may be crossed. *)

Definition doorD2 : Node :=
  mkNode "door_D2" (at_ 2 0) "F0" "door" (doorMeta "D2" ["R2"] true).

Definition passage : Graph :=
  graphOf [walkable "a" (at_ 0 0) "F0" None; doorD2; walkable "b" (at_ 4 0) "F0" None]
    [("a", [link "door_D2" (223 # 100)]);
     ("door_D2", [link "a" (223 # 100); link "b" (223 # 100)]);
     ("b", [link "door_D2" (223 # 100)])].

Definition onlyR1 : Options :=
  mkOptions true true false None true None None (Some {["R1"]}) None false false None.

(** *** A line of nodes for the weighted search

    Five nodes on the equator at [0], [3], [0.5], [-2] and [10] units; the
    edges carry no weight, so the search measures them with
    [turf.distance]. *)

Definition onLine (name : string) (halfUnits : Z) : Node :=
  walkable name ((halfUnits # 200000)%Q, 0%Q) "F0" None.

Definition hop (destination : string) : Edge :=
  mkEdge destination None "walkable" true.

Definition lineGraph : Graph :=
  graphOf [onLine "S" 0; onLine "C" 6; onLine "A" 1; onLine "B" (-4); onLine "G" 20]
    [("S", [hop "C"; hop "B"]);
     ("C", [hop "S"; hop "A"]);
     ("A", [hop "C"; hop "B"]);
     ("B", [hop "S"; hop "A"; hop "G"]);
     ("G", [hop "B"])].

Definition weighted : Options :=
  mkOptions true true false None false None None None None false false (Some 2%Q).

Definition goal : Node := onLine "G" 20.

(** The locals of [findPath lineGraph "S" "G" weighted] after a number of
    rounds of the loop. *)
Fixpoint lineSearchAfter (rounds : nat) : js AStar.SearchState :=
  match rounds with
  | O => Ret (AStar.initialState "S" (AStar.heuristic (onLine "S" 0) goal))
  | S rounds' =>
      st ← lineSearchAfter rounds';
      progress ← AStar.searchStep lineGraph "G" goal weighted st;
      match progress with
      | AStar.Continue st' => Ret st'
      | AStar.Finished _ => Ret st
      end
  end.

(** The locals while the fourth round expands [B]: three rounds have
    closed [S], [C] and [A], and [B] has just been popped and closed. *)
Definition expandingB : option AStar.SearchState :=
  match lineSearchAfter 3 with
  | Ret st =>
      match MinHeap.pop (AStar.openSet st) with
      | (Some current, rest) =>
          if String.eqb (MinHeap.nodeId current) "B"
          then Some (AStar.mkState rest ({["B"]} ∪ AStar.closedSet st)
                       (AStar.gScore st) (AStar.fScore st) (AStar.cameFrom st))
          else None
      | _ => None
      end
  | _ => None
  end.

(** Locals in which the only heap entry belongs to a closed node. *)
Definition staleEntry : AStar.SearchState :=
  AStar.mkState [MinHeap.mkItem "A" 5] {["A"]} {["A" := 3%Q]} {["A" := 5%Q]} ∅.

(** Names for the locals of the line search at three moments: after two
    rounds, during the fourth, after four. *)
Definition afterTwoRounds : AStar.SearchState :=
  match lineSearchAfter 2 with Ret st => st | _ => staleEntry end.

Definition duringFourthRound : AStar.SearchState :=
  match expandingB with Some st => st | None => staleEntry end.

Definition afterFourRounds : AStar.SearchState :=
  match lineSearchAfter 4 with Ret st => st | _ => staleEntry end.

(** *** The plane at latitude 60 degrees

    There a degree of longitude is half as long as a degree of latitude. *)

Definition metersAtSixty (a b : Coord) : Q :=
  let dx := ((lng b - lng a) * (1 # 2))%Q in
  let dy := (lat b - lat a)%Q in
  Qred (sqrt_below (dx * dx + dy * dy) * 111320)%Q.

Definition platformAtSixty : Platform := {|
  Math_sqrt := sqrt_below;
  Math_cos_deg := fun _ => (1 # 2)%Q;
  turf_distance := metersAtSixty;
  turf_booleanPointInPolygon := fun p f => Some (rectContains (boxOf f) p);
  turf_lineIntersect := fun a b f => Some (crossings a b (boxOf f));
  turf_pointToLineDistance := fun p f => Some (metersToRect p (boxOf f));
  String_of_number := showNumber
|}.

(** A wall one unit thick that runs north to south across the parallel of
    60 degrees, between one and two units east of the meridian. *)
Definition wallAtSixty : CollisionDetector.Obstacle :=
  let outline :=
    rectangle (1 # 100000) (5999990 # 100000) (2 # 100000) (6000010 # 100000) in
  CollisionDetector.mkObstacle outline (Some (boxOf outline)).

Definition detectorAtSixty : CollisionDetector.t :=
  CollisionDetector.mk {["F0" := [wallAtSixty]]} ∅.

End Plan.

(* ===================================================================== *)
(** ** Vocabulary of the statements *)
(* ===================================================================== *)

Section Vocabulary.
Context `{Platform}.

(** A stairs, elevator or door node. *)
Definition isConnector (node : Node) : bool :=
  isElevator (metadata node) || isStairs (metadata node) || isDoor (metadata node).

(** The node has no room, or one of its rooms is on the list. *)
Definition roomsPermit (allowedRoomSet : gset string) (node : Node) : Prop :=
  AStar.roomIdsOf (metadata node) = []
  \/ exists r, In r (AStar.roomIdsOf (metadata node)) /\ r ∈ allowedRoomSet.

(** The query is computed, not answered from the path cache: caching is
    switched off or the cache has no entry under the query's key. *)
Definition computed (e : PathfindingEngine.t) (startCoords endCoords : Coord)
    (startFloorId endFloorId : string) (options : Options) : Prop :=
  useCache options = false
  \/ PathCache.lookupKey
       (PathCache.generateKey startCoords endCoords startFloorId endFloorId options)
       (PathCache.cache (PathfindingEngine.pathCache e)) = None.

(** [path] is the list of the coordinates of the graph nodes that
    [nodeIds] names. *)
Definition listsItsNodes (g : Graph) (nodeIds : list string) (path : list Coord) : Prop :=
  exists ns, AStar.nodesOf g nodeIds = Ret ns /\ path = map coords ns.

(** A search result names at least one node and lists the coordinates of
    the nodes it names. *)
Definition wellFormed (g : Graph) (pr : PathResult.t) : Prop :=
  listsItsNodes g (PathResult.nodeIds pr) (PathResult.coords pr)
  /\ PathResult.nodeIds pr <> [].

(** The distance between two nodes in meters, on the plane that touches
    the earth at [a]: a degree of latitude is 111320 meters long, a degree
    of longitude the cosine of the latitude of [a] times as much. *)
Definition squaredMeters (a b : Node) : Q :=
  let east :=
    ((lng (coords b) - lng (coords a)) * (Math_cos_deg (lat (coords a)) * 111320))%Q in
  let north := ((lat (coords b) - lat (coords a)) * 111320)%Q in
  (east * east + north * north)%Q.

Definition meterDistance (a b : Node) : Q := Math_sqrt (squaredMeters a b).

(** What the claim requires of a pair for which an edge [e] is emitted:
    the larger id at [nodeB], the two nodes at most [maxDistance] meters
    apart on the plane, a clear line between them, and [e] one of the two
    directed walkable edges weighted by that distance. *)
Definition emittedFor (eb : EdgeBuilder.t) (floor : string) (maxDistance : Q)
    (nodeA nodeB : Node) (e : EdgeBuilder.BuiltEdge) : Prop :=
  String.ltb (id nodeA) (id nodeB) = true
  /\ (squaredMeters nodeA nodeB <= maxDistance * maxDistance)%Q
  /\ CollisionDetector.isPathClear (EdgeBuilder.collisionDetector eb)
       (coords nodeA) (coords nodeB) floor = true
  /\ (e = EdgeBuilder.mkBuiltEdge (id nodeA) (id nodeB) (meterDistance nodeA nodeB) "walkable"
      \/ e = EdgeBuilder.mkBuiltEdge (id nodeB) (id nodeA) (meterDistance nodeA nodeB)
                "walkable").

(** The length in meters by which [isPathClearRelaxed] sorts a segment:
    its planar length in degrees times 111320, along both axes and at
    every latitude. *)
Definition degreeLength (a b : Coord) : Q :=
  (Math_sqrt ((lng b - lng a) * (lng b - lng a) + (lat b - lat a) * (lat b - lat a))
   * 111320)%Q.

(** Two coordinates less than a ten-millionth of a degree apart on both
    axes: the path already begins, or ends, there. *)
Definition sameCoordinates (a b : Coord) : Prop :=
  (Qabs (lng a - lng b) < 1 # 10000000)%Q /\ (Qabs (lat a - lat b) < 1 # 10000000)%Q.

(** What [withRouteEndpoints] does at one end of a path, for the endpoint
    [point] of the query: nothing when the path is [already] there;
    otherwise the point is [added] when the connector is [clear], and
    [warning] is given when it is not. *)
Definition endpointJoined (already : Prop) (clear : bool) (point : Coord)
    (warning : string) (added : list Coord) (warned : list string) : Prop :=
  (already /\ added = [] /\ warned = [])
  \/ (~ already /\ clear = true /\ added = [point] /\ warned = [])
  \/ (~ already /\ clear = false /\ added = [] /\ warned = [warning]).

(** The ten parts of a query that the cache key is built from. *)
Inductive KeyPart : Type :=
  | StartLng | StartLat | StartFloor | EndLng | EndLat | EndFloor
  | AccessibleOnly | RoomMode | DoorCount | Area.

(** A coordinate as the key prints it: rounded to four decimal places. *)
Definition roundedCoordinate (c : Q) : string :=
  String_of_number (Math_round (c * 10000) / 10000)%Q.

(** A room threshold as the key prints it: nothing unless it is a number. *)
Definition printedThreshold (threshold : option Q) : string :=
  match threshold with Some n => String_of_number n | None => EmptyString end.

(** The part of a query as the key holds it. *)
Definition keyPart (part : KeyPart) (startCoords endCoords : Coord)
    (startFloorId endFloorId : string) (options : Options) : string :=
  match part with
  | StartLng => roundedCoordinate (lng startCoords)
  | StartLat => roundedCoordinate (lat startCoords)
  | StartFloor => startFloorId
  | EndLng => roundedCoordinate (lng endCoords)
  | EndLat => roundedCoordinate (lat endCoords)
  | EndFloor => endFloorId
  | AccessibleOnly => if accessibleOnly options then "acc" else "std"
  | RoomMode =>
      string_or (roomTraversalMode options)
                (if disallowOtherRooms options then "strict" else "all")
  | DoorCount => printedThreshold (publicRoomDoorCount options)
  | Area => printedThreshold (publicRoomArea options)
  end.

End Vocabulary.

(** ** What the search keeps *)

(** The edges of the nodes that are not closed yet. *)
Definition unexpanded (adjacency : gmap string (list Edge)) (closed : gset string) : nat :=
  map_fold (fun i edges total =>
              if bool_decide (i ∈ closed) then total else (length edges + total)%nat)
           0%nat adjacency.

Section SearchInvariant.
Context `{Platform}.
Import AStar.

(** What the rounds still to come can cost: one for every entry of the
    heap and one for every edge of a node that is not closed. *)
Definition potential (g : Graph) (st : SearchState) : nat :=
  (length (openSet st) + unexpanded (adjacency g) (closedSet st))%nat.

(** What every round of [findPath] keeps: the heap holds known nodes, a
    predecessor is a known node closed before its successor, and the goal
    is never closed. [rank] is the order in which nodes were closed. *)
Record searchInvariant (g : Graph) (endNodeId : string) (rank : string -> nat)
    (st : SearchState) : Prop := mkInvariant {
  open_known :
    forall item, item ∈ openSet st -> is_Some (getNode g (MinHeap.nodeId item));
  predecessor_closed :
    forall n c, cameFrom st !! n = Some c ->
      c ∈ closedSet st /\ is_Some (getNode g c) /\ (n ∈ closedSet st -> (rank c < rank n)%nat);
  closed_ranked :
    forall c, c ∈ closedSet st -> (rank c < size (closedSet st))%nat;
  goal_open : endNodeId ∉ closedSet st
}.

End SearchInvariant.

(** ** Further vocabulary *)

(** *** Walks of the graph search *)

Section SearchWalks.
Context `{Platform}.
Import AStar.

(** The two tests on an edge at the head of the inner loop of [findPath]. *)
Definition passable (options : Options) (edge : Edge) : bool :=
  negb (accessibleOnly options && negb (accessible edge))
  && negb (avoidStairs options && String.eqb (etype edge) "stairs").

(** [edge] leaves [c] and the search may take it: it passes the edge tests,
    it leads to a known node the node test accepts, and it has the length
    [d]. *)
Definition admissible (g : Graph) (options : Options) (c : string) (edge : Edge)
    (node : Node) (d : Q) : Prop :=
  In edge (getEdges g c)
  /\ passable options edge = true
  /\ getNode g (target edge) = Some node
  /\ findPath_isNodeAllowed options node = true
  /\ edgeDistance g c node edge = Ret d.

(** [Walk g options s n path cost]: [path] lists the nodes of a walk from
    [s] to [n] along admissible edges, of total length [cost]. *)
Inductive Walk (g : Graph) (options : Options) (s : string)
    : string -> list string -> Q -> Prop :=
  | walk_start : Walk g options s s [s] 0%Q
  | walk_step (c : string) (path : list string) (cost : Q)
      (edge : Edge) (node : Node) (d : Q) :
      Walk g options s c path cost ->
      admissible g options c edge node d ->
      Walk g options s (target edge) (path ++ [target edge]) (cost + d)%Q.

(** What every round of [findPath] keeps about the predecessors: each was
    closed when it was recorded, leads back to the start, and accounts for
    the score of its successor. *)
Record searchTrace (g : Graph) (options : Options) (s : string)
    (st : SearchState) : Prop := mkTrace {
  trace_predecessor :
    forall n c, cameFrom st !! n = Some c ->
      c ∈ closedSet st
      /\ (c = s \/ is_Some (cameFrom st !! c))
      /\ exists edge node gc d,
           admissible g options c edge node d /\ target edge = n
           /\ gScore st !! c = Some gc /\ gScore st !! n = Some (gc + d)%Q;
  trace_open :
    forall item, item ∈ openSet st ->
      MinHeap.nodeId item = s \/ is_Some (cameFrom st !! MinHeap.nodeId item);
  trace_start : gScore st !! s = Some 0%Q;
  trace_first :
    (s ∈ closedSet st) \/ forall item, item ∈ openSet st -> MinHeap.nodeId item = s
}.

(** What every round keeps about the frontier: a scored node is closed or
    waits in the heap, and every admissible edge out of an expanded node
    leads to a scored node.  Between two rounds the expanded nodes are the
    closed ones; inside the inner loop the current node is not among them
    yet. *)
Record searchFrontier (g : Graph) (options : Options) (expanded : gset string)
    (st : SearchState) : Prop := mkFrontier {
  frontier_scored :
    forall n, is_Some (gScore st !! n) ->
      (n ∈ closedSet st) \/ exists item, item ∈ openSet st /\ MinHeap.nodeId item = n;
  frontier_open :
    forall item, item ∈ openSet st -> is_Some (gScore st !! MinHeap.nodeId item);
  frontier_closed_scored :
    forall c, c ∈ closedSet st -> is_Some (gScore st !! c);
  frontier_closed :
    forall c edge node d, c ∈ expanded -> admissible g options c edge node d ->
      is_Some (gScore st !! target edge)
}.

(** The predecessor chain of [n], oldest node first. *)
Inductive Chain (cameFrom : gmap string string) : string -> list string -> Prop :=
  | chain_end (n : string) : cameFrom !! n = None -> Chain cameFrom n [n]
  | chain_step (n c : string) (l : list string) :
      cameFrom !! n = Some c -> Chain cameFrom c l -> Chain cameFrom n (l ++ [n]).

(** What the loop of [findPath] keeps from round to round. *)
Definition searchKeeps (g : Graph) (options : Options) (s t : string)
    (st : SearchState) : Prop :=
  (exists rank, searchInvariant g t rank st)
  /\ searchTrace g options s st
  /\ searchFrontier g options (closedSet st) st.

End SearchWalks.

(** *** The order of the open heap *)

(** The order of the binary heap in the array: no entry has a priority
    below that of its parent at index [(i - 1) / 2]. *)
Definition heapOrdered (heap : MinHeap.t) : Prop :=
  forall i child parent,
    (0 < i)%nat -> heap !! i = Some child -> heap !! ((i - 1) / 2)%nat = Some parent ->
    (MinHeap.priority parent <= MinHeap.priority child)%Q.

(** The order while an entry travels up or down: it holds between every
    entry other than [k] ([skipParent = false]) or other than the children
    of [k] ([skipParent = true]) and its parent, and between the parent of
    [k] and the children of [k]. *)
Definition heapOrderedBut (skipParent : bool) (k : nat) (heap : MinHeap.t) : Prop :=
  (forall i child parent,
     (0 < i)%nat -> (if skipParent then ((i - 1) / 2)%nat else i) <> k ->
     heap !! i = Some child -> heap !! ((i - 1) / 2)%nat = Some parent ->
     (MinHeap.priority parent <= MinHeap.priority child)%Q)
  /\ (forall i child grandparent,
        (0 < k)%nat -> ((i - 1) / 2)%nat = k -> (0 < i)%nat ->
        heap !! i = Some child -> heap !! ((k - 1) / 2)%nat = Some grandparent ->
        (MinHeap.priority grandparent <= MinHeap.priority child)%Q).

(** *** Nearest candidates and the edges of a floor *)

(** The squared planar distance in degrees from a point to a node. *)
Definition planarDistSq (p : Coord) (node : Node) : Q :=
  let dx := (lng (coords node) - lng p)%Q in
  let dy := (lat (coords node) - lat p)%Q in
  (dx * dx + dy * dy)%Q.

(** The square around [nodeA] that reaches [maxDistance / 111320] degrees
    each way: the range asked of the quad tree. *)
Definition degreeBox (maxDistance : Q) (nodeA : Node) : BBox :=
  mkBBox (lng (coords nodeA) - maxDistance / 111320)
         (lat (coords nodeA) - maxDistance / 111320)
         (lng (coords nodeA) + maxDistance / 111320)
         (lat (coords nodeA) + maxDistance / 111320)%Q.

Section EdgeBuilderVocabulary.
Context `{Platform}.
Import EdgeBuilder.

(** The candidates [selectNearestCandidates] chooses among: all but
    [nodeA] itself. *)
Definition eligible (nodeA : Node) (candidates : list Node) : list Node :=
  List.filter (fun c => negb (String.eqb (id c) (id nodeA))) candidates.

(** [worstIndex] and [worstDistSq] point at a largest entry of [best]. *)
Definition worstOf (best : list (Node * Q)) (worstIndex : nat)
    (worstDistSq : option Q) : Prop :=
  match worstDistSq with
  | None => best = []
  | Some w =>
      (exists n, best !! worstIndex = Some (n, w))
      /\ forall x, x ∈ best -> (snd x <= w)%Q
  end.

(** The square around [nodeA] the candidates are taken from when there is
    no spatial index: [maxDistance / 111320] degrees each way. *)
Definition withinDegreeBox (maxDistance : Q) (nodeA nodeB : Node) : Prop :=
  (Qabs (lng (coords nodeB) - lng (coords nodeA)) <= maxDistance / 111320)%Q
  /\ (Qabs (lat (coords nodeB) - lat (coords nodeA)) <= maxDistance / 111320)%Q.

End EdgeBuilderVocabulary.

(** *** Segments and obstacles *)

Section CollisionVocabulary.
Context `{Platform}.
Import CollisionDetector.

(** The bounding-box test that lets [lineIntersectsObstacle] skip an
    obstacle without asking turf. *)
Definition skipsObstacle (a b : Coord) (o : Obstacle) : bool :=
  match bbox o with
  | Some ob => bboxDisjoint (lineBBox a b) ob
  | None => false
  end.

(** The loop goes on after [o]. *)
Definition goesOnAfter (cd : CollisionDetector.t) (a b : Coord) (floor : string)
    (o : Obstacle) : Prop :=
  skipsObstacle a b o = true
  \/ exists points,
       turf_lineIntersect a b (feature o) = Some points
       /\ forallb (fun q => isIntersectionAtDoor cd q floor) points = true.

(** The loop ends at [o] with a collision. *)
Definition stopsAt (cd : CollisionDetector.t) (a b : Coord) (floor : string)
    (o : Obstacle) : Prop :=
  skipsObstacle a b o = false
  /\ exists points,
       turf_lineIntersect a b (feature o) = Some points
       /\ forallb (fun q => isIntersectionAtDoor cd q floor) points = false.

(** The segment from [a] to [b] and the box reach each other: along each
    axis the span of the segment and the span of the box overlap. *)
Definition inReach (a b : Coord) (box : BBox) : Prop :=
  (Qmin (lng a) (lng b) <= maxX box)%Q /\ (minX box <= Qmax (lng a) (lng b))%Q
  /\ (Qmin (lat a) (lat b) <= maxY box)%Q /\ (minY box <= Qmax (lat a) (lat b))%Q.

(** The obstacle has a bounding box that the segment does not reach. *)
Definition outOfReach (a b : Coord) (o : Obstacle) : Prop :=
  exists box, bbox o = Some box /\ ~ inReach a b box.

(** The point is at a door of the floor: among the door segments of the
    floor, in their order, there is one at most 0.6 meters from the point,
    and turf measures the distance to every segment before it. *)
Definition atDoor (cd : CollisionDetector.t) (q : Coord) (floor : string) : Prop :=
  exists before segment after distance,
    doorSegments cd !! floor = Some (before ++ segment :: after)
    /\ Forall (fun s => is_Some (turf_pointToLineDistance q s)) before
    /\ turf_pointToLineDistance q segment = Some distance
    /\ (distance <= 6 # 10)%Q.

(** The check passes the obstacle over: it is out of reach, or the segment
    meets it in no point, or at doors only. *)
Definition passedOver (cd : CollisionDetector.t) (a b : Coord) (floor : string)
    (o : Obstacle) : Prop :=
  outOfReach a b o
  \/ exists points,
       turf_lineIntersect a b (feature o) = Some points
       /\ forall q, In q points -> atDoor cd q floor.

(** The obstacle blocks the segment: it is not out of reach, and the
    segment meets it in a point that is at no door. *)
Definition blocks (cd : CollisionDetector.t) (a b : Coord) (floor : string)
    (o : Obstacle) : Prop :=
  ~ outOfReach a b o
  /\ exists points q,
       turf_lineIntersect a b (feature o) = Some points
       /\ In q points /\ ~ atDoor cd q floor.

End CollisionVocabulary.

(** *** The capacity of the path cache *)

(** The keys of a [Map] are distinct. *)
Definition distinctKeys {Route : Type} (pc : PathCache.t Route) : Prop :=
  NoDup (map fst (PathCache.cache pc)).

Section PathCacheVocabulary.
Context {Route : Type}.
Import PathCache.

(** What [set] does to the entries before it writes the new one. *)
Definition evicted (pc : PathCache.t Route) : list (string * Route) :=
  if (maxSize pc <=? length (cache pc))%nat then
    match cache pc with
    | [] => []
    | (firstKey, _) :: _ => deleteKey firstKey (cache pc)
    end
  else cache pc.

End PathCacheVocabulary.

(** *** Candidates, best pairs and the routes of a query *)

Section EngineVocabulary.
Context `{Platform}.
Import PathfindingEngine.

(** The point is inside the bounding box of the room: none of the four
    tests of [findRoomAtPoint] passes the room over. *)
Definition inRoomBox (p : Coord) (room : Room) : bool :=
  negb (num_lt (lng p) (minX (bbox room)) || num_gt (lng p) (maxX (bbox room))
        || num_lt (lat p) (minY (bbox room)) || num_gt (lat p) (maxY (bbox room))).

(** The total [findBestPath] compares: the distance of the graph path and
    of the two connectors. *)
Definition totalDistance (startCoords endCoords : Coord) (candidates : Node * Node)
    (indoor : Q) : Q :=
  (indoor + turf_distance startCoords (coords (fst candidates))
   + turf_distance endCoords (coords (snd candidates)))%Q.

(** [b] is what [findBestPath] keeps for a pair of [pairs] that the graph
    search joins under [options]: the path found, and the total of its
    distance and the two connectors. *)
Definition bestOf (e : PathfindingEngine.t) (startCoords endCoords : Coord)
    (options : Options) (pairs : list (Node * Node)) (b : Best) : Prop :=
  In (bestStart b, bestEnd b) pairs
  /\ AStar.findPath (graph e) (id (bestStart b)) (id (bestEnd b)) options
     = Ret (Some (best b))
  /\ exists indoor,
       PathResult.distance (best b) = Some indoor
       /\ bestDistance b
          = totalDistance startCoords endCoords (bestStart b, bestEnd b) indoor.

(** No pair of [pairs] that the graph search joins has a smaller total
    than [bound]. *)
Definition leastAmong (e : PathfindingEngine.t) (startCoords endCoords : Coord)
    (options : Options) (pairs : list (Node * Node)) (bound : Q) : Prop :=
  forall candidates path indoor,
    In candidates pairs ->
    AStar.findPath (graph e) (id (fst candidates)) (id (snd candidates)) options
    = Ret (Some path) ->
    PathResult.distance path = Some indoor ->
    (bound <= totalDistance startCoords endCoords candidates indoor)%Q.

(** The three failures a query can record. *)
Definition failureCode (code : string) : Prop :=
  code = "no-path" \/ code = "no-door" \/ code = "blocked".

(** [r] is the route [findRoute] assembles from the best pair of
    candidates of a graph search. *)
Definition graphRoute (e : PathfindingEngine.t) (startCoords endCoords : Coord)
    (startFloorId endFloorId : string) (options : Options) (r : Route.t) : Prop :=
  exists startRoom endRoom starts ends applied allowed b effective,
    findBestPath e startCoords endCoords starts ends
                 (routeOptionsOf options applied allowed) = Ret (Some b)
    /\ r = assembleRoute startCoords endCoords startFloorId endFloorId
                         startRoom endRoom b effective.

End EngineVocabulary.

(** *** Entrances and positions along a path *)

(** The point at the share [t] of the way from [p0] to [p1], as
    [_interpolatePosition] computes it. *)
Definition pointBetween (p0 p1 : Coord) (t : Q) : Coord :=
  ((lng p0 + t * (lng p1 - lng p0))%Q, (lat p0 + t * (lat p1 - lat p0))%Q).

Section EntranceVocabulary.
Context `{Platform}.
Import NavigationController.

(** An entrance node of the graph of the controller. *)
Definition entrance (nc : NavigationController.t) (node : Node) : Prop :=
  (exists key, nodes (PathfindingEngine.graph (engine nc)) !! key = Some node)
  /\ ntype node = "entrance".

(** An entrance that [findNearestEntranceNode] considers: one of the
    preferred floor when a floor is preferred and has an entrance, any
    entrance otherwise. *)
Definition entranceCandidate (nc : NavigationController.t) (node : Node) : Prop :=
  entrance nc node
  /\ forall preferred,
       groundFloorId nc = Some preferred -> preferred <> EmptyString ->
       (exists other, entrance nc other /\ floorId other = preferred) ->
       floorId node = preferred.

End EntranceVocabulary.

(* ===================================================================== *)
(** * Properties *)
(* ===================================================================== *)

(** ** Comparisons *)

Lemma num_lt_true (a b : Q) : num_lt a b = true <-> (a < b)%Q.
Proof.
  unfold num_lt. rewrite Qlt_alt. destruct (a ?= b)%Q; split; congruence.
Qed.

Lemma num_lt_false (a b : Q) : num_lt a b = false <-> (b <= a)%Q.
Proof.
  split.
  - intros Hf. apply Qnot_lt_le. intros Hlt. apply num_lt_true in Hlt. congruence.
  - intros Hle. destruct (num_lt a b) eqn:Hlt; [| reflexivity].
    apply num_lt_true in Hlt. exfalso. exact (Qlt_not_le _ _ Hlt Hle).
Qed.

Lemma num_gt_false (a b : Q) : num_gt a b = false <-> (a <= b)%Q.
Proof. unfold num_gt. apply num_lt_false. Qed.

Lemma num_le_true (a b : Q) : num_le a b = true <-> (a <= b)%Q.
Proof. unfold num_le. apply Qle_bool_iff. Qed.

(** Closes a comparison of two numerals. *)
Ltac by_computation :=
  first
    [ apply num_lt_true; vm_compute; reflexivity
    | apply num_le_true; vm_compute; reflexivity
    | vm_compute; reflexivity
    | vm_compute; congruence
    | vm_compute; intuition congruence ].

Section CollisionDetectorFacts.
Context `{Platform}.
Import CollisionDetector.

(** C5 (as the code has it). [isPathClearRelaxed] sorts a segment by its
    planar length in degrees times 111320.  It answers true when that
    length is below 2, the negation of [lineIntersectsObstacle] alone when
    it is from 2 to below 10, and what [isPathClear] answers from 10 on. *)
Theorem isPathClearRelaxed_by_length (cd : CollisionDetector.t) (a b : Coord)
    (floor : string) :
  ((degreeLength a b < 2)%Q -> isPathClearRelaxed cd a b floor = true)
  /\ ((2 <= degreeLength a b)%Q -> (degreeLength a b < 10)%Q ->
      isPathClearRelaxed cd a b floor = negb (lineIntersectsObstacle cd a b floor))
  /\ ((10 <= degreeLength a b)%Q ->
      isPathClearRelaxed cd a b floor = isPathClear cd a b floor).
Proof.
  unfold isPathClearRelaxed.
  change (distMeters a b) with (degreeLength a b).
  repeat split.
  - intros Hshort. apply num_lt_true in Hshort. now rewrite Hshort.
  - intros Hlow Hhigh. apply num_lt_false in Hlow. apply num_lt_true in Hhigh.
    now rewrite Hlow, Hhigh.
  - intros Hlong.
    assert (Hlow : (2 <= degreeLength a b)%Q).
    { eapply Qle_trans; [| exact Hlong]. by_computation. }
    apply num_lt_false in Hlow, Hlong. now rewrite Hlow, Hlong.
Qed.
End CollisionDetectorFacts.

Section CollisionDetectorOnThePlan.
#[local] Existing Instance Plan.platform.

Lemma isPathClearRelaxed_by_length_witness :
  let cd := Plan.detector in
  let o := Plan.at_ 0 0 in
  ((degreeLength o (Plan.at_ 1 0) < 2)%Q
   /\ CollisionDetector.isPathClearRelaxed cd o (Plan.at_ 1 0) "F0" = true)
  /\ ((2 <= degreeLength (Plan.at_ 1 3) (Plan.at_ 3 3))%Q
      /\ (degreeLength (Plan.at_ 1 3) (Plan.at_ 3 3) < 10)%Q
      /\ CollisionDetector.isPathClearRelaxed cd (Plan.at_ 1 3) (Plan.at_ 3 3) "F0"
         = negb (CollisionDetector.lineIntersectsObstacle cd (Plan.at_ 1 3) (Plan.at_ 3 3) "F0"))
  /\ ((10 <= degreeLength o (Plan.at_ 10 0))%Q
      /\ CollisionDetector.isPathClearRelaxed cd o (Plan.at_ 10 0) "F0"
         = CollisionDetector.isPathClear cd o (Plan.at_ 10 0) "F0").
Proof.
  intros cd o.
  assert (Hshort : (degreeLength o (Plan.at_ 1 0) < 2)%Q) by by_computation.
  assert (Hlow : (2 <= degreeLength (Plan.at_ 1 3) (Plan.at_ 3 3))%Q) by by_computation.
  assert (Hhigh : (degreeLength (Plan.at_ 1 3) (Plan.at_ 3 3) < 10)%Q) by by_computation.
  assert (Hlong : (10 <= degreeLength o (Plan.at_ 10 0))%Q) by by_computation.
  split; [| split].
  - split; [exact Hshort |].
    exact (proj1 (isPathClearRelaxed_by_length cd o (Plan.at_ 1 0) "F0") Hshort).
  - split; [exact Hlow | split; [exact Hhigh |]].
    exact (proj1 (proj2 (isPathClearRelaxed_by_length cd (Plan.at_ 1 3) (Plan.at_ 3 3) "F0"))
                 Hlow Hhigh).
  - split; [exact Hlong |].
    exact (proj2 (proj2 (isPathClearRelaxed_by_length cd o (Plan.at_ 10 0) "F0")) Hlong).
Defined.

(** C5, the claim as it is written.  On the parallel of 60 degrees a
    segment of three units from west to east is 1.67 meters long, but the
    relaxed check counts 3.34 meters, tests it against the obstacles and
    refuses it for the wall it crosses. *)
Lemma short_segment_is_collision_tested :
  let a := Plan.at_ 0 6000000 in
  let b := Plan.at_ 3 6000000 in
  (turf_distance (Platform := Plan.platformAtSixty) a b < 2)%Q
  /\ CollisionDetector.isPathClearRelaxed (H := Plan.platformAtSixty)
       Plan.detectorAtSixty a b "F0" = false.
Proof.
  intros a b. split; [by_computation | vm_compute; reflexivity].
Qed.

End CollisionDetectorOnThePlan.


(** ** Strings as JavaScript orders them *)

Lemma leb_false_ltb (a b : string) : String.leb b a = false -> String.ltb a b = true.
Proof.
  unfold String.leb, String.ltb. rewrite (String.compare_antisym a b).
  destruct (String.compare b a); simpl; intros; congruence.
Qed.

(** ** Lists updated in place *)

Lemma In_list_insert {A : Type} (l : list A) (i : nat) (y z : A) :
  In z (<[i := y]> l) -> z = y \/ In z l.
Proof.
  revert i. induction l as [| x l IH]; intros i Hin; simpl in *.
  - contradiction.
  - destruct i as [| i]; simpl in Hin.
    + destruct Hin as [-> | Hin]; auto.
    + destruct Hin as [-> | Hin]; auto.
      destruct (IH i Hin); auto.
Qed.

Section EdgeBuilderFacts.
Context `{Platform}.
Import EdgeBuilder.

Lemma In_insertByDistSq (item x : Node * Q) (sorted : list (Node * Q)) :
  In x (insertByDistSq item sorted) -> x = item \/ In x sorted.
Proof.
  induction sorted as [| y sorted IH]; simpl.
  - intros [<- | []]. now left.
  - destruct (num_lt (snd item) (snd y)); simpl.
    + intros [<- | Hin]; auto.
    + intros [<- | Hin]; auto. destruct (IH Hin); auto.
Qed.

Lemma In_sortByDistSq (x : Node * Q) (best : list (Node * Q)) :
  In x (sortByDistSq best) -> In x best.
Proof.
  unfold sortByDistSq.
  assert (Hgen : forall acc, In x (fold_left (fun acc item => insertByDistSq item acc) best acc)
                             -> In x acc \/ In x best).
  { induction best as [| item best IH]; simpl; intros acc Hin.
    - now left.
    - destruct (IH _ Hin) as [Hacc | Hbest]; [| auto].
      destruct (In_insertByDistSq _ _ _ Hacc) as [-> | Hacc']; auto. }
  intros Hin. destruct (Hgen [] Hin) as [[] | Hbest]. exact Hbest.
Qed.

Lemma In_selectLoop (nodeA : Node) (candidates : list Node) (maxNeighbors : nat)
    (best : list (Node * Q)) (worstIndex : nat) (worstDistSq : option Q) (x : Node * Q) :
  In x (selectLoop nodeA candidates maxNeighbors best worstIndex worstDistSq) ->
  In x best \/ In (fst x) candidates.
Proof.
  revert best worstIndex worstDistSq.
  induction candidates as [| c candidates IH]; simpl; intros best wi wd Hin.
  - now left.
  - destruct (String.eqb (id c) (id nodeA)).
    { destruct (IH _ _ _ Hin); auto. }
    destruct (length best <? maxNeighbors)%nat.
    { assert (Hstep : In x (best ++ [(c, distSqDegrees nodeA c)]) \/ In (fst x) candidates).
      { destruct (aboveWorst (distSqDegrees nodeA c) wd); exact (IH _ _ _ Hin). }
      destruct Hstep as [Hbest | Hrest]; [| auto].
      apply in_app_or in Hbest. destruct Hbest as [Hbest | [<- | []]]; auto. }
    destruct (notBelowWorst (distSqDegrees nodeA c) wd).
    { destruct (IH _ _ _ Hin); auto. }
    destruct (findWorst (<[wi := (c, distSqDegrees nodeA c)]> best) 0 0 None) as [wi' wd'].
    destruct (IH _ _ _ Hin) as [Hbest | Hrest]; [| auto].
    destruct (In_list_insert _ _ _ _ Hbest) as [-> | Hbest']; auto.
Qed.

Lemma In_selectNearestCandidates (nodeA b : Node) (candidates : list Node)
    (maxNeighbors : nat) :
  In b (selectNearestCandidates nodeA candidates maxNeighbors) -> In b candidates.
Proof.
  unfold selectNearestCandidates. intros Hin.
  apply in_map_iff in Hin. destruct Hin as [[b' d] [<- Hin]].
  apply In_sortByDistSq in Hin.
  destruct (In_selectLoop _ _ _ _ _ _ _ Hin) as [[] | Hc]. exact Hc.
Qed.

(** The candidates of a node come from the floor's spatial index or, without
    one, from the node list. *)
Lemma candidatesOf_source (nodes : list Node) (maxDistance : Q)
    (spatialIndex : SpatialIndex) (neighborLimit : option nat) (nodeA b : Node) :
  In b (candidatesOf nodes maxDistance spatialIndex neighborLimit nodeA) ->
  match spatialIndex with
  | Some query => exists box, In b (query box)
  | None => In b nodes
  end.
Proof.
  unfold candidatesOf. intros Hin.
  set (pool := match spatialIndex with Some _ => _ | None => _ end) in Hin.
  assert (Hpool : In b pool).
  { destruct (candidatePoolLimit neighborLimit) as [limit |]; [| exact Hin].
    destruct (limit <? length pool)%nat; [| exact Hin].
    exact (In_selectNearestCandidates _ _ _ _ Hin). }
  subst pool. destruct spatialIndex as [query |].
  - eexists. exact Hpool.
  - apply filter_In in Hpool. tauto.
Qed.

(** The distance of the inner loop is the distance in meters on the plane
    at [nodeA]. *)
Lemma distanceSqMeters_squaredMeters (nodeA nodeB : Node) :
  distanceSqMeters nodeA nodeB = squaredMeters nodeA nodeB.
Proof. reflexivity. Qed.

Lemma edgesFromNode_sound (eb : EdgeBuilder.t) (floor : string) (maxDistance : Q)
    (neighborLimit : option nat) (nodeA : Node) (candidates : list Node)
    (addedForNode : nat) (e : BuiltEdge) :
  In e (edgesFromNode eb floor maxDistance neighborLimit nodeA candidates addedForNode) ->
  exists nodeB,
    In nodeB candidates /\ emittedFor eb floor maxDistance nodeA nodeB e
    /\ In (mkBuiltEdge (id nodeA) (id nodeB) (meterDistance nodeA nodeB) "walkable")
          (edgesFromNode eb floor maxDistance neighborLimit nodeA candidates addedForNode)
    /\ In (mkBuiltEdge (id nodeB) (id nodeA) (meterDistance nodeA nodeB) "walkable")
          (edgesFromNode eb floor maxDistance neighborLimit nodeA candidates addedForNode).
Proof.
  revert addedForNode.
  induction candidates as [| b candidates IH]; simpl; intros added Hin; [contradiction |].
  assert (Hlater : forall n rest,
             In e (edgesFromNode eb floor maxDistance neighborLimit nodeA candidates n) ->
             (forall x, In x (edgesFromNode eb floor maxDistance neighborLimit nodeA candidates n)
                        -> In x rest) ->
             exists nodeB, (b = nodeB \/ In nodeB candidates)
               /\ emittedFor eb floor maxDistance nodeA nodeB e
               /\ In (mkBuiltEdge (id nodeA) (id nodeB) (meterDistance nodeA nodeB) "walkable")
                     rest
               /\ In (mkBuiltEdge (id nodeB) (id nodeA) (meterDistance nodeA nodeB) "walkable")
                     rest).
  { intros n rest Hn Hsub. destruct (IH n Hn) as (nodeB & HB & Hem & H1 & H2).
    exists nodeB. auto. }
  destruct (String.leb (id b) (id nodeA)) eqn:Hid; [eapply Hlater; eauto |].
  rewrite distanceSqMeters_squaredMeters in *.
  destruct (num_gt (squaredMeters nodeA b) (maxDistance * maxDistance)) eqn:Hfar;
    [eapply Hlater; eauto |].
  destruct (hasLineOfSight eb (coords nodeA) (coords b) floor) eqn:Hsight;
    [| eapply Hlater; eauto].
  fold (meterDistance nodeA b) in *.
  simpl in Hin.
  assert (Hhere : emittedFor eb floor maxDistance nodeA b
                   (mkBuiltEdge (id nodeA) (id b) (meterDistance nodeA b) "walkable")
                 /\ emittedFor eb floor maxDistance nodeA b
                   (mkBuiltEdge (id b) (id nodeA) (meterDistance nodeA b) "walkable")).
  { unfold emittedFor. apply leb_false_ltb in Hid. apply num_gt_false in Hfar.
    unfold hasLineOfSight in Hsight. auto 10. }
  destruct Hin as [<- | [<- | Hin]].
  - exists b. simpl. tauto.
  - exists b. simpl. tauto.
  - destruct (limitReached neighborLimit (S added)); [contradiction |].
    eapply Hlater; [exact Hin |]. intros x Hx. simpl. auto.
Qed.

(** C1. Every edge [buildEdgesForFloor] emits joins a node A of the list
    to a node B handed in for the floor (by the list or by the quad tree)
    with [id B > id A], the two at most [maxDistance] meters apart, with
    [isPathClear] true between them; it comes with its reverse, both of
    type walkable and weighted by that distance in meters.  And as
    [buildAllEdges] builds the edges of a graph, floor by floor, both ends
    of every edge are nodes of the floor it is built for. *)
Theorem buildEdgesForFloor_sound (eb : EdgeBuilder.t) (maxDistance : Q)
    (maxNeighbors : option nat) :
  (0 <= maxDistance)%Q ->
  (forall x m : Q, (0 <= m)%Q -> (x <= m * m)%Q -> (Math_sqrt x <= m)%Q) ->
  (forall (nodes : list Node) (floor : string) (spatialIndex : SpatialIndex)
          (e : BuiltEdge),
      In e (buildEdgesForFloor eb nodes floor maxDistance spatialIndex maxNeighbors) ->
      exists nodeA nodeB : Node,
        In nodeA nodes
        /\ match spatialIndex with
           | Some query => exists range, In nodeB (query range)
           | None => In nodeB nodes
           end
        /\ String.ltb (id nodeA) (id nodeB) = true
        /\ (meterDistance nodeA nodeB <= maxDistance)%Q
        /\ CollisionDetector.isPathClear (collisionDetector eb)
             (coords nodeA) (coords nodeB) floor = true
        /\ (e = mkBuiltEdge (id nodeA) (id nodeB) (meterDistance nodeA nodeB) "walkable"
            \/ e = mkBuiltEdge (id nodeB) (id nodeA) (meterDistance nodeA nodeB) "walkable")
        /\ In (mkBuiltEdge (id nodeA) (id nodeB) (meterDistance nodeA nodeB) "walkable")
              (buildEdgesForFloor eb nodes floor maxDistance spatialIndex maxNeighbors)
        /\ In (mkBuiltEdge (id nodeB) (id nodeA) (meterDistance nodeA nodeB) "walkable")
              (buildEdgesForFloor eb nodes floor maxDistance spatialIndex maxNeighbors))
  /\ (forall (g : Graph) (e : BuiltEdge),
         In e (buildAllEdges eb g maxDistance maxNeighbors) ->
         exists (floor : string) (nodeA nodeB : Node),
           In e (edgesOfFloor eb g maxDistance maxNeighbors floor)
           /\ (exists key, nodes g !! key = Some nodeA)
           /\ (exists key, nodes g !! key = Some nodeB)
           /\ floorId nodeA = floor /\ floorId nodeB = floor
           /\ String.ltb (id nodeA) (id nodeB) = true
           /\ (meterDistance nodeA nodeB <= maxDistance)%Q
           /\ CollisionDetector.isPathClear (collisionDetector eb)
                (coords nodeA) (coords nodeB) floor = true
           /\ (e = mkBuiltEdge (id nodeA) (id nodeB) (meterDistance nodeA nodeB) "walkable"
               \/ e = mkBuiltEdge (id nodeB) (id nodeA) (meterDistance nodeA nodeB)
                        "walkable")
           /\ In (mkBuiltEdge (id nodeA) (id nodeB) (meterDistance nodeA nodeB) "walkable")
                 (buildAllEdges eb g maxDistance maxNeighbors)
           /\ In (mkBuiltEdge (id nodeB) (id nodeA) (meterDistance nodeA nodeB) "walkable")
                 (buildAllEdges eb g maxDistance maxNeighbors)).
Proof.
  intros Hmax Hsqrt.
  assert (Hfloor : forall nodes floor spatialIndex e,
            In e (buildEdgesForFloor eb nodes floor maxDistance spatialIndex maxNeighbors) ->
            exists nodeA nodeB : Node,
              In nodeA nodes
              /\ match spatialIndex with
                 | Some query => exists range, In nodeB (query range)
                 | None => In nodeB nodes
                 end
              /\ String.ltb (id nodeA) (id nodeB) = true
              /\ (meterDistance nodeA nodeB <= maxDistance)%Q
              /\ CollisionDetector.isPathClear (collisionDetector eb)
                   (coords nodeA) (coords nodeB) floor = true
              /\ (e = mkBuiltEdge (id nodeA) (id nodeB) (meterDistance nodeA nodeB) "walkable"
                  \/ e = mkBuiltEdge (id nodeB) (id nodeA) (meterDistance nodeA nodeB)
                           "walkable")
              /\ In (mkBuiltEdge (id nodeA) (id nodeB) (meterDistance nodeA nodeB) "walkable")
                    (buildEdgesForFloor eb nodes floor maxDistance spatialIndex maxNeighbors)
              /\ In (mkBuiltEdge (id nodeB) (id nodeA) (meterDistance nodeA nodeB) "walkable")
                    (buildEdgesForFloor eb nodes floor maxDistance spatialIndex maxNeighbors)).
  { intros nodes floor spatialIndex e Hin. unfold buildEdgesForFloor in *.
    apply in_flat_map in Hin. destruct Hin as (nodeA & HA & Hin).
    destruct (edgesFromNode_sound _ _ _ _ _ _ _ _ Hin)
      as (nodeB & HB & (Hid & Hnear & Hclear & Hshape) & Hfwd & Hbwd).
    exists nodeA, nodeB.
    split; [exact HA |]. split; [exact (candidatesOf_source _ _ _ _ _ _ HB) |].
    split; [exact Hid |]. split; [exact (Hsqrt _ _ Hmax Hnear) |].
    split; [exact Hclear |]. split; [exact Hshape |].
    split; apply in_flat_map; exists nodeA; auto. }
  split; [exact Hfloor |].
  intros g e Hin. unfold buildAllEdges in *.
  apply in_flat_map in Hin. destruct Hin as (floor & Hlisted & Hin).
  destruct (Hfloor _ _ _ _ Hin)
    as (nodeA & nodeB & HA & [range HB] & Hid & Hnear & Hclear & Hshape & Hfwd & Hbwd).
  assert (Hon : forall n, In n (getNodesOnFloor g floor) ->
                  (exists key, nodes g !! key = Some n) /\ floorId n = floor).
  { intros n Hn. unfold getNodesOnFloor in Hn. apply filter_In in Hn as [Hn Hf].
    apply String.eqb_eq in Hf. split; [| exact Hf].
    apply in_map_iff in Hn as ([key n'] & Hsnd & Hn). simpl in Hsnd. subst n'.
    exists key. apply elem_of_map_to_list, list_elem_of_In. exact Hn. }
  assert (HB' : In nodeB (getNodesOnFloor g floor)).
  { unfold queryFloor in HB. apply filter_In in HB. tauto. }
  destruct (Hon nodeA HA) as [HkeyA HfloorA], (Hon nodeB HB') as [HkeyB HfloorB].
  exists floor, nodeA, nodeB.
  split; [exact Hin |]. split; [exact HkeyA |]. split; [exact HkeyB |].
  split; [exact HfloorA |]. split; [exact HfloorB |]. split; [exact Hid |].
  split; [exact Hnear |]. split; [exact Hclear |]. split; [exact Hshape |].
  split; apply in_flat_map; exists floor; auto.
Qed.

End EdgeBuilderFacts.

(** ** The platform of the examples *)

Lemma sqrt_below_le (x m : Q) :
  (0 <= m)%Q -> (x <= m * m)%Q -> (Plan.sqrt_below x <= m)%Q.
Proof.
  destruct x as [n d], m as [a b]. unfold Qle, Plan.sqrt_below.
  cbn [Qnum Qden Qmult]. intros Ha Hx.
  set (scale := (10 ^ 12)%Z).
  assert (Hscale : (0 < scale)%Z) by (subst scale; lia).
  rewrite Pos2Z.inj_mul, Z2Pos.id by exact Hscale.
  rewrite Pos2Z.inj_mul in Hx.
  set (r := Z.sqrt (n * Z.pos d * scale * scale)).
  assert (Hr0 : (0 <= r)%Z) by apply Z.sqrt_nonneg.
  destruct (Z.lt_ge_cases (n * Z.pos d * scale * scale) 0) as [Hneg | Hpos].
  - assert (r = 0%Z) as -> by (subst r; apply Z.sqrt_neg; exact Hneg). nia.
  - assert (Hr : (r * r <= n * Z.pos d * scale * scale)%Z).
    { subst r. apply Z.sqrt_spec. exact Hpos. }
    apply Z.square_le_simpl_nonneg; [nia |].
    assert (H1 : (r * Z.pos b * (r * Z.pos b)
                  <= n * Z.pos d * scale * scale * (Z.pos b * Z.pos b))%Z) by nia.
    assert (H2 : (n * Z.pos d * scale * scale * (Z.pos b * Z.pos b)
                  <= a * a * Z.pos d * Z.pos d * scale * scale)%Z).
    { replace (n * Z.pos d * scale * scale * (Z.pos b * Z.pos b))%Z
        with (n * (Z.pos b * Z.pos b) * (Z.pos d * scale * scale))%Z by ring.
      replace (a * a * Z.pos d * Z.pos d * scale * scale)%Z
        with (a * a * Z.pos d * (Z.pos d * scale * scale))%Z by ring.
      apply Z.mul_le_mono_nonneg_r; [nia | exact Hx]. }
    nia.
Qed.

Section EdgeBuilderOnThePlan.
#[local] Existing Instance Plan.platform.

Lemma buildEdgesForFloor_sound_witness :
  let eb := EdgeBuilder.mk Plan.detector in
  let g := Plan.floorGraph true in
  let built := EdgeBuilder.buildAllEdges eb g 15 (Some 8%nat) in
  let e := EdgeBuilder.mkBuiltEdge "n1" "n2" (meterDistance Plan.n1 Plan.n2) "walkable" in
  In e built
  /\ exists (floor : string) (nodeA nodeB : Node),
       String.ltb (id nodeA) (id nodeB) = true
       /\ (meterDistance nodeA nodeB <= 15)%Q
       /\ floorId nodeA = floor /\ floorId nodeB = floor
       /\ In (EdgeBuilder.mkBuiltEdge (id nodeB) (id nodeA) (meterDistance nodeA nodeB)
                "walkable") built.
Proof.
  intros eb g built e.
  assert (Hin : In e built) by (vm_compute; tauto).
  split; [exact Hin |].
  destruct (buildEdgesForFloor_sound eb 15 (Some 8%nat)) as [_ Hgraph].
  - vm_compute. congruence.
  - exact sqrt_below_le.
  - destruct (Hgraph g e Hin)
      as (floor & nodeA & nodeB & _ & _ & _ & HfA & HfB & Hid & Hnear & _ & _ & _ & Hback).
    exists floor, nodeA, nodeB.
    exact (conj Hid (conj Hnear (conj HfA (conj HfB Hback)))).
Defined.

End EdgeBuilderOnThePlan.


(** ** The open heap *)

Lemma swap_Permutation (heap : MinHeap.t) (i j : nat) : MinHeap.swap heap i j ≡ₚ heap.
Proof.
  unfold MinHeap.swap.
  destruct (heap !! i) as [a |] eqn:Hi; [| reflexivity].
  destruct (heap !! j) as [b |] eqn:Hj; [| reflexivity].
  pose proof (lookup_lt_Some _ _ _ Hi) as Hli.
  pose proof (lookup_lt_Some _ _ _ Hj) as Hlj.
  apply Permutation_inj. split.
  - now rewrite !length_insert.
  - exists (fun x => if decide (x = i) then j else if decide (x = j) then i else x).
    split.
    + intros x y. repeat case_decide; congruence.
    + intros x. destruct (decide (x = i)) as [-> | Hxi].
      * rewrite list_lookup_insert_eq by (rewrite length_insert; lia). congruence.
      * rewrite list_lookup_insert_ne by congruence.
        destruct (decide (x = j)) as [-> | Hxj].
        -- rewrite list_lookup_insert_eq by lia. congruence.
        -- now rewrite list_lookup_insert_ne by congruence.
Qed.

Lemma bubbleUpLoop_Permutation (rounds : nat) (heap : MinHeap.t) (index : nat) :
  MinHeap.bubbleUpLoop rounds heap index ≡ₚ heap.
Proof.
  revert heap index. induction rounds as [| rounds IH]; intros heap index; simpl.
  - reflexivity.
  - repeat case_match; try reflexivity.
    rewrite IH. apply swap_Permutation.
Qed.

Lemma bubbleDownLoop_Permutation (rounds : nat) (heap : MinHeap.t) (index : nat) :
  MinHeap.bubbleDownLoop rounds heap index ≡ₚ heap.
Proof.
  revert heap index. induction rounds as [| rounds IH]; intros heap index; simpl.
  - reflexivity.
  - case_match; [reflexivity |].
    rewrite IH. apply swap_Permutation.
Qed.

Lemma push_Permutation (heap : MinHeap.t) (item : MinHeap.Item) :
  MinHeap.push heap item ≡ₚ item :: heap.
Proof.
  unfold MinHeap.push, MinHeap.bubbleUp. rewrite bubbleUpLoop_Permutation.
  symmetry. apply Permutation_cons_append.
Qed.

Lemma pop_Permutation (heap rest : MinHeap.t) (top : MinHeap.Item) :
  MinHeap.pop heap = (Some top, rest) -> heap ≡ₚ top :: rest.
Proof.
  unfold MinHeap.pop. destruct heap as [| a [| b heap]].
  - discriminate.
  - intros [= <- <-]. reflexivity.
  - destruct (removelast (a :: b :: heap)) as [| x shorter] eqn:Hshort.
    { simpl in Hshort. destruct heap; discriminate. }
    intros [= <- <-]. unfold MinHeap.bubbleDown. rewrite bubbleDownLoop_Permutation.
    assert (Hx : shorter = removelast (b :: heap)).
    { change (removelast (a :: b :: heap)) with (a :: removelast (b :: heap)) in Hshort.
      congruence. }
    subst shorter.
    rewrite (app_removelast_last a (l := b :: heap)) at 1 by discriminate.
    constructor. symmetry. apply Permutation_cons_append.
Qed.

Section AStarFacts.
Context `{Platform}.
Import AStar.

(** A neighbour that is already closed is passed over: no local of the
    search changes. *)
Lemma relax_closed (g : Graph) (endNode : Node) (options : Options)
    (currentId : string) (st : SearchState) (edge : Edge) :
  target edge ∈ closedSet st ->
  relax g endNode options currentId st edge = Ret st.
Proof.
  intros Hclosed. unfold relax.
  destruct (accessibleOnly options && negb (accessible edge)); [reflexivity |].
  destruct (avoidStairs options && String.eqb (etype edge) "stairs"); [reflexivity |].
  now rewrite bool_decide_eq_true_2.
Qed.

(** A neighbour that is still open and is reached with a smaller [g] gets
    the new score and predecessor and one more entry in the heap. *)
Lemma relax_open (g : Graph) (endNode : Node) (options : Options)
    (currentId : string) (st : SearchState) (edge : Edge)
    (neighborNode : Node) (gCurrent distance gOld : Q) :
  accessibleOnly options && negb (accessible edge) = false ->
  avoidStairs options && String.eqb (etype edge) "stairs" = false ->
  target edge ∉ closedSet st ->
  getNode g (target edge) = Some neighborNode ->
  findPath_isNodeAllowed options neighborNode = true ->
  edgeDistance g currentId neighborNode edge = Ret distance ->
  gScore st !! currentId = Some gCurrent ->
  gScore st !! target edge = Some gOld ->
  (gCurrent + distance < gOld)%Q ->
  exists st',
    relax g endNode options currentId st edge = Ret st'
    /\ gScore st' !! target edge = Some (gCurrent + distance)%Q
    /\ cameFrom st' !! target edge = Some currentId
    /\ closedSet st' = closedSet st
    /\ openSet st' ≡ₚ
         MinHeap.mkItem (target edge)
           (gCurrent + distance + heuristic neighborNode endNode * weightOrDefault options)%Q
         :: openSet st.
Proof.
  intros Hacc Hstairs Hopen Hnode Hallowed Hdist Hcur Hold Hless.
  unfold relax. rewrite Hacc, Hstairs, bool_decide_eq_false_2 by exact Hopen.
  rewrite Hnode, Hallowed. simpl negb. cbv iota. rewrite Hdist. simpl.
  rewrite Hcur, Hold.
  assert (Himp : improves (gCurrent + distance) (Some gOld) = true).
  { unfold improves. destruct (Qeq_bool gOld 0); [reflexivity |]. now apply num_lt_true. }
  rewrite Himp. eexists. split; [reflexivity |]. simpl.
  rewrite !lookup_insert_eq. repeat split. apply push_Permutation.
Qed.

(** An entry popped for a node that is already closed is dropped: this is
    how the older of two entries of one node leaves the heap. *)
Lemma searchStep_drops_closed (g : Graph) (endNodeId : string) (endNode : Node)
    (options : Options) (st : SearchState) (current : MinHeap.Item) (rest : MinHeap.t) :
  MinHeap.pop (openSet st) = (Some current, rest) ->
  MinHeap.nodeId current <> endNodeId ->
  MinHeap.nodeId current ∈ closedSet st ->
  searchStep g endNodeId endNode options st
  = Ret (Continue (mkState rest (closedSet st) (gScore st) (fScore st) (cameFrom st))).
Proof.
  intros Hpop Hgoal Hclosed. unfold searchStep. rewrite Hpop.
  apply String.eqb_neq in Hgoal. rewrite Hgoal. simpl.
  now rewrite bool_decide_eq_true_2.
Qed.

(** C3 (as the code has it). While [findPath] expands a node, a neighbour
    in the closed set is skipped, whatever its tentative [g]; a neighbour
    not yet closed that is reached with a smaller [g] has its [g] and
    predecessor updated and is pushed onto the open heap again; the entry it
    already had there is discarded when it is popped after the node has been
    closed. *)
Theorem findPath_reopens_only_open_nodes (g : Graph) (endNodeId : string)
    (endNode : Node) (options : Options) (currentId : string) (st : SearchState)
    (edge : Edge) :
  (target edge ∈ closedSet st ->
   relax g endNode options currentId st edge = Ret st)
  /\ (forall (neighborNode : Node) (gCurrent distance gOld : Q),
        accessibleOnly options && negb (accessible edge) = false ->
        avoidStairs options && String.eqb (etype edge) "stairs" = false ->
        target edge ∉ closedSet st ->
        getNode g (target edge) = Some neighborNode ->
        findPath_isNodeAllowed options neighborNode = true ->
        edgeDistance g currentId neighborNode edge = Ret distance ->
        gScore st !! currentId = Some gCurrent ->
        gScore st !! target edge = Some gOld ->
        (gCurrent + distance < gOld)%Q ->
        exists st',
          relax g endNode options currentId st edge = Ret st'
          /\ gScore st' !! target edge = Some (gCurrent + distance)%Q
          /\ cameFrom st' !! target edge = Some currentId
          /\ closedSet st' = closedSet st
          /\ openSet st' ≡ₚ
               MinHeap.mkItem (target edge)
                 (gCurrent + distance
                  + heuristic neighborNode endNode * weightOrDefault options)%Q
               :: openSet st)
  /\ (forall (current : MinHeap.Item) (rest : MinHeap.t),
        MinHeap.pop (openSet st) = (Some current, rest) ->
        MinHeap.nodeId current <> endNodeId ->
        MinHeap.nodeId current ∈ closedSet st ->
        searchStep g endNodeId endNode options st
        = Ret (Continue (mkState rest (closedSet st) (gScore st) (fScore st) (cameFrom st)))).
Proof.
  split; [apply relax_closed |]. split.
  - intros. eapply relax_open; eassumption.
  - intros current rest Hpop Hgoal Hclosed.
    exact (searchStep_drops_closed _ _ _ _ _ _ _ Hpop Hgoal Hclosed).
Qed.

End AStarFacts.

(** Decides a closed proposition by evaluation. *)
Ltac by_decision :=
  match goal with
  | |- ?P => apply (@bool_decide_unpack P _); vm_compute; exact I
  end.

Section AStarOnThePlan.
#[local] Existing Instance Plan.platform.
Import AStar.

Lemma findPath_reopens_only_open_nodes_witness :
  (Plan.expandingB = Some Plan.duringFourthRound
   /\ relax Plan.lineGraph Plan.goal Plan.weighted "B" Plan.duringFourthRound (Plan.hop "A")
      = Ret Plan.duringFourthRound)
  /\ (Plan.lineSearchAfter 2 = Ret Plan.afterTwoRounds
      /\ cameFrom Plan.afterTwoRounds !! "A" = Some "C"
      /\ exists st',
           relax Plan.lineGraph Plan.goal Plan.weighted "B" Plan.afterTwoRounds (Plan.hop "A")
           = Ret st'
           /\ cameFrom st' !! "A" = Some "B"
           /\ length (openSet st') = S (length (openSet Plan.afterTwoRounds)))
  /\ searchStep Plan.lineGraph "G" Plan.goal Plan.weighted Plan.staleEntry
     = Ret (Continue (mkState [] {["A"]} {["A" := 3%Q]} {["A" := 5%Q]} ∅)).
Proof.
  pose proof (findPath_reopens_only_open_nodes (H := Plan.platform)
                Plan.lineGraph "G" Plan.goal Plan.weighted "B") as Hfacts.
  split; [| split].
  - split; [vm_compute; reflexivity |].
    apply (proj1 (Hfacts Plan.duringFourthRound (Plan.hop "A"))). by_decision.
  - split; [vm_compute; reflexivity |]. split; [vm_compute; reflexivity |].
    edestruct (proj1 (proj2 (Hfacts Plan.afterTwoRounds (Plan.hop "A"))))
      as (st' & Hrelax & Hg & Hfrom & Hclosed & Hheap);
      [ reflexivity | reflexivity | by_decision
      | vm_compute; reflexivity | vm_compute; reflexivity | vm_compute; reflexivity
      | vm_compute; reflexivity | vm_compute; reflexivity | vm_compute; reflexivity |].
    exists st'. split; [exact Hrelax |]. split; [exact Hfrom |].
    now rewrite (Permutation_length Hheap).
  - apply (proj2 (proj2 (Hfacts Plan.staleEntry (Plan.hop "A")))
                 (MinHeap.mkItem "A" 5) []).
    + reflexivity.
    + discriminate.
    + by_decision.
Defined.

(** C3, the claim as it is written: in the search from [S] to [G] on the
    line, with the heuristic weighted by two, node [A] is closed at a cost
    of 5.5 units; the expansion of [B] in the fourth round then reaches it
    at 4.5 units through an edge, and [findPath] neither updates its [g]
    nor pushes it again. *)
Lemma findPath_leaves_closed_node_alone :
  exists gA gB distance : Q,
    Plan.expandingB = Some Plan.duringFourthRound
    /\ In (Plan.hop "A") (getEdges Plan.lineGraph "B")
    /\ "A" ∈ closedSet Plan.duringFourthRound
    /\ gScore Plan.duringFourthRound !! "B" = Some gB
    /\ gScore Plan.duringFourthRound !! "A" = Some gA
    /\ edgeDistance Plan.lineGraph "B" (Plan.onLine "A" 1) (Plan.hop "A") = Ret distance
    /\ (gB + distance < gA)%Q
    /\ relax Plan.lineGraph Plan.goal Plan.weighted "B" Plan.duringFourthRound
         (Plan.hop "A") = Ret Plan.duringFourthRound
    /\ Plan.lineSearchAfter 4 = Ret Plan.afterFourRounds
    /\ gScore Plan.afterFourRounds !! "A" = Some gA
    /\ Forall (fun item => MinHeap.nodeId item <> "A") (openSet Plan.afterFourRounds).
Proof.
  do 3 eexists.
  split; [vm_compute; reflexivity |].
  split; [vm_compute; tauto |].
  split; [by_decision |].
  do 7 (split; [vm_compute; reflexivity |]).
  vm_compute. repeat constructor; discriminate.
Qed.

End AStarOnThePlan.

Section RoomRuleFacts.
Context `{Platform}.
Import AStar.


Lemma existsb_inRoomSet (allowedRoomSet : gset string) (ids : list string) :
  existsb (inRoomSet allowedRoomSet) ids = true
  <-> exists r, In r ids /\ r ∈ allowedRoomSet.
Proof.
  rewrite existsb_exists. unfold inRoomSet.
  split; intros (r & Hin & Hr); exists r; split; auto.
  - now apply bool_decide_eq_true in Hr.
  - now apply bool_decide_eq_true.
Qed.

(** The rule of [findPath]: connectors always pass, any other node passes
    exactly when it has no room or one of its rooms is allowed. *)
Lemma findPath_room_rule (options : Options) (allowedRoomSet : gset string) (node : Node) :
  disallowOtherRooms options = true ->
  allowedRoomIds options = Some allowedRoomSet ->
  size allowedRoomSet <> 0%nat ->
  (isConnector node = true -> findPath_isRoomAllowed options node = true)
  /\ (isConnector node = false ->
      (findPath_isRoomAllowed options node = true <-> roomsPermit allowedRoomSet node)).
Proof.
  intros Hdis Hallowed Hsize. unfold findPath_isRoomAllowed, isConnector, roomsPermit.
  rewrite Hdis, Hallowed. simpl negb. cbv iota.
  apply Nat.eqb_neq in Hsize. rewrite Hsize.
  split; intros Hc; rewrite Hc; [reflexivity |].
  destruct (roomIdsOf (metadata node)) as [| r ids] eqn:Hids.
  - split; auto.
  - rewrite existsb_inRoomSet. split; [auto |].
    intros [Hnil | Hex]; [discriminate | exact Hex].
Qed.

(** The rule of [findPathBidirectional]: every node, connector or not,
    passes exactly when it has no room or one of its rooms is allowed. *)
Lemma findPathBidirectional_room_rule (options : Options)
    (allowedRoomSet : gset string) (node : Node) :
  disallowOtherRooms options = true ->
  allowedRoomIds options = Some allowedRoomSet ->
  size allowedRoomSet <> 0%nat ->
  (findPathBidirectional_isRoomAllowed options node = true
   <-> roomsPermit allowedRoomSet node).
Proof.
  intros Hdis Hallowed Hsize. unfold findPathBidirectional_isRoomAllowed, roomsPermit.
  rewrite Hdis, Hallowed. simpl negb. cbv iota.
  apply Nat.eqb_neq in Hsize. rewrite Hsize.
  destruct (roomIdsOf (metadata node)) as [| r ids] eqn:Hids.
  - split; auto.
  - rewrite existsb_inRoomSet. split; [auto |].
    intros [Hnil | Hex]; [discriminate | exact Hex].
Qed.

End RoomRuleFacts.

Section RoomRuleOnThePlan.
#[local] Existing Instance Plan.platform.
Import AStar.

(** C4, at the failing input: only room [R1] may be crossed and door [D2]
    belongs to room [R2].  [findPath] lets the door through and finds the
    passage from [a] to [b]; [findPathBidirectional] rejects the door and
    finds no path. *)
Theorem findPathBidirectional_rejects_door :
  findPath_isRoomAllowed Plan.onlyR1 Plan.doorD2 = true
  /\ findPathBidirectional_isRoomAllowed Plan.onlyR1 Plan.doorD2 = false
  /\ findPath_isNodeAllowed Plan.onlyR1 Plan.doorD2 = true
  /\ findPathBidirectional_isNodeAllowed Plan.onlyR1 Plan.doorD2 = false
  /\ (exists r, findPath Plan.passage "a" "b" Plan.onlyR1 = Ret (Some r)
                /\ PathResult.nodeIds r = ["a"; "door_D2"; "b"])
  /\ findPathBidirectional Plan.passage "a" "b" Plan.onlyR1 = Ret None.
Proof.
  do 4 (split; [vm_compute; reflexivity |]).
  split; [eexists; split; vm_compute; reflexivity |].
  vm_compute. reflexivity.
Qed.

End RoomRuleOnThePlan.

Section PathCacheFacts.
Context `{Platform}.
Context {Route : Type}.
Import PathCache.

Lemma lookupKey_setKey (key : string) (v : Route) (entries : list (string * Route)) :
  lookupKey key (setKey key v entries) = Some v.
Proof.
  induction entries as [| [k v'] entries IH]; simpl.
  - now rewrite String.eqb_refl.
  - destruct (String.eqb k key) eqn:Hk; simpl; now rewrite Hk.
Qed.

Lemma append_assoc (a b c : string) : (a +:+ b) +:+ c = a +:+ b +:+ c.
Proof.
  induction a as [| ch a IH]; [reflexivity | exact (f_equal (String ch) IH)].
Qed.

Lemma list_ascii_of_append (a b : string) :
  String.list_ascii_of_string (a +:+ b)
  = String.list_ascii_of_string a ++ String.list_ascii_of_string b.
Proof.
  induction a as [| ch a IH]; [reflexivity | exact (f_equal (cons ch) IH)].
Qed.

Lemma append_inv_tail (a b s : string) : a +:+ s = b +:+ s -> a = b.
Proof.
  intros Heq. apply (f_equal String.list_ascii_of_string) in Heq.
  rewrite !list_ascii_of_append in Heq. apply app_inv_tail in Heq.
  rewrite <- (String.string_of_list_ascii_of_string a),
    <- (String.string_of_list_ascii_of_string b).
  now rewrite Heq.
Qed.

(** The key, part by part. *)
Lemma generateKey_parts (s d : Coord) (sf df : string) (o : Options) :
  generateKey s d sf df o
  = keyPart StartLng s d sf df o +:+ "," +:+ keyPart StartLat s d sf df o +:+ ","
    +:+ keyPart StartFloor s d sf df o +:+ "|"
    +:+ keyPart EndLng s d sf df o +:+ "," +:+ keyPart EndLat s d sf df o +:+ ","
    +:+ keyPart EndFloor s d sf df o +:+ "|"
    +:+ keyPart AccessibleOnly s d sf df o +:+ ":" +:+ keyPart RoomMode s d sf df o +:+ ":"
    +:+ keyPart DoorCount s d sf df o +:+ ":" +:+ keyPart Area s d sf df o.
Proof.
  unfold generateKey. cbv zeta. rewrite !append_assoc. reflexivity.
Qed.

(** C8 (as the code has it). The key is built from ten parts: the four
    coordinates as the key rounds and prints them, the two floor ids, the
    [accessibleOnly] flag, the room mode of the key and the two room
    thresholds.  Two queries that agree on the ten parts have the same key,
    are answered alike by any cache, and the route stored for one is what
    the cache returns for the other.  And each part is in the key: two
    queries with the same key that agree on nine of the parts agree on the
    tenth. *)
Theorem generateKey_components
    (start1 end1 : Coord) (startFloor1 endFloor1 : string) (options1 : Options)
    (start2 end2 : Coord) (startFloor2 endFloor2 : string) (options2 : Options) :
  ((forall part,
       keyPart part start1 end1 startFloor1 endFloor1 options1
       = keyPart part start2 end2 startFloor2 endFloor2 options2) ->
   generateKey start1 end1 startFloor1 endFloor1 options1
   = generateKey start2 end2 startFloor2 endFloor2 options2
   /\ (forall pc : PathCache.t Route,
          get pc start1 end1 startFloor1 endFloor1 options1
          = get pc start2 end2 startFloor2 endFloor2 options2)
   /\ (forall (pc : PathCache.t Route) (route : Route),
          fst (get (set pc start1 end1 startFloor1 endFloor1 options1 route)
                   start2 end2 startFloor2 endFloor2 options2) = Some route))
  /\ (forall part,
         generateKey start1 end1 startFloor1 endFloor1 options1
         = generateKey start2 end2 startFloor2 endFloor2 options2 ->
         (forall other, other <> part ->
            keyPart other start1 end1 startFloor1 endFloor1 options1
            = keyPart other start2 end2 startFloor2 endFloor2 options2) ->
         keyPart part start1 end1 startFloor1 endFloor1 options1
         = keyPart part start2 end2 startFloor2 endFloor2 options2).
Proof.
  split.
  - intros Hparts.
    assert (Hkey : generateKey start1 end1 startFloor1 endFloor1 options1
                   = generateKey start2 end2 startFloor2 endFloor2 options2).
    { rewrite !generateKey_parts. now rewrite !Hparts. }
    split; [exact Hkey |]. split.
    + intros pc. unfold get. now rewrite Hkey.
    + intros pc route. unfold get, set. rewrite <- Hkey. cbn [cache maxSize].
      now rewrite lookupKey_setKey.
  - intros part Hkey Hothers. rewrite !generateKey_parts in Hkey.
    destruct part;
      try rewrite <- (Hothers StartLng) in Hkey by discriminate;
      try rewrite <- (Hothers StartLat) in Hkey by discriminate;
      try rewrite <- (Hothers StartFloor) in Hkey by discriminate;
      try rewrite <- (Hothers EndLng) in Hkey by discriminate;
      try rewrite <- (Hothers EndLat) in Hkey by discriminate;
      try rewrite <- (Hothers EndFloor) in Hkey by discriminate;
      try rewrite <- (Hothers AccessibleOnly) in Hkey by discriminate;
      try rewrite <- (Hothers RoomMode) in Hkey by discriminate;
      try rewrite <- (Hothers DoorCount) in Hkey by discriminate;
      try rewrite <- (Hothers Area) in Hkey by discriminate;
      repeat (apply (inj (String.append _)) in Hkey);
      first [exact Hkey | exact (append_inv_tail _ _ _ Hkey)].
Qed.

End PathCacheFacts.

Section PathCacheOnThePlan.
#[local] Existing Instance Plan.platform.
Import PathCache.

Lemma generateKey_components_witness :
  let route :=
    PathfindingEngine.sameRoomRoute Plan.inRoomA Plan.inRoomB "F0" "F0"
                                    Plan.roomR1 Plan.roomR1 in
  generateKey Plan.inRoomA Plan.inCorridor "F0" "F0" noOptions
  = generateKey Plan.leftOfPillar Plan.rightOfPillar "F0" "F0" noOptions
  /\ fst (get (set (PathfindingEngine.pathCache Plan.open_)
                   Plan.inRoomA Plan.inCorridor "F0" "F0" noOptions route)
              Plan.leftOfPillar Plan.rightOfPillar "F0" "F0" noOptions) = Some route.
Proof.
  intros route.
  destruct (generateKey_components (Route := Route.t)
              Plan.inRoomA Plan.inCorridor "F0" "F0" noOptions
              Plan.leftOfPillar Plan.rightOfPillar "F0" "F0" noOptions)
    as [Hsame _].
  destruct Hsame as (Hkey & _ & Hhit);
    [intros part; destruct part; vm_compute; reflexivity |].
  split; [exact Hkey | apply Hhit].
Defined.

(** C8, the claim as it is written: two queries with the same endpoints
    that agree on [accessibleOnly], on [roomTraversalMode] (absent in
    both, so that [findRoute] routes both in mode [public]) and on the two
    room thresholds, but differ in [disallowOtherRooms], have different
    keys; the second is computed anew although the first one's route is in
    the cache. *)
Lemma same_listed_options_other_entry :
  let first := Plan.query Plan.open_ Plan.inRoomA Plan.inCorridor noOptions in
  let second :=
    Plan.query (snd first) Plan.inRoomA Plan.inCorridor Plan.othersDisallowed in
  accessibleOnly noOptions = accessibleOnly Plan.othersDisallowed
  /\ roomTraversalMode noOptions = roomTraversalMode Plan.othersDisallowed
  /\ publicRoomDoorCount noOptions = publicRoomDoorCount Plan.othersDisallowed
  /\ publicRoomArea noOptions = publicRoomArea Plan.othersDisallowed
  /\ generateKey Plan.inRoomA Plan.inCorridor "F0" "F0" noOptions
     = "0,0,F0|0,0,F0|std:all::"
  /\ generateKey Plan.inRoomA Plan.inCorridor "F0" "F0" Plan.othersDisallowed
     = "0,0,F0|0,0,F0|std:strict::"
  /\ (exists r1, fst first = Ret (Some r1)
                 /\ RouteMeta.roomTraversalMode (Route.meta r1) = Some "public")
  /\ (exists r2, fst second = Ret (Some r2)
                 /\ RouteMeta.roomTraversalMode (Route.meta r2) = Some "public")
  /\ map fst (cache (PathfindingEngine.pathCache (snd first)))
     = ["0,0,F0|0,0,F0|std:all::"]
  /\ fst (get (PathfindingEngine.pathCache (snd first)) Plan.inRoomA Plan.inCorridor
              "F0" "F0" Plan.othersDisallowed) = None
  /\ map fst (cache (PathfindingEngine.pathCache (snd second)))
     = ["0,0,F0|0,0,F0|std:all::"; "0,0,F0|0,0,F0|std:strict::"].
Proof.
  intros first second.
  do 6 (split; [vm_compute; reflexivity |]).
  split; [eexists; split; vm_compute; reflexivity |].
  split; [eexists; split; vm_compute; reflexivity |].
  split; [vm_compute; reflexivity |].
  split; vm_compute; reflexivity.
Qed.

(** The granularity of [roundCoord] is 0.0001 degree, about 11 m: two
    latitudes 4.4 m apart fall into one cell, two latitudes 0.1 m apart on
    either side of a cell border do not. *)
Example roundCoord_cells :
  roundCoord 0 = roundCoord (4 # 100000)
  /\ roundCoord (495 # 10000000) <> roundCoord (505 # 10000000).
Proof. split; vm_compute; congruence. Qed.

End PathCacheOnThePlan.

Section SearchResultFacts.
Context `{Platform}.
Import AStar.

Lemma walkBack_nonempty (rounds : nat) (cameFrom : gmap string string)
    (current : string) (path result : list string) :
  path <> [] -> walkBack rounds cameFrom current path = Ret result -> result <> [].
Proof.
  revert current path. induction rounds as [| rounds IH]; intros current path Hne; simpl.
  - destruct (cameFrom !! current); [discriminate | congruence].
  - destruct (cameFrom !! current) as [previous |]; [| congruence].
    apply IH. discriminate.
Qed.

Lemma reconstructPath_wellFormed (g : Graph) (cameFrom : gmap string string)
    (currentId : string) (gScore : gmap string Q) (pr : PathResult.t) :
  reconstructPath g cameFrom currentId gScore = Ret pr -> wellFormed g pr.
Proof.
  unfold reconstructPath.
  destruct (walkBack _ _ _ _) as [path | |] eqn:Hwalk; simpl; try discriminate.
  destruct (nodesOf g path) as [ns | |] eqn:Hns; simpl; try discriminate.
  intros [= <-]. split; simpl.
  - exists ns. auto.
  - eapply walkBack_nonempty; [| exact Hwalk]. discriminate.
Qed.

Lemma searchStep_wellFormed (g : Graph) (endNodeId : string) (endNode : Node)
    (options : Options) (st : SearchState) (pr : PathResult.t) :
  searchStep g endNodeId endNode options st = Ret (Finished (Some pr)) -> wellFormed g pr.
Proof.
  unfold searchStep. destruct (MinHeap.pop (openSet st)) as [[current |] rest];
    [| discriminate].
  destruct (String.eqb _ endNodeId).
  - cbn [closedSet gScore fScore cameFrom].
    destruct (reconstructPath _ _ _ _) as [r | |] eqn:Hr; simpl; try discriminate.
    intros [= <-]. eapply reconstructPath_wellFormed. exact Hr.
  - destruct (bool_decide _); [discriminate |].
    destruct (relaxAll _ _ _ _ _ _); discriminate.
Qed.

Lemma searchLoop_wellFormed (rounds : nat) (g : Graph) (endNodeId : string)
    (endNode : Node) (options : Options) (st : SearchState) (pr : PathResult.t) :
  searchLoop rounds g endNodeId endNode options st = Ret (Some pr) -> wellFormed g pr.
Proof.
  revert st. induction rounds as [| rounds IH]; intros st; simpl;
    destruct (searchStep g endNodeId endNode options st) as [[result | st'] | |] eqn:Hstep;
    simpl; try discriminate.
  - intros [= ->]. eapply searchStep_wellFormed. exact Hstep.
  - intros [= ->]. eapply searchStep_wellFormed. exact Hstep.
  - apply IH.
Qed.

Lemma findPath_wellFormed (g : Graph) (startNodeId endNodeId : string)
    (options : Options) (pr : PathResult.t) :
  findPath g startNodeId endNodeId options = Ret (Some pr) -> wellFormed g pr.
Proof.
  unfold findPath. destruct (getNode g startNodeId); [| discriminate].
  destruct (getNode g endNodeId); [| discriminate].
  apply searchLoop_wellFormed.
Qed.

End SearchResultFacts.

(** ** The search returns *)

Section SearchTermination.
Context `{Platform}.
Import AStar.

Lemma unexpanded_close (adjacency : gmap string (list Edge)) (closed : gset string)
    (i : string) :
  i ∉ closed ->
  (unexpanded adjacency ({[i]} ∪ closed) + length (default [] (adjacency !! i))
   = unexpanded adjacency closed)%nat.
Proof.
  intros Hopen. unfold unexpanded.
  induction adjacency as [| j edges m Hj Hfirst IH] using map_first_key_ind.
  - rewrite !map_fold_empty, lookup_empty. reflexivity.
  - rewrite !map_fold_insert_first_key by assumption.
    destruct (decide (j = i)) as [-> | Hne].
    + rewrite lookup_insert_eq. rewrite Hj in IH. simpl in *.
      rewrite bool_decide_eq_true_2 by (apply elem_of_union_l, elem_of_singleton; reflexivity).
      rewrite bool_decide_eq_false_2 by assumption. lia.
    + rewrite lookup_insert_ne by assumption.
      destruct (bool_decide (j ∈ closed)) eqn:Hc.
      * apply bool_decide_eq_true_1 in Hc.
        rewrite bool_decide_eq_true_2 by (apply elem_of_union_r; exact Hc). exact IH.
      * apply bool_decide_eq_false_1 in Hc.
        rewrite bool_decide_eq_false_2
          by (rewrite elem_of_union, elem_of_singleton; tauto). lia.
Qed.

Lemma searchBudget_unexpanded (g : Graph) :
  searchBudget g = S (unexpanded (adjacency g) ∅).
Proof.
  unfold searchBudget, unexpanded. apply (f_equal S).
  induction (adjacency g) as [| j edges m Hj Hfirst IH] using map_first_key_ind.
  - rewrite !map_fold_empty. reflexivity.
  - rewrite !map_fold_insert_first_key by assumption.
    rewrite bool_decide_eq_false_2 by apply not_elem_of_empty. now rewrite IH.
Qed.

Lemma relax_keeps (g : Graph) (endNodeId : string) (endNode : Node) (options : Options)
    (rank : string -> nat) (currentId : string) (st : SearchState) (edge : Edge) :
  searchInvariant g endNodeId rank st ->
  currentId ∈ closedSet st ->
  is_Some (getNode g currentId) ->
  exists st',
    relax g endNode options currentId st edge = Ret st'
    /\ searchInvariant g endNodeId rank st'
    /\ closedSet st' = closedSet st
    /\ (length (openSet st') <= S (length (openSet st)))%nat.
Proof.
  intros Hinv Hclosed [currentNode Hcurrent].
  assert (Hsame : exists st', Ret st = Ret st'
            /\ searchInvariant g endNodeId rank st'
            /\ closedSet st' = closedSet st
            /\ (length (openSet st') <= S (length (openSet st)))%nat)
    by (exists st; auto).
  unfold relax.
  destruct (accessibleOnly options && negb (accessible edge)); [exact Hsame |].
  destruct (avoidStairs options && String.eqb (etype edge) "stairs"); [exact Hsame |].
  destruct (bool_decide (target edge ∈ closedSet st)) eqn:Hopen; [exact Hsame |].
  apply bool_decide_eq_false_1 in Hopen.
  destruct (getNode g (target edge)) as [neighborNode |] eqn:Hneighbor; [| exact Hsame].
  destruct (negb (findPath_isNodeAllowed options neighborNode)); [exact Hsame |].
  assert (Hdistance : exists distance,
            edgeDistance g currentId neighborNode edge = Ret distance).
  { unfold edgeDistance. destruct (weight edge); [eauto |]. rewrite Hcurrent. eauto. }
  destruct Hdistance as [distance ->]. simpl.
  destruct (gScore st !! currentId) as [gCurrent |]; [| exact Hsame].
  destruct (improves _ _); [| exact Hsame].
  eexists. split; [reflexivity |]. destruct Hinv as [Hknown Hpred Hranked Hgoal].
  split; [split |]; simpl.
  - intros item Hin. rewrite push_Permutation in Hin.
    apply elem_of_cons in Hin as [-> | Hin]; [simpl; rewrite Hneighbor; eauto | auto].
  - intros n c. destruct (decide (n = target edge)) as [-> | Hne].
    + rewrite lookup_insert_eq. intros [= <-]. repeat split; eauto. contradiction.
    + rewrite lookup_insert_ne by congruence. apply Hpred.
  - exact Hranked.
  - exact Hgoal.
  - split; [reflexivity |]. now rewrite push_Permutation.
Qed.

Lemma relaxAll_keeps (g : Graph) (endNodeId : string) (endNode : Node) (options : Options)
    (rank : string -> nat) (currentId : string) (edges : list Edge) (st : SearchState) :
  searchInvariant g endNodeId rank st ->
  currentId ∈ closedSet st ->
  is_Some (getNode g currentId) ->
  exists st',
    relaxAll g endNode options currentId st edges = Ret st'
    /\ searchInvariant g endNodeId rank st'
    /\ closedSet st' = closedSet st
    /\ (length (openSet st') <= length edges + length (openSet st))%nat.
Proof.
  revert st. induction edges as [| edge rest IH]; intros st Hinv Hclosed Hknown; simpl.
  - exists st. auto.
  - destruct (relax_keeps g endNodeId endNode options rank currentId st edge)
      as (st1 & -> & Hinv1 & Hclosed1 & Hlen1); try assumption. simpl.
    destruct (IH st1) as (st2 & -> & Hinv2 & Hclosed2 & Hlen2);
      [assumption | now rewrite Hclosed1 | assumption |].
    exists st2. split; [reflexivity |]. split; [assumption |].
    split; [congruence | lia].
Qed.

(** The walk back along the predecessors ends within the rounds allowed
    for it when every predecessor is of lower rank. *)
Lemma walkBack_returns (cameFrom : gmap string string) (rank : string -> nat) :
  (forall n c, cameFrom !! n = Some c -> (rank c < rank n)%nat) ->
  forall (rounds : nat) (current : string) (path : list string),
    (size (filter (fun n => (rank n <= rank current)%nat) (dom cameFrom)) <= rounds)%nat ->
    exists result,
      walkBack rounds cameFrom current path = Ret result
      /\ forall i, i ∈ result -> i ∈ path \/ exists n, cameFrom !! n = Some i.
Proof.
  intros Hrank rounds. induction rounds as [| rounds IH]; intros current path Hsize; simpl;
    destruct (cameFrom !! current) as [previous |] eqn:Hprevious;
    try (exists path; split; [reflexivity | auto]).
  - exfalso.
    assert (Hin : current ∈ filter (fun n => (rank n <= rank current)%nat) (dom cameFrom)).
    { apply elem_of_filter. split; [lia | apply elem_of_dom; eauto]. }
    assert (Hempty : size (filter (fun n => (rank n <= rank current)%nat) (dom cameFrom))
                     = 0%nat) by lia.
    apply size_empty_iff in Hempty. rewrite Hempty in Hin.
    revert Hin. apply not_elem_of_empty.
  - destruct (IH previous (previous :: path)) as (result & Hwalk & Hfrom).
    + pose proof (Hrank _ _ Hprevious) as Hlower.
      assert (Hless : filter (fun n => (rank n <= rank previous)%nat) (dom cameFrom)
                      ⊂ filter (fun n => (rank n <= rank current)%nat) (dom cameFrom)).
      { split.
        - intros n Hn. apply elem_of_filter in Hn as [Hn Hdom].
          apply elem_of_filter. split; [lia | exact Hdom].
        - intros Hsub.
          assert (Hin : current ∈ filter (fun n => (rank n <= rank previous)%nat)
                                         (dom cameFrom)).
          { apply Hsub, elem_of_filter. split; [lia | apply elem_of_dom; eauto]. }
          apply elem_of_filter in Hin as [Hin _]. lia. }
      apply subset_size in Hless. lia.
    + exists result. split; [exact Hwalk |]. intros i Hi.
      destruct (Hfrom i Hi) as [Hpath | Hvalue]; [| auto].
      apply elem_of_cons in Hpath as [-> | Hpath]; eauto.
Qed.

Lemma nodesOf_returns (g : Graph) (path : list string) :
  (forall i, i ∈ path -> is_Some (getNode g i)) ->
  exists ns, nodesOf g path = Ret ns.
Proof.
  induction path as [| i rest IH]; intros Hknown; simpl; [eauto |].
  destruct (Hknown i) as [n ->]; [apply list_elem_of_here |].
  destruct IH as [ns ->]; [intros j Hj; apply Hknown, list_elem_of_further, Hj |].
  simpl. eauto.
Qed.

Lemma reconstructPath_returns (g : Graph) (endNodeId : string) (rank : string -> nat)
    (st : SearchState) :
  searchInvariant g endNodeId rank st ->
  is_Some (getNode g endNodeId) ->
  exists r, reconstructPath g (cameFrom st) endNodeId (gScore st) = Ret r.
Proof.
  intros [Hknown Hpred Hranked Hgoal] Hend. unfold reconstructPath.
  set (closingRank := fun n => if bool_decide (n ∈ closedSet st)
                               then rank n else size (closedSet st)).
  destruct (walkBack_returns (cameFrom st) closingRank) with
    (rounds := size (cameFrom st)) (current := endNodeId) (path := [endNodeId])
    as (path & -> & Hfrom).
  - intros n c Hnc. destruct (Hpred n c Hnc) as (Hc & _ & Hlower).
    unfold closingRank. rewrite (bool_decide_eq_true_2 _ Hc).
    destruct (bool_decide (n ∈ closedSet st)) eqn:Hn.
    + apply bool_decide_eq_true_1 in Hn. auto.
    + auto.
  - rewrite <- size_dom. apply subseteq_size. intros n Hn.
    apply elem_of_filter in Hn. tauto.
  - simpl. destruct (nodesOf_returns g path) as [ns ->]; [| simpl; eauto].
    intros i Hi. destruct (Hfrom i Hi) as [Hpath | [n Hn]].
    + apply list_elem_of_singleton in Hpath as ->. exact Hend.
    + destruct (Hpred n i Hn) as (_ & Hnode & _). exact Hnode.
Qed.

(** One round either ends the search or leaves locals of lower potential
    that keep the invariant. *)
Lemma searchStep_progress (g : Graph) (endNodeId : string) (endNode : Node)
    (options : Options) (rank : string -> nat) (st : SearchState) :
  searchInvariant g endNodeId rank st ->
  is_Some (getNode g endNodeId) ->
  (exists result, searchStep g endNodeId endNode options st = Ret (Finished result))
  \/ exists st' rank',
       searchStep g endNodeId endNode options st = Ret (Continue st')
       /\ searchInvariant g endNodeId rank' st'
       /\ (potential g st' < potential g st)%nat.
Proof.
  intros Hinv Hend. unfold searchStep.
  destruct (MinHeap.pop (openSet st)) as [[current |] rest] eqn:Hpop; [| eauto].
  apply pop_Permutation in Hpop.
  destruct (String.eqb_spec (MinHeap.nodeId current) endNodeId) as [-> | Hother].
  { left. cbn [cameFrom gScore].
    destruct (reconstructPath_returns g endNodeId rank st Hinv Hend) as [r ->].
    simpl. eauto. }
  right. destruct Hinv as [Hknown Hpred Hranked Hgoal].
  cbn [closedSet gScore fScore cameFrom].
  assert (Hcurrent : is_Some (getNode g (MinHeap.nodeId current))).
  { apply Hknown. rewrite Hpop. apply list_elem_of_here. }
  assert (Hrest : forall item, item ∈ rest ->
                    is_Some (getNode g (MinHeap.nodeId item))).
  { intros item Hin. apply Hknown. rewrite Hpop. apply list_elem_of_further, Hin. }
  destruct (bool_decide (MinHeap.nodeId current ∈ closedSet st)) eqn:Hclosed.
  - eexists _, rank. split; [reflexivity |]. split; [split; assumption |].
    unfold potential. simpl. rewrite Hpop. simpl. lia.
  - apply bool_decide_eq_false_1 in Hclosed.
    set (currentId := MinHeap.nodeId current) in *.
    set (rank' := fun n => if String.eqb n currentId then size (closedSet st) else rank n).
    set (st2 := mkState rest ({[currentId]} ∪ closedSet st) (gScore st) (fScore st)
                        (cameFrom st)).
    assert (Hsize : size ({[currentId]} ∪ closedSet st) = S (size (closedSet st))).
    { rewrite size_union by (apply disjoint_singleton_l; exact Hclosed).
      now rewrite size_singleton. }
    assert (Hold : forall c, c ∈ closedSet st -> rank' c = rank c).
    { intros c Hc. unfold rank'. destruct (String.eqb_spec c currentId); congruence. }
    assert (Hinv2 : searchInvariant g endNodeId rank' st2).
    { split; simpl.
      - exact Hrest.
      - intros n c Hnc. destruct (Hpred n c Hnc) as (Hc & Hnode & Hlower).
        split; [apply elem_of_union_r, Hc |]. split; [exact Hnode |].
        rewrite (Hold c Hc). intros Hn. apply elem_of_union in Hn as [Hn | Hn].
        + apply elem_of_singleton in Hn as ->. unfold rank'.
          rewrite String.eqb_refl. apply Hranked, Hc.
        + rewrite (Hold n Hn). auto.
      - intros c Hc. rewrite Hsize. apply elem_of_union in Hc as [Hc | Hc].
        + apply elem_of_singleton in Hc as ->. unfold rank'.
          rewrite String.eqb_refl. lia.
        + rewrite (Hold c Hc). specialize (Hranked c Hc). lia.
      - rewrite elem_of_union, elem_of_singleton. intros [Heq | Hin]; [| auto].
        apply Hother. congruence. }
    destruct (relaxAll_keeps g endNodeId endNode options rank' currentId
                             (getEdges g currentId) st2 Hinv2)
      as (st3 & Hrelax & Hinv3 & Hclosed3 & Hlen3);
      [apply elem_of_union_l, elem_of_singleton; reflexivity | exact Hcurrent |].
    exists st3, rank'. subst st2. rewrite Hrelax. simpl.
    split; [reflexivity |]. split; [exact Hinv3 |].
    unfold potential. rewrite Hclosed3, Hpop. simpl in *.
    pose proof (unexpanded_close (adjacency g) (closedSet st) currentId Hclosed) as Hsum.
    unfold getEdges in Hlen3. lia.
Qed.

(** Every entry of the heap costs one round and every edge adds at most
    one entry: the rounds allowed suffice. *)
Lemma searchLoop_returns (g : Graph) (endNodeId : string) (endNode : Node)
    (options : Options) (rounds : nat) :
  is_Some (getNode g endNodeId) ->
  forall (rank : string -> nat) (st : SearchState),
    searchInvariant g endNodeId rank st ->
    (potential g st <= rounds)%nat ->
    exists result, searchLoop rounds g endNodeId endNode options st = Ret result.
Proof.
  intros Hend. induction rounds as [| rounds IH]; intros rank st Hinv Hpot; simpl;
    destruct (searchStep_progress g endNodeId endNode options rank st Hinv Hend)
      as [[result ->] | (st' & rank' & -> & Hinv' & Hless)]; simpl; eauto.
  - lia.
  - apply (IH rank' st' Hinv'). lia.
Qed.

(** [findPath] returns on every graph and every pair of node ids: the
    while loop ends and nothing in it throws. *)
Lemma findPath_returns (g : Graph) (startNodeId endNodeId : string) (options : Options) :
  exists result, findPath g startNodeId endNodeId options = Ret result.
Proof.
  unfold findPath.
  destruct (getNode g startNodeId) as [startNode |] eqn:Hstart; [| eauto].
  destruct (getNode g endNodeId) as [endNode |] eqn:Hend; [| eauto].
  apply searchLoop_returns with (rank := fun _ => 0%nat); [eauto | |].
  - split; unfold initialState; cbn [openSet closedSet cameFrom].
    + intros item Hin. rewrite push_Permutation in Hin.
      apply list_elem_of_singleton in Hin as ->. simpl. eauto.
    + intros n c. rewrite lookup_empty. discriminate.
    + intros c Hc. apply not_elem_of_empty in Hc. contradiction.
    + apply not_elem_of_empty.
  - rewrite searchBudget_unexpanded. unfold potential, initialState.
    cbn [openSet closedSet]. rewrite push_Permutation. simpl. lia.
Qed.

End SearchTermination.

Section FindRouteFacts.
Context `{Platform}.
Import PathfindingEngine.

Lemma findRoute_computed (e : PathfindingEngine.t) (s d : Coord) (sf df : string)
    (o : Options) :
  initialized e = true -> computed e s d sf df o ->
  findRoute e s d sf df o = freshRoute e s d sf df o.
Proof.
  unfold findRoute, computed, PathCache.get. intros -> [Hoff | Hmiss]; simpl.
  - now rewrite Hoff.
  - destruct (useCache o); [now rewrite Hmiss | reflexivity].
Qed.

(** An answer from the cache leaves the error slot as it was. *)
Lemma findRoute_cached (e : PathfindingEngine.t) (s d : Coord) (sf df : string)
    (o : Options) (cached : Route.t) :
  initialized e = true -> useCache o = true ->
  PathCache.lookupKey (PathCache.generateKey s d sf df o)
                      (PathCache.cache (pathCache e)) = Some cached ->
  exists e', findRoute e s d sf df o = (Ret (Some cached), e')
             /\ getLastRouteError e' = getLastRouteError e.
Proof.
  unfold findRoute, PathCache.get. intros -> -> ->. simpl. eauto.
Qed.

(** C2 (as the code has it). A query that is computed, not answered from
    the cache, whose endpoints the engine finds in one room with
    [isPathClear] true between them, returns the route of exactly the two
    endpoints: no node ids, and the geodesic distance between them. *)
Theorem findRoute_same_room_clear (e : PathfindingEngine.t) (s d : Coord)
    (sf df : string) (o : Options) (startRoom endRoom : Room) :
  initialized e = true ->
  computed e s d sf df o ->
  detectRoom e o s sf = Some startRoom ->
  detectRoom e o d df = Some endRoom ->
  geometryId startRoom = geometryId endRoom ->
  CollisionDetector.isPathClear (collisionDetector e) s d sf = true ->
  exists r,
    findRoute e s d sf df o = (Ret (Some r), withError e None)
    /\ Route.path r = [s; d]
    /\ Route.nodeIds r = []
    /\ Route.distance r = turf_distance s d.
Proof.
  intros Hinit Hfresh Hs Hd Hsame Hclear.
  rewrite findRoute_computed by assumption.
  unfold freshRoute. rewrite Hs, Hd. unfold isSameRoom. rewrite Hsame, String.eqb_refl.
  cbn [collisionDetector withError]. rewrite Hclear.
  eexists. split; [reflexivity |]. simpl. auto.
Qed.

(** C10 (as the code has it). A query that is computed, not answered from
    the cache, whose endpoints the engine finds in one room with
    [isPathClear] false between them, returns null and records [no-path];
    the graph, the door index, the room metadata and the walkable nodes
    play no part in the outcome. *)
Theorem findRoute_same_room_blocked (e : PathfindingEngine.t) (s d : Coord)
    (sf df : string) (o : Options) (startRoom endRoom : Room) :
  initialized e = true ->
  computed e s d sf df o ->
  detectRoom e o s sf = Some startRoom ->
  detectRoom e o d df = Some endRoom ->
  geometryId startRoom = geometryId endRoom ->
  CollisionDetector.isPathClear (collisionDetector e) s d sf = false ->
  findRoute e s d sf df o
  = (Ret None, setRouteError (withError e None) "no-path" "No clear path inside this room.")
  /\ forall (g : Graph) (doors : gmap string (list Node))
            (meta : gmap string RoomMetaEntry) (walkables : gmap string (list Node)),
       let e' := mk g (collisionDetector e) (initialized e) (roomIndex e) doors meta
                    walkables (lastRouteError e) (pathCache e) in
       fst (findRoute e' s d sf df o) = Ret None
       /\ getLastRouteError (snd (findRoute e' s d sf df o))
          = Some (mkRouteError "no-path" "No clear path inside this room.").
Proof.
  intros Hinit Hfresh Hs Hd Hsame Hclear.
  assert (Hgen : forall e0 : PathfindingEngine.t,
             initialized e0 = true -> computed e0 s d sf df o ->
             detectRoom e0 o s sf = Some startRoom -> detectRoom e0 o d df = Some endRoom ->
             CollisionDetector.isPathClear (collisionDetector e0) s d sf = false ->
             findRoute e0 s d sf df o
             = (Ret None,
                setRouteError (withError e0 None) "no-path" "No clear path inside this room.")).
  { intros e0 Hinit0 Hfresh0 Hs0 Hd0 Hclear0.
    rewrite findRoute_computed by assumption.
    unfold freshRoute. rewrite Hs0, Hd0. unfold isSameRoom. rewrite Hsame, String.eqb_refl.
    cbn [collisionDetector withError]. now rewrite Hclear0. }
  split; [now apply Hgen |].
  intros g doors meta walkables e'.
  rewrite (Hgen e'); [split; reflexivity | exact Hinit | exact Hfresh | exact Hs | exact Hd
                     | exact Hclear].
Qed.

(** With locked doors not allowed, a room whose doors are all locked has no
    door to offer. *)
Lemma no_available_door (e : PathfindingEngine.t) (room : Room) (doors : list Node) :
  roomDoorIndex e !! geometryId room = Some doors ->
  Forall (fun door => isLocked (metadata door) = true) doors ->
  available (getRoomDoorCandidates e room false) = [].
Proof.
  intros Hdoors Hlocked. unfold getRoomDoorCandidates. rewrite Hdoors. simpl.
  clear Hdoors. induction Hlocked as [| door rest Hdoor _ IH]; simpl; [reflexivity |].
  rewrite Hdoor. simpl. exact IH.
Qed.

Lemma anchoredRoute_no_door_at_start (e : PathfindingEngine.t) (s d : Coord)
    (sf df : string) (o : Options) (room : Room) (endRoom : option Room) :
  isPublicRoom o (roomMeta e !! geometryId room) = false ->
  available (getRoomDoorCandidates e room (allowLockedDoors o)) = [] ->
  exists message,
    anchoredRoute e s d sf df o (Some room) endRoom
    = (Ret None, setRouteError e "no-door" message).
Proof.
  intros Hprivate Hnone. unfold anchoredRoute, doorAnchors. rewrite Hprivate.
  destruct (getRoomDoorCandidates e room (allowLockedDoors o)) as [avail lockedDoors n].
  simpl in Hnone. subst avail. eauto.
Qed.

Lemma anchoredRoute_no_door_at_end (e : PathfindingEngine.t) (s d : Coord)
    (sf df : string) (o : Options) (startRoom : option Room) (room : Room) :
  isPublicRoom o (roomMeta e !! geometryId room) = false ->
  available (getRoomDoorCandidates e room (allowLockedDoors o)) = [] ->
  exists message,
    anchoredRoute e s d sf df o startRoom (Some room)
    = (Ret None, setRouteError e "no-door" message).
Proof.
  intros Hprivate Hnone. unfold anchoredRoute.
  destruct (doorAnchors e o startRoom) as [[[| door rest] l m] |]; [eauto | |];
    unfold doorAnchors; rewrite Hprivate;
    destruct (getRoomDoorCandidates e room (allowLockedDoors o)) as [avail lockedDoors n];
    simpl in Hnone; subst avail; eauto.
Qed.

(** C6 (as the code has it). A query that is computed, not answered from
    the cache, and that leaves the detection of rooms on, returns null and
    records [no-door] when locked doors are not allowed, [findRoomAtPoint]
    does not place its endpoints in one and the same room, and places one
    of them in a private room that has doors, all of them locked. *)
Theorem findRoute_no_door (e : PathfindingEngine.t) (s d : Coord) (sf df : string)
    (o : Options) (room : Room) (doors : list Node) :
  initialized e = true ->
  computed e s d sf df o ->
  snapToDoors o = true ->
  isSameRoom (findRoomAtPoint e s sf) (findRoomAtPoint e d df) = false ->
  findRoomAtPoint e s sf = Some room \/ findRoomAtPoint e d df = Some room ->
  isPublicRoom o (roomMeta e !! geometryId room) = false ->
  roomDoorIndex e !! geometryId room = Some doors ->
  doors <> [] ->
  Forall (fun door => isLocked (metadata door) = true) doors ->
  allowLockedDoors o = false ->
  exists message,
    findRoute e s d sf df o
    = (Ret None, setRouteError (withError e None) "no-door" message)
    /\ getLastRouteError (snd (findRoute e s d sf df o))
       = Some (mkRouteError "no-door" message).
Proof.
  intros Hinit Hfresh Hsnap Hdiff Hroom Hprivate Hdoors _ Hlocked Hallow.
  assert (Hdetect : forall p floor, detectRoom e o p floor = findRoomAtPoint e p floor).
  { intros p floor. unfold detectRoom. now rewrite Hsnap. }
  rewrite <- !Hdetect in Hdiff, Hroom.
  rewrite findRoute_computed by assumption.
  assert (Hnone : available (getRoomDoorCandidates (withError e None) room
                               (allowLockedDoors o)) = []).
  { rewrite Hallow. eapply no_available_door; [exact Hdoors | exact Hlocked]. }
  assert (Hanchored : exists message,
             anchoredRoute (withError e None) s d sf df o
                           (detectRoom e o s sf) (detectRoom e o d df)
             = (Ret None, setRouteError (withError e None) "no-door" message)).
  { destruct Hroom as [Hs | Hd].
    - rewrite Hs. now apply anchoredRoute_no_door_at_start.
    - rewrite Hd. now apply anchoredRoute_no_door_at_end. }
  destruct Hanchored as [message Hanchored]. exists message.
  assert (Hresult : freshRoute e s d sf df o
                    = (Ret None, setRouteError (withError e None) "no-door" message)).
  { unfold freshRoute. rewrite Hdiff.
    destruct (detectRoom e o s sf), (detectRoom e o d df); exact Hanchored. }
  rewrite Hresult. split; reflexivity.
Qed.

Lemma tryPair_wellFormed (e : PathfindingEngine.t) (s d : Coord) (o : Options)
    (acc result : option Best) (candidates : Node * Node) :
  (forall b, acc = Some b -> wellFormed (graph e) (best b)) ->
  tryPair e s d o acc candidates = Ret result ->
  forall b, result = Some b -> wellFormed (graph e) (best b).
Proof.
  intros Hacc. unfold tryPair. destruct candidates as [sc ec].
  destruct (AStar.findPath (graph e) (id sc) (id ec) o) as [[path |] | |] eqn:Hpath;
    simpl; try discriminate.
  - destruct (PathResult.distance path); [| intros [= <-]; exact Hacc].
    destruct acc as [b0 |].
    + destruct (num_lt _ _); intros [= <-]; [| exact Hacc].
      intros b [= <-]. simpl. eapply findPath_wellFormed. exact Hpath.
    + intros [= <-] b [= <-]. simpl. eapply findPath_wellFormed. exact Hpath.
  - intros [= <-]. exact Hacc.
Qed.

Lemma tryPairs_wellFormed (e : PathfindingEngine.t) (s d : Coord) (o : Options)
    (pairs : list (Node * Node)) (acc result : option Best) :
  (forall b, acc = Some b -> wellFormed (graph e) (best b)) ->
  tryPairs e s d o acc pairs = Ret result ->
  forall b, result = Some b -> wellFormed (graph e) (best b).
Proof.
  revert acc. induction pairs as [| candidates pairs IH]; intros acc Hacc; simpl.
  - intros [= <-]. exact Hacc.
  - destruct (tryPair e s d o acc candidates) as [acc' | |] eqn:Hpair; simpl;
      try discriminate.
    apply IH. eapply tryPair_wellFormed; eassumption.
Qed.

Lemma findBestPath_wellFormed (e : PathfindingEngine.t) (s d : Coord)
    (starts ends : list Node) (o : Options) (b : Best) :
  findBestPath e s d starts ends o = Ret (Some b) -> wellFormed (graph e) (best b).
Proof.
  unfold findBestPath. intros Hbest.
  eapply tryPairs_wellFormed; [| exact Hbest | reflexivity]. discriminate.
Qed.

Lemma attemptSearch_wellFormed (e : PathfindingEngine.t) (s d : Coord)
    (starts ends : list Node) (o : Options) (constrained : bool)
    (allowed : option (gset string)) (mode effective : string) (b : Best) :
  attemptSearch e s d starts ends o constrained allowed mode = Ret (Some (b, effective)) ->
  wellFormed (graph e) (best b).
Proof.
  unfold attemptSearch.
  destruct (findBestPath e s d starts ends (routeOptionsOf o constrained allowed))
    as [[b1 |] | |] eqn:Hfirst; simpl; try discriminate.
  - intros [= <- _]. eapply findBestPath_wellFormed. exact Hfirst.
  - destruct constrained; [| discriminate].
    destruct (findBestPath e s d starts ends (routeOptionsOf o false None))
      as [[b2 |] | |] eqn:Hsecond; simpl; try discriminate.
    intros [= <- _]. eapply findBestPath_wellFormed. exact Hsecond.
Qed.

Lemma searchedRoute_path (e e' : PathfindingEngine.t) (s d : Coord) (sf df : string)
    (o : Options) (startRoom endRoom : option Room) (starts ends : list Node)
    (r : Route.t) :
  searchedRoute e s d sf df o startRoom endRoom starts ends = (Ret (Some r), e') ->
  listsItsNodes (graph e) (Route.nodeIds r) (Route.path r) /\ Route.nodeIds r <> [].
Proof.
  unfold searchedRoute.
  destruct starts as [| sc starts]; [discriminate |].
  destruct ends as [| ec ends]; [discriminate |].
  destruct (attemptSearch _ _ _ _ _ _ _ _ _) as [[[b effective] |] | |] eqn:Hattempt;
    try discriminate.
  intros [= <- _]. simpl. eapply attemptSearch_wellFormed. exact Hattempt.
Qed.

(** A route that comes out of the graph search carries the search's
    coordinates as they are. *)
Lemma anchoredRoute_path (e e' : PathfindingEngine.t) (s d : Coord) (sf df : string)
    (o : Options) (startRoom endRoom : option Room) (r : Route.t) :
  anchoredRoute e s d sf df o startRoom endRoom = (Ret (Some r), e') ->
  listsItsNodes (graph e) (Route.nodeIds r) (Route.path r) /\ Route.nodeIds r <> [].
Proof.
  unfold anchoredRoute.
  destruct (doorAnchors e o startRoom) as [[[| door rest] l m] |]; try discriminate;
    (destruct (doorAnchors e o endRoom) as [[[| door' rest'] l' m'] |]; try discriminate);
    apply searchedRoute_path.
Qed.

Lemma searchedRoute_error_slot (e e' : PathfindingEngine.t) (s d : Coord) (sf df : string)
    (o : Options) (startRoom endRoom : option Room) (starts ends : list Node)
    (result : option Route.t) :
  lastRouteError e = None ->
  searchedRoute e s d sf df o startRoom endRoom starts ends = (Ret result, e') ->
  match result with
  | Some _ => getLastRouteError e' = None
  | None => exists err, getLastRouteError e' = Some err
  end.
Proof.
  intros Hclean. unfold searchedRoute.
  destruct starts as [| sc starts]; [intros [= <- <-]; simpl; eauto |].
  destruct ends as [| ec ends]; [intros [= <- <-]; simpl; eauto |].
  destruct (attemptSearch _ _ _ _ _ _ _ _ _) as [[[b effective] |] | |];
    try discriminate; intros [= <- <-]; simpl; eauto.
  destruct (useCache o); exact Hclean.
Qed.

Lemma anchoredRoute_error_slot (e e' : PathfindingEngine.t) (s d : Coord) (sf df : string)
    (o : Options) (startRoom endRoom : option Room) (result : option Route.t) :
  lastRouteError e = None ->
  anchoredRoute e s d sf df o startRoom endRoom = (Ret result, e') ->
  match result with
  | Some _ => getLastRouteError e' = None
  | None => exists err, getLastRouteError e' = Some err
  end.
Proof.
  intros Hclean. unfold anchoredRoute.
  destruct (doorAnchors e o startRoom) as [[[| door rest] l m] |];
    try (intros [= <- <-]; simpl; eauto; fail);
    (destruct (doorAnchors e o endRoom) as [[[| door' rest'] l' m'] |];
     try (intros [= <- <-]; simpl; eauto; fail));
    apply searchedRoute_error_slot; exact Hclean.
Qed.

(** A computed query leaves in the error slot nothing but its own outcome:
    null after a route, its failure after null. *)
Lemma findRoute_computed_error_slot (e e' : PathfindingEngine.t) (s d : Coord)
    (sf df : string) (o : Options) (result : option Route.t) :
  initialized e = true ->
  computed e s d sf df o ->
  findRoute e s d sf df o = (Ret result, e') ->
  match result with
  | Some _ => getLastRouteError e' = None
  | None => exists err, getLastRouteError e' = Some err
  end.
Proof.
  intros Hinit Hfresh. rewrite findRoute_computed by assumption.
  unfold freshRoute.
  destruct (detectRoom e o s sf) as [sr |], (detectRoom e o d df) as [er |];
    try (apply anchoredRoute_error_slot; reflexivity).
  destruct (isSameRoom (Some sr) (Some er)).
  - destruct (CollisionDetector.isPathClear _ _ _ _); intros [= <- <-]; simpl; eauto.
  - apply anchoredRoute_error_slot. reflexivity.
Qed.

(** A computed query either joins two endpoints of one room directly or
    returns the graph search's coordinates as they are. *)
Lemma findRoute_path (e e' : PathfindingEngine.t) (s d : Coord) (sf df : string)
    (o : Options) (r : Route.t) :
  initialized e = true ->
  computed e s d sf df o ->
  findRoute e s d sf df o = (Ret (Some r), e') ->
  (Route.path r = [s; d] /\ Route.nodeIds r = [])
  \/ (listsItsNodes (graph e) (Route.nodeIds r) (Route.path r) /\ Route.nodeIds r <> []).
Proof.
  intros Hinit Hfresh. rewrite findRoute_computed by assumption.
  unfold freshRoute.
  destruct (detectRoom e o s sf) as [sr |], (detectRoom e o d df) as [er |];
    try (intros Hroute; right; exact (anchoredRoute_path _ _ _ _ _ _ _ _ _ _ Hroute)).
  destruct (isSameRoom (Some sr) (Some er)).
  - destruct (CollisionDetector.isPathClear _ _ _ _); [| discriminate].
    intros [= <- _]. left. split; reflexivity.
  - intros Hroute. right. exact (anchoredRoute_path _ _ _ _ _ _ _ _ _ _ Hroute).
Qed.

End FindRouteFacts.

Section FindRouteReturns.
Context `{Platform}.
Import PathfindingEngine.

Lemma tryPairs_returns (e : PathfindingEngine.t) (s d : Coord) (o : Options)
    (pairs : list (Node * Node)) (acc : option Best) :
  exists result, tryPairs e s d o acc pairs = Ret result.
Proof.
  revert acc. induction pairs as [| [sc ec] rest IH]; intros acc; simpl; [eauto |].
  destruct (findPath_returns (graph e) (id sc) (id ec) o) as [found ->]. simpl.
  destruct found as [path |]; [| apply IH].
  destruct (PathResult.distance path); [| apply IH].
  destruct (match acc with Some _ => _ | None => _ end); apply IH.
Qed.

Lemma attemptSearch_returns (e : PathfindingEngine.t) (s d : Coord)
    (starts ends : list Node) (o : Options) (applyRoomConstraints : bool)
    (allowed : option (gset string)) (mode : string) :
  exists result,
    attemptSearch e s d starts ends o applyRoomConstraints allowed mode = Ret result.
Proof.
  unfold attemptSearch, findBestPath.
  destruct (tryPairs_returns e s d (routeOptionsOf o applyRoomConstraints allowed)
              (flat_map (fun sc => map (fun ec => (sc, ec)) ends) starts) None)
    as [[b |] ->]; simpl; [eauto |].
  destruct applyRoomConstraints; [| eauto].
  destruct (tryPairs_returns e s d (routeOptionsOf o false None)
              (flat_map (fun sc => map (fun ec => (sc, ec)) ends) starts) None)
    as [second ->]. simpl. eauto.
Qed.

Lemma anchoredRoute_returns (e : PathfindingEngine.t) (s d : Coord) (sf df : string)
    (o : Options) (startRoom endRoom : option Room) :
  exists result e', anchoredRoute e s d sf df o startRoom endRoom = (Ret result, e').
Proof.
  assert (Hsearched : forall starts ends,
            exists result e',
              searchedRoute e s d sf df o startRoom endRoom starts ends = (Ret result, e')).
  { intros starts ends. unfold searchedRoute.
    destruct starts as [| sc starts]; [eauto |].
    destruct ends as [| ec ends]; [eauto |].
    match goal with
    | |- context [attemptSearch ?e ?s ?d ?ss ?es ?o ?a ?al ?m] =>
        destruct (attemptSearch_returns e s d ss es o a al m) as [[[b mode] |] ->]
    end; eauto. }
  unfold anchoredRoute.
  destruct (doorAnchors e o startRoom) as [[[| door rest] l m] |]; eauto;
    destruct (doorAnchors e o endRoom) as [[[| door' rest'] l' m'] |]; eauto.
Qed.

(** An initialized engine answers every query: [findRoute] returns a route
    or null and never throws. *)
Lemma findRoute_returns (e : PathfindingEngine.t) (s d : Coord) (sf df : string)
    (o : Options) :
  initialized e = true ->
  exists result e', findRoute e s d sf df o = (Ret result, e').
Proof.
  intros Hinit. unfold findRoute. rewrite Hinit. simpl.
  assert (Hfresh : exists result e', freshRoute e s d sf df o = (Ret result, e')).
  { unfold freshRoute.
    destruct (detectRoom e o s sf) as [sr |], (detectRoom e o d df) as [er |];
      try apply anchoredRoute_returns.
    destruct (isSameRoom _ _); [| apply anchoredRoute_returns].
    destruct (CollisionDetector.isPathClear _ _ _ _); eauto. }
  destruct (useCache o); [| exact Hfresh].
  destruct (PathCache.get _ _ _ _ _ _) as [[cached |] pc]; eauto.
Qed.

End FindRouteReturns.

Section CallerFacts.
Context `{Platform}.

(** What [withRouteEndpoints] adds to a route whose ends differ from the
    endpoints of the query. *)
Lemma coordsEqual_sameCoordinates (a b : Coord) :
  DirectionsUI.coordsEqual a b = true <-> sameCoordinates a b.
Proof.
  unfold DirectionsUI.coordsEqual, sameCoordinates, Math_abs.
  rewrite andb_true_iff, !num_lt_true. reflexivity.
Qed.

Lemma endpointJoined_cases (already : bool) (samePlace : Prop) (clear : bool)
    (point : Coord) (warning : string) :
  (already = true <-> samePlace) ->
  endpointJoined samePlace clear point warning
    (if negb already && clear then [point] else [])
    (if negb already && negb clear then [warning] else []).
Proof.
  intros Hsame. unfold endpointJoined. destruct already.
  - left. split; [now apply Hsame | auto].
  - assert (Hnot : ~ samePlace) by (intros Hyes; apply Hsame in Hyes; discriminate).
    destruct clear; simpl; auto 6.
Qed.

Lemma withRouteEndpoints_adds (detector : CollisionDetector.t) (r : Route.t)
    (s d : Coord) (sf df : string) (first final : Coord) :
  head (Route.path r) = Some first ->
  last (Route.path r) = Some final ->
  exists enriched front back startWarning endWarning,
    DirectionsUI.withRouteEndpoints detector r s d sf df = Some enriched
    /\ DirectionsUI.path enriched = front ++ Route.path r ++ back
    /\ DirectionsUI.warnings enriched = startWarning ++ endWarning
    /\ endpointJoined (sameCoordinates first s)
         (CollisionDetector.isPathClear detector s first sf) s
         "Start point is blocked by walls." front startWarning
    /\ endpointJoined (sameCoordinates final d)
         (CollisionDetector.isPathClear detector final d df) d
         "Destination is blocked by walls." back endWarning.
Proof.
  intros Hfirst Hfinal. unfold DirectionsUI.withRouteEndpoints.
  destruct (Route.path r) as [| c rest] eqn:Hpath; [discriminate |].
  injection Hfirst as ->. rewrite Hfinal.
  eexists.
  exists (if negb (DirectionsUI.coordsEqual first s)
             && CollisionDetector.isPathClear detector s first sf then [s] else []),
         (if negb (DirectionsUI.coordsEqual final d)
             && CollisionDetector.isPathClear detector final d df then [d] else []),
         (if negb (DirectionsUI.coordsEqual first s)
             && negb (CollisionDetector.isPathClear detector s first sf)
          then ["Start point is blocked by walls."] else []),
         (if negb (DirectionsUI.coordsEqual final d)
             && negb (CollisionDetector.isPathClear detector final d df)
          then ["Destination is blocked by walls."] else []).
  split; [reflexivity |]. cbn [DirectionsUI.path DirectionsUI.warnings].
  split.
  { destruct (negb (DirectionsUI.coordsEqual first s)
              && CollisionDetector.isPathClear detector s first sf),
             (negb (DirectionsUI.coordsEqual final d)
              && CollisionDetector.isPathClear detector final d df);
      simpl; rewrite ?app_nil_r; reflexivity. }
  split; [reflexivity |].
  split; apply endpointJoined_cases, coordsEqual_sameCoordinates.
Qed.

(** [computeRoute] puts the raw endpoints around the engine's path without
    consulting the collision detector. *)
Lemma computeRoute_fullPath (nc nc' : NavigationController.t) (o : Options)
    (nav : NavigationController.NavRoute) :
  NavigationController.computeRoute nc o = (Ret (Some nav), nc') ->
  exists user dest rawEnd,
    NavigationController.userLocation nc = Some user
    /\ NavigationController.destination nc = Some dest
    /\ Destination.coords dest = Some rawEnd
    /\ NavigationController.fullPath nav
       = [UserLocation.coords user] ++ Route.path (NavigationController.route nav)
         ++ [rawEnd].
Proof.
  unfold NavigationController.computeRoute.
  destruct (NavigationController.initialized nc); [| discriminate]. simpl.
  destruct (NavigationController.userLocation nc) as [user |]; [| discriminate].
  destruct (NavigationController.destination nc) as [dest |]; [| discriminate].
  destruct (Destination.coords dest) as [rawEnd |] eqn:Hend; [| discriminate].
  destruct (NavigationController.isInsideWalkableArea nc (UserLocation.coords user))
    as [startIn | |];
    destruct (NavigationController.isInsideWalkableArea nc rawEnd) as [endIn | |];
    try discriminate.
  destruct (negb startIn && negb endIn); [discriminate |].
  destruct (PathfindingEngine.findRoute _ _ _ _ _ _) as [[[r |] | |] e'];
    try discriminate.
  intros [= <- _]. exists user, dest, rawEnd. auto.
Qed.

End CallerFacts.

Section RouteAssemblyFacts.
Context `{Platform}.

(** C7 (as the code has it). [findRoute] does not add the endpoints of the
    query to the path and attaches no warning: a computed query returns
    either the two endpoints of a same-room route or exactly the coordinates
    of the graph nodes named in [nodeIds].  The endpoints are added by its
    callers.  [DirectionsUI.withRouteEndpoints] decides each end of the
    path on its own: it leaves alone an end that is at the endpoint already;
    otherwise it prepends the start (appends the end) if and only if
    [isPathClear] holds between the endpoint and that end of the path, and
    attaches a warning if it does not.  [NavigationController.computeRoute] puts
    both raw endpoints around the path in [fullPath] without any check. *)
Theorem findRoute_path_and_its_callers :
  (forall (e e' : PathfindingEngine.t) (s d : Coord) (sf df : string) (o : Options)
          (r : Route.t),
      PathfindingEngine.initialized e = true ->
      computed e s d sf df o ->
      PathfindingEngine.findRoute e s d sf df o = (Ret (Some r), e') ->
      (Route.path r = [s; d] /\ Route.nodeIds r = [])
      \/ (listsItsNodes (PathfindingEngine.graph e) (Route.nodeIds r) (Route.path r)
          /\ Route.nodeIds r <> []))
  /\ (forall (detector : CollisionDetector.t) (r : Route.t) (s d : Coord)
             (sf df : string) (first final : Coord),
         head (Route.path r) = Some first ->
         last (Route.path r) = Some final ->
         exists enriched front back startWarning endWarning,
           DirectionsUI.withRouteEndpoints detector r s d sf df = Some enriched
           /\ DirectionsUI.path enriched = front ++ Route.path r ++ back
           /\ DirectionsUI.warnings enriched = startWarning ++ endWarning
           /\ endpointJoined (sameCoordinates first s)
                (CollisionDetector.isPathClear detector s first sf) s
                "Start point is blocked by walls." front startWarning
           /\ endpointJoined (sameCoordinates final d)
                (CollisionDetector.isPathClear detector final d df) d
                "Destination is blocked by walls." back endWarning)
  /\ (forall (nc nc' : NavigationController.t) (o : Options)
             (nav : NavigationController.NavRoute),
         NavigationController.computeRoute nc o = (Ret (Some nav), nc') ->
         exists user dest rawEnd,
           NavigationController.userLocation nc = Some user
           /\ NavigationController.destination nc = Some dest
           /\ Destination.coords dest = Some rawEnd
           /\ NavigationController.fullPath nav
              = [UserLocation.coords user]
                ++ Route.path (NavigationController.route nav) ++ [rawEnd]).
Proof.
  split; [| split].
  - intros e e' s d sf df o r. apply findRoute_path.
  - intros detector r s d sf df first final. apply withRouteEndpoints_adds.
  - intros nc nc' o nav. apply computeRoute_fullPath.
Qed.

End RouteAssemblyFacts.

Section FindRouteOnThePlan.
#[local] Existing Instance Plan.platform.
Import PathfindingEngine.

Lemma findRoute_same_room_clear_witness :
  exists r,
    Plan.query Plan.open_ Plan.inRoomA Plan.inRoomB noOptions
    = (Ret (Some r), withError Plan.open_ None)
    /\ Route.path r = [Plan.inRoomA; Plan.inRoomB]
    /\ Route.nodeIds r = []
    /\ Route.distance r = turf_distance Plan.inRoomA Plan.inRoomB.
Proof.
  apply (findRoute_same_room_clear Plan.open_ Plan.inRoomA Plan.inRoomB "F0" "F0"
           noOptions Plan.roomR1 Plan.roomR1).
  - reflexivity.
  - right. reflexivity.
  - vm_compute. reflexivity.
  - vm_compute. reflexivity.
  - reflexivity.
  - vm_compute. reflexivity.
Defined.

(** C2, the claim as it is written: the route from the room to the corridor
    is in the cache; a query between two points of the room, with nothing
    between them, that round to the same cell as the first two is answered
    with that route, which lists two graph nodes and neither endpoint. *)
Lemma cached_route_answers_same_room_query :
  let first := Plan.query Plan.open_ Plan.inRoomA Plan.inCorridor noOptions in
  let second := Plan.query (snd first) Plan.inRoomA Plan.inRoomB noOptions in
  detectRoom (snd first) noOptions Plan.inRoomA "F0" = Some Plan.roomR1
  /\ detectRoom (snd first) noOptions Plan.inRoomB "F0" = Some Plan.roomR1
  /\ CollisionDetector.isPathClear (collisionDetector (snd first))
       Plan.inRoomA Plan.inRoomB "F0" = true
  /\ exists r1,
       fst first = Ret (Some r1)
       /\ fst second = Ret (Some r1)
       /\ Route.nodeIds r1 = ["door_D1"; "n2"]
       /\ Route.path r1 = [Plan.at_ 2 0; Plan.at_ 3 (-2)].
Proof.
  intros first second.
  do 3 (split; [vm_compute; reflexivity |]).
  eexists. do 3 (split; [vm_compute; reflexivity |]).
  vm_compute. reflexivity.
Qed.

Lemma findRoute_same_room_blocked_witness :
  Plan.query Plan.open_ Plan.leftOfPillar Plan.rightOfPillar noOptions
  = (Ret None,
     setRouteError (withError Plan.open_ None) "no-path" "No clear path inside this room.").
Proof.
  apply (findRoute_same_room_blocked Plan.open_ Plan.leftOfPillar Plan.rightOfPillar
           "F0" "F0" noOptions Plan.roomR1 Plan.roomR1).
  - reflexivity.
  - right. reflexivity.
  - vm_compute. reflexivity.
  - vm_compute. reflexivity.
  - reflexivity.
  - vm_compute. reflexivity.
Defined.

(** C10, the claim as it is written: with the route from the room to the
    corridor in the cache, a query between two points of the room on either
    side of the pillar is answered with that route: it does not return
    null, and the error slot does not read [no-path]. *)
Lemma cached_route_answers_blocked_query :
  let first := Plan.query Plan.open_ Plan.inRoomA Plan.inCorridor noOptions in
  let second := Plan.query (snd first) Plan.leftOfPillar Plan.rightOfPillar noOptions in
  detectRoom (snd first) noOptions Plan.leftOfPillar "F0" = Some Plan.roomR1
  /\ detectRoom (snd first) noOptions Plan.rightOfPillar "F0" = Some Plan.roomR1
  /\ CollisionDetector.isPathClear (collisionDetector (snd first))
       Plan.leftOfPillar Plan.rightOfPillar "F0" = false
  /\ (exists r1, fst first = Ret (Some r1) /\ fst second = Ret (Some r1))
  /\ getLastRouteError (snd second) = None.
Proof.
  intros first second.
  do 3 (split; [vm_compute; reflexivity |]).
  split; [eexists; split; vm_compute; reflexivity |].
  vm_compute. reflexivity.
Qed.

Lemma findRoute_no_door_witness :
  exists message,
    Plan.query Plan.locked_ Plan.inRoomA Plan.inCorridor noOptions
    = (Ret None, setRouteError (withError Plan.locked_ None) "no-door" message)
    /\ getLastRouteError (snd (Plan.query Plan.locked_ Plan.inRoomA Plan.inCorridor noOptions))
       = Some (mkRouteError "no-door" message).
Proof.
  apply (findRoute_no_door Plan.locked_ Plan.inRoomA Plan.inCorridor "F0" "F0"
           noOptions Plan.roomR1 [Plan.doorD1 false]).
  - reflexivity.
  - right. reflexivity.
  - reflexivity.
  - vm_compute. reflexivity.
  - left. vm_compute. reflexivity.
  - vm_compute. reflexivity.
  - vm_compute. reflexivity.
  - discriminate.
  - repeat constructor.
  - reflexivity.
Defined.

(** C6, the claim as it is written.  Room [R1] is private and its only
    door is locked.  A query between two points of the room returns the
    direct route, not null.  A query from the room to the corridor that
    switches the detection of rooms off returns null for want of a path,
    not of a door.  And once a query that allowed locked doors has put its
    route in the cache, the same query without that permission is answered
    with that route, through the locked door. *)
Lemma locked_room_queries_without_no_door :
  let direct := Plan.query Plan.locked_ Plan.inRoomA Plan.inRoomB noOptions in
  let undetected :=
    Plan.query Plan.locked_ Plan.inRoomA Plan.inCorridor Plan.unsnapped in
  let permitted :=
    Plan.query Plan.locked_ Plan.inRoomA Plan.inCorridor Plan.withLockedDoors in
  let refused := Plan.query (snd permitted) Plan.inRoomA Plan.inCorridor noOptions in
  findRoomAtPoint Plan.locked_ Plan.inRoomA "F0" = Some Plan.roomR1
  /\ isPublicRoom noOptions (roomMeta Plan.locked_ !! geometryId Plan.roomR1) = false
  /\ roomDoorIndex Plan.locked_ !! geometryId Plan.roomR1 = Some [Plan.doorD1 false]
  /\ isLocked (metadata (Plan.doorD1 false)) = true
  /\ allowLockedDoors noOptions = false
  /\ allowLockedDoors Plan.unsnapped = false
  /\ (exists r, fst direct = Ret (Some r)
                /\ Route.path r = [Plan.inRoomA; Plan.inRoomB])
  /\ getLastRouteError (snd direct) = None
  /\ fst undetected = Ret None
  /\ getLastRouteError (snd undetected)
     = Some (mkRouteError "no-path" "No path available from this location.")
  /\ (exists r1, fst permitted = Ret (Some r1)
                 /\ fst refused = Ret (Some r1)
                 /\ Route.nodeIds r1 = ["door_D1"; "n2"])
  /\ getLastRouteError (snd refused) = None.
Proof.
  intros direct undetected permitted refused.
  do 6 (split; [vm_compute; reflexivity |]).
  split; [eexists; split; vm_compute; reflexivity |].
  do 3 (split; [vm_compute; reflexivity |]).
  split; [eexists; do 2 (split; [vm_compute; reflexivity |]); vm_compute; reflexivity |].
  vm_compute. reflexivity.
Qed.

Lemma findRoute_path_and_its_callers_witness :
  (exists r,
      fst (Plan.query Plan.open_ Plan.inRoomA Plan.inCorridor noOptions) = Ret (Some r)
      /\ listsItsNodes (graph Plan.open_) (Route.nodeIds r) (Route.path r)
      /\ exists enriched,
           DirectionsUI.withRouteEndpoints Plan.detector r
             Plan.inRoomA Plan.inCorridor "F0" "F0" = Some enriched
           /\ DirectionsUI.path enriched
              = [Plan.inRoomA] ++ Route.path r ++ [Plan.inCorridor]
           /\ DirectionsUI.warnings enriched = [])
  /\ (exists nav,
         fst (NavigationController.computeRoute Plan.controller noOptions)
         = Ret (Some nav)
         /\ NavigationController.fullPath nav
            = [Plan.inRoomA] ++ Route.path (NavigationController.route nav)
              ++ [Plan.inCorridor]).
Proof.
  destruct (findRoute_path_and_its_callers (H := Plan.platform)) as (Hpath & Hui & Hnav).
  split.
  - eassert (Hfst : fst (Plan.query Plan.open_ Plan.inRoomA Plan.inCorridor noOptions)
                    = Ret (Some _)) by (vm_compute; reflexivity).
    match type of Hfst with _ = Ret (Some ?route) => remember route as r eqn:Hr end.
    exists r. split; [exact Hfst |].
    destruct (Hpath Plan.open_ _ Plan.inRoomA Plan.inCorridor "F0" "F0" noOptions r
                eq_refl (or_intror eq_refl)
                (eq_trans (surjective_pairing _) (f_equal2 pair Hfst eq_refl)))
      as [[Hdirect _] | [Hgraph _]].
    { exfalso. rewrite Hr in Hdirect. vm_compute in Hdirect. discriminate Hdirect. }
    split; [exact Hgraph |].
    destruct (Hui Plan.detector r Plan.inRoomA Plan.inCorridor "F0" "F0"
                (Plan.at_ 2 0) (Plan.at_ 3 (-2)))
      as (enriched & front & back & startWarning & endWarning
          & Henriched & Hp & Hw & Hstart & Hend);
      [rewrite Hr; reflexivity | rewrite Hr; reflexivity |].
    exists enriched. split; [exact Henriched |].
    assert (Hfront : front = [Plan.inRoomA] /\ startWarning = []).
    { destruct Hstart as [(Hsame & _) | [(_ & _ & -> & ->) | (_ & Hblocked & _)]];
        [exfalso | auto | exfalso].
      - apply coordsEqual_sameCoordinates in Hsame. vm_compute in Hsame. discriminate Hsame.
      - vm_compute in Hblocked. discriminate Hblocked. }
    assert (Hback : back = [Plan.inCorridor] /\ endWarning = []).
    { destruct Hend as [(Hsame & _) | [(_ & _ & -> & ->) | (_ & Hblocked & _)]];
        [exfalso | auto | exfalso].
      - apply coordsEqual_sameCoordinates in Hsame. vm_compute in Hsame. discriminate Hsame.
      - vm_compute in Hblocked. discriminate Hblocked. }
    destruct Hfront as [-> ->], Hback as [-> ->]. split; [exact Hp | exact Hw].
  - eassert (Hfst : fst (NavigationController.computeRoute Plan.controller noOptions)
                    = Ret (Some _)) by (vm_compute; reflexivity).
    match type of Hfst with _ = Ret (Some ?route) => remember route as nav eqn:Hr end.
    exists nav. split; [exact Hfst |].
    destruct (Hnav Plan.controller _ noOptions nav
                (eq_trans (surjective_pairing _) (f_equal2 pair Hfst eq_refl)))
      as (user & dest & rawEnd & Huser & Hdest & Hend & Hfull).
    injection Huser as <-. injection Hdest as <-. injection Hend as <-. exact Hfull.
Defined.

(** C7, the claim as it is written: both connectors of the route from the
    room to the corridor are clear, and yet the path [findRoute] returns
    runs from the door node to the corridor node, with neither the start
    coordinate in front nor the end coordinate behind. *)
Lemma findRoute_adds_no_endpoint :
  exists r startAnchor endAnchor,
    fst (Plan.query Plan.open_ Plan.inRoomA Plan.inCorridor noOptions) = Ret (Some r)
    /\ Route.startNode r = Some startAnchor
    /\ Route.endNode r = Some endAnchor
    /\ isConnectorClear Plan.open_ Plan.inRoomA (coords startAnchor) "F0" = true
    /\ isConnectorClear Plan.open_ Plan.inCorridor (coords endAnchor) "F0" = true
    /\ Route.path r = [coords startAnchor; coords endAnchor]
    /\ head (Route.path r) <> Some Plan.inRoomA
    /\ last (Route.path r) <> Some Plan.inCorridor.
Proof.
  do 3 eexists.
  do 6 (split; [vm_compute; reflexivity |]).
  split; vm_compute; discriminate.
Qed.

(** C9, at the failing input.  Three queries in a row: the first is
    computed and its route cached; the second, to a floor without nodes,
    fails and records [blocked]; the third repeats the first and is answered
    from the cache.  It succeeds, and the error slot still holds the failure
    of the second. *)
Theorem findRoute_cache_hit_keeps_old_error :
  let first := Plan.query Plan.open_ Plan.inRoomA Plan.inCorridor noOptions in
  let second := findRoute (snd first) Plan.inRoomA Plan.inCorridor "F0" "F1" noOptions in
  let third := Plan.query (snd second) Plan.inRoomA Plan.inCorridor noOptions in
  let blocked :=
    mkRouteError "blocked"
      "Cannot find a path to this destination. Try clicking closer to a walkable area." in
  (exists r1, fst first = Ret (Some r1) /\ fst third = Ret (Some r1))
  /\ getLastRouteError (snd first) = None
  /\ fst second = Ret None
  /\ getLastRouteError (snd second) = Some blocked
  /\ getLastRouteError (snd third) = Some blocked.
Proof.
  intros first second third blocked.
  split; [eexists; split; vm_compute; reflexivity |].
  do 3 (split; [vm_compute; reflexivity |]).
  vm_compute. reflexivity.
Qed.

End FindRouteOnThePlan.

(** ** Walks of the graph search *)

Section SearchWalkFacts.
Context `{Platform}.
Import AStar.

(** What one round of the inner loop does: nothing, or the update of the
    neighbour an admissible edge leads to. *)
Lemma relax_cases (g : Graph) (endNode : Node) (options : Options)
    (currentId : string) (st : SearchState) (edge : Edge) (gc : Q) :
  is_Some (getNode g currentId) ->
  gScore st !! currentId = Some gc ->
  (relax g endNode options currentId st edge = Ret st
   /\ (forall node d, In edge (getEdges g currentId) ->
         admissible g options currentId edge node d ->
         (target edge ∈ closedSet st) \/ is_Some (gScore st !! target edge)))
  \/ exists node d f,
       passable options edge = true
       /\ (target edge ∉ closedSet st)
       /\ getNode g (target edge) = Some node
       /\ findPath_isNodeAllowed options node = true
       /\ edgeDistance g currentId node edge = Ret d
       /\ relax g endNode options currentId st edge
          = Ret (mkState (MinHeap.push (openSet st) (MinHeap.mkItem (target edge) f))
                         (closedSet st)
                         (<[target edge := (gc + d)%Q]> (gScore st))
                         (<[target edge := f]> (fScore st))
                         (<[target edge := currentId]> (cameFrom st))).
Proof.
  intros [currentNode Hcurrent] Hgc. unfold relax, admissible, passable.
  destruct (accessibleOnly options && negb (accessible edge)); simpl.
  { left. split; [reflexivity |]. intros node d _ (_ & Hpass & _). discriminate. }
  destruct (avoidStairs options && String.eqb (etype edge) "stairs"); simpl.
  { left. split; [reflexivity |]. intros node d _ (_ & Hpass & _). discriminate. }
  destruct (bool_decide (target edge ∈ closedSet st)) eqn:Hopen.
  { apply bool_decide_eq_true_1 in Hopen. left. split; [reflexivity | auto]. }
  apply bool_decide_eq_false_1 in Hopen.
  destruct (getNode g (target edge)) as [neighborNode |] eqn:Hneighbor.
  2: { left. split; [reflexivity |]. intros node d _ (_ & _ & Hnode & _). discriminate. }
  destruct (findPath_isNodeAllowed options neighborNode) eqn:Hallowed; simpl.
  2: { left. split; [reflexivity |]. intros node d _ (_ & _ & Hnode & Hok & _).
       congruence. }
  assert (Hdistance : exists distance,
            edgeDistance g currentId neighborNode edge = Ret distance).
  { unfold edgeDistance. destruct (weight edge); [eauto |]. rewrite Hcurrent. eauto. }
  destruct Hdistance as [distance Hdistance]. rewrite Hdistance, Hgc. simpl.
  destruct (improves _ _) eqn:Himproves.
  - right. exists neighborNode, distance. eexists. repeat (split; [eassumption || reflexivity |]).
    reflexivity.
  - left. split; [reflexivity |]. intros _ _ _ _. right.
    unfold improves in Himproves. destruct (gScore st !! target edge); [eauto | discriminate].
Qed.


Lemma relax_trace (g : Graph) (endNode : Node) (options : Options) (s : string)
    (currentId : string) (st st' : SearchState) (edge : Edge) (gc : Q) :
  searchTrace g options s st ->
  In edge (getEdges g currentId) ->
  currentId ∈ closedSet st ->
  s ∈ closedSet st ->
  currentId = s \/ is_Some (cameFrom st !! currentId) ->
  is_Some (getNode g currentId) ->
  gScore st !! currentId = Some gc ->
  relax g endNode options currentId st edge = Ret st' ->
  searchTrace g options s st'
  /\ closedSet st' = closedSet st
  /\ gScore st' !! currentId = Some gc
  /\ (currentId = s \/ is_Some (cameFrom st' !! currentId)).
Proof.
  intros Htrace Hedge Hclosed Hstart Hback Hnode Hgc Hrelax.
  destruct (relax_cases g endNode options currentId st edge gc Hnode Hgc)
    as [[Hsame _] | (node & d & f & Hpass & Hopen & Hneighbor & Hallowed & Hdist & Hpush)].
  { rewrite Hsame in Hrelax. injection Hrelax as <-. auto. }
  rewrite Hpush in Hrelax. injection Hrelax as <-.
  destruct Htrace as [Hpred Hheap Hzero Hfirst].
  assert (Hother : forall c, c ∈ closedSet st -> c <> target edge) by (intros c Hc ->; auto).
  assert (Hmore : forall c, c = s \/ is_Some (cameFrom st !! c) ->
            c = s \/ is_Some (<[target edge := currentId]> (cameFrom st) !! c)).
  { intros c [-> | Hc]; [auto | right]. apply lookup_insert_is_Some'. auto. }
  split; [split |]; simpl.
  - intros n c. destruct (decide (n = target edge)) as [-> | Hne].
    + rewrite lookup_insert_eq. intros [= <-].
      split; [exact Hclosed |]. split; [auto |].
      exists edge, node, gc, d. split; [repeat split; assumption |].
      split; [reflexivity |].
      rewrite lookup_insert_ne by (apply not_eq_sym, Hother, Hclosed).
      rewrite lookup_insert_eq. auto.
    + rewrite lookup_insert_ne by congruence. intros Hnc.
      destruct (Hpred n c Hnc) as (Hc & Hcback & e' & node' & gc' & d' & Hadm & Htarget & Hgc' & Hgn).
      split; [exact Hc |]. split; [auto |].
      exists e', node', gc', d'. split; [exact Hadm |]. split; [exact Htarget |].
      rewrite !lookup_insert_ne by (try congruence; apply not_eq_sym, Hother, Hc). auto.
  - intros item Hin. rewrite push_Permutation in Hin.
    apply elem_of_cons in Hin as [-> | Hin]; simpl.
    + right. rewrite lookup_insert_eq. eauto.
    + auto.
  - rewrite lookup_insert_ne by (apply not_eq_sym, Hother, Hstart). exact Hzero.
  - left. exact Hstart.
  - split; [reflexivity |]. split; [| auto].
    rewrite lookup_insert_ne by (apply not_eq_sym, Hother, Hclosed). exact Hgc.
Qed.

Lemma relaxAll_trace (g : Graph) (endNode : Node) (options : Options) (s : string)
    (currentId : string) (gc : Q) (edges : list Edge) (st st' : SearchState) :
  searchTrace g options s st ->
  (forall edge, In edge edges -> In edge (getEdges g currentId)) ->
  currentId ∈ closedSet st ->
  s ∈ closedSet st ->
  currentId = s \/ is_Some (cameFrom st !! currentId) ->
  is_Some (getNode g currentId) ->
  gScore st !! currentId = Some gc ->
  relaxAll g endNode options currentId st edges = Ret st' ->
  searchTrace g options s st'.
Proof.
  revert st. induction edges as [| edge rest IH];
    intros st Htrace Hedges Hclosed Hstart Hback Hnode Hgc; simpl.
  - intros [= <-]. exact Htrace.
  - destruct (relax g endNode options currentId st edge) as [st1 | |] eqn:Hrelax;
      simpl; try discriminate.
    destruct (relax_trace g endNode options s currentId st st1 edge gc)
      as (Htrace1 & Hclosed1 & Hgc1 & Hback1); try assumption.
    { apply Hedges. left. reflexivity. }
    apply IH; try assumption; try (rewrite Hclosed1; assumption).
    intros e He. apply Hedges. right. exact He.
Qed.


Lemma relax_frontier (g : Graph) (endNode : Node) (options : Options)
    (expanded : gset string) (currentId : string) (st st' : SearchState)
    (edge : Edge) (gc : Q) :
  searchFrontier g options expanded st ->
  currentId ∈ closedSet st ->
  is_Some (getNode g currentId) ->
  gScore st !! currentId = Some gc ->
  relax g endNode options currentId st edge = Ret st' ->
  searchFrontier g options expanded st'
  /\ closedSet st' = closedSet st
  /\ gScore st' !! currentId = Some gc
  /\ (forall n, is_Some (gScore st !! n) -> is_Some (gScore st' !! n))
  /\ (forall node d, In edge (getEdges g currentId) ->
        admissible g options currentId edge node d ->
        is_Some (gScore st' !! target edge)).
Proof.
  intros Hfrontier Hclosed Hnode Hgc Hrelax.
  destruct Hfrontier as [Hscored Hheap Hdone Hout].
  destruct (relax_cases g endNode options currentId st edge gc Hnode Hgc)
    as [[Hsame Hknown] | (node & d & f & Hpass & Hopen & Hneighbor & Hallowed & Hdist & Hpush)].
  { rewrite Hsame in Hrelax. injection Hrelax as <-.
    split; [split; assumption |]. do 3 (split; [auto |]).
    intros node d Hin Hadm. destruct (Hknown node d Hin Hadm); auto. }
  rewrite Hpush in Hrelax. injection Hrelax as <-. simpl.
  assert (Hmore : forall n, is_Some (gScore st !! n) ->
            is_Some (<[target edge := (gc + d)%Q]> (gScore st) !! n)).
  { intros n Hn. apply lookup_insert_is_Some'. auto. }
  split; [split; simpl |].
  - intros n Hn. destruct (decide (n = target edge)) as [-> | Hne].
    + right. eexists. split; [rewrite push_Permutation; apply list_elem_of_here |].
      reflexivity.
    + rewrite lookup_insert_ne in Hn by congruence.
      destruct (Hscored n Hn) as [Hn' | (item & Hitem & Hid)]; [auto | right].
      exists item. split; [| exact Hid].
      rewrite push_Permutation. apply list_elem_of_further, Hitem.
  - intros item Hin. rewrite push_Permutation in Hin.
    apply elem_of_cons in Hin as [-> | Hin]; simpl; [rewrite lookup_insert_eq; eauto | auto].
  - auto.
  - intros c e' node' d' Hc Hadm. eauto.
  - split; [reflexivity |]. split.
    { rewrite lookup_insert_ne; [exact Hgc |]. intros <-. auto. }
    split; [exact Hmore |]. intros _ _ _ _. rewrite lookup_insert_eq. eauto.
Qed.

Lemma relaxAll_frontier (g : Graph) (endNode : Node) (options : Options)
    (expanded : gset string) (currentId : string) (gc : Q) (edges : list Edge)
    (st st' : SearchState) :
  searchFrontier g options expanded st ->
  (forall edge, In edge edges -> In edge (getEdges g currentId)) ->
  currentId ∈ closedSet st ->
  is_Some (getNode g currentId) ->
  gScore st !! currentId = Some gc ->
  relaxAll g endNode options currentId st edges = Ret st' ->
  searchFrontier g options expanded st'
  /\ closedSet st' = closedSet st
  /\ (forall n, is_Some (gScore st !! n) -> is_Some (gScore st' !! n))
  /\ (forall edge node d, In edge edges ->
        admissible g options currentId edge node d ->
        is_Some (gScore st' !! target edge)).
Proof.
  revert st. induction edges as [| edge rest IH];
    intros st Hfrontier Hedges Hclosed Hnode Hgc; simpl.
  - intros [= <-]. split; [exact Hfrontier |]. split; [reflexivity |].
    split; [auto |]. intros edge node d [].
  - destruct (relax g endNode options currentId st edge) as [st1 | |] eqn:Hrelax;
      simpl; try discriminate.
    intros Hrest.
    destruct (relax_frontier g endNode options expanded currentId st st1 edge gc)
      as (Hfrontier1 & Hclosed1 & Hgc1 & Hmore1 & Hedge1); try assumption.
    destruct (IH st1) as (Hfrontier' & Hclosed' & Hmore' & Hedges'); try assumption.
    { intros e He. apply Hedges. right. exact He. }
    { rewrite Hclosed1. exact Hclosed. }
    split; [exact Hfrontier' |]. split; [congruence |]. split; [auto |].
    intros e node d [<- | He] Hadm.
    + apply Hmore'. apply (Hedge1 node d); [| exact Hadm].
      apply Hedges. left. reflexivity.
    + eapply Hedges'; eassumption.
Qed.

Lemma searchStep_keeps (g : Graph) (endNode : Node) (options : Options) (s t : string)
    (st st' : SearchState) :
  is_Some (getNode g t) ->
  searchKeeps g options s t st ->
  searchStep g t endNode options st = Ret (Continue st') ->
  searchKeeps g options s t st'.
Proof.
  intros Hend ([rank Hinv] & Htrace & Hfrontier) Hstep.
  split.
  { destruct (searchStep_progress g t endNode options rank st Hinv Hend)
      as [[result Hdone] | (st1 & rank' & Hcont & Hinv' & _)]; [congruence |].
    exists rank'. congruence. }
  revert Hstep. unfold searchStep.
  destruct (MinHeap.pop (openSet st)) as [[current |] rest] eqn:Hpop; [| discriminate].
  apply pop_Permutation in Hpop.
  destruct (String.eqb_spec (MinHeap.nodeId current) t) as [Heq | Hother].
  { destruct (reconstructPath _ _ _ _); discriminate. }
  cbn [closedSet gScore fScore cameFrom].
  destruct Htrace as [Hpred Hheap Hzero Hfirst].
  destruct Hfrontier as [Hscored Hopen Hdone Hout].
  assert (Hcurrent : current ∈ openSet st) by (rewrite Hpop; apply list_elem_of_here).
  assert (Hrest : forall item, item ∈ rest -> item ∈ openSet st).
  { intros item Hin. rewrite Hpop. apply list_elem_of_further, Hin. }
  assert (Hkept : forall n, is_Some (gScore st !! n) ->
            n ∈ {[MinHeap.nodeId current]} ∪ closedSet st
            \/ exists item, item ∈ rest /\ MinHeap.nodeId item = n).
  { intros n Hn. destruct (Hscored n Hn) as [Hn' | (item & Hitem & Hid)].
    - left. apply elem_of_union_r, Hn'.
    - rewrite Hpop in Hitem. apply elem_of_cons in Hitem as [-> | Hitem].
      + left. apply elem_of_union_l, elem_of_singleton. congruence.
      + right. eauto. }
  destruct (bool_decide (MinHeap.nodeId current ∈ closedSet st)) eqn:Hclosed.
  - apply bool_decide_eq_true_1 in Hclosed. intros [= <-].
    split; [split | split]; simpl; auto.
    + destruct Hfirst as [Hs | Hs]; [left; exact Hs | right; auto].
    + intros n Hn. destruct (Hkept n Hn) as [Hn' | Hn']; [left | right; exact Hn'].
      apply elem_of_union in Hn' as [Hn' | Hn']; [| exact Hn'].
      apply elem_of_singleton in Hn' as ->. exact Hclosed.
  - apply bool_decide_eq_false_1 in Hclosed.
    set (currentId := MinHeap.nodeId current) in *.
    set (st2 := mkState rest ({[currentId]} ∪ closedSet st) (gScore st) (fScore st)
                        (cameFrom st)).
    destruct (Hopen current Hcurrent) as [gc Hgc]. fold currentId in Hgc.
    assert (Hnode : is_Some (getNode g currentId)).
    { destruct Hinv as [Hknown _ _ _]. apply Hknown, Hcurrent. }
    assert (Hstart : s ∈ closedSet st2).
    { simpl. destruct Hfirst as [Hs | Hs]; [apply elem_of_union_r, Hs |].
      apply elem_of_union_l, elem_of_singleton. symmetry. apply Hs, Hcurrent. }
    assert (Htrace2 : searchTrace g options s st2).
    { split; simpl; auto.
      intros n c Hnc. destruct (Hpred n c Hnc) as (Hc & Hrestc).
      split; [apply elem_of_union_r, Hc | exact Hrestc]. }
    assert (Hfrontier2 : searchFrontier g options (closedSet st) st2).
    { split; simpl; auto.
      intros c Hc. apply elem_of_union in Hc as [Hc | Hc]; [| auto].
      apply elem_of_singleton in Hc as ->. eauto. }
    destruct (relaxAll g endNode options currentId st2 (getEdges g currentId))
      as [st3 | |] eqn:Hrelax; simpl; try discriminate.
    intros [= <-]. split.
    + apply (relaxAll_trace g endNode options s currentId gc
                            (getEdges g currentId) st2 st3); auto.
      * simpl. apply elem_of_union_l, elem_of_singleton. reflexivity.
      * simpl. apply (Hheap current Hcurrent).
    + destruct (relaxAll_frontier g endNode options (closedSet st) currentId gc
                  (getEdges g currentId) st2 st3)
        as ([Hscored3 Hopen3 Hdone3 Hout3] & Hclosed3 & Hmore3 & Hedges3);
        try assumption; auto.
      { simpl. apply elem_of_union_l, elem_of_singleton. reflexivity. }
      split; auto. intros c edge node d Hc Hadm.
      rewrite Hclosed3 in Hc. simpl in Hc.
      apply elem_of_union in Hc as [Hc | Hc]; [| eauto].
      apply elem_of_singleton in Hc as ->.
      apply (Hedges3 edge node d); [| exact Hadm]. apply Hadm.
Qed.

(** The round in which the search ends is reached with everything the
    loop keeps. *)
Lemma searchLoop_ends (g : Graph) (endNode : Node) (options : Options) (s t : string)
    (rounds : nat) (st : SearchState) (result : option PathResult.t) :
  is_Some (getNode g t) ->
  searchKeeps g options s t st ->
  searchLoop rounds g t endNode options st = Ret result ->
  exists final,
    searchKeeps g options s t final
    /\ searchStep g t endNode options final = Ret (Finished result).
Proof.
  intros Hend. revert st. induction rounds as [| rounds IH]; intros st Hkeeps; simpl;
    destruct (searchStep g t endNode options st) as [[done | st'] | |] eqn:Hstep;
    simpl; try discriminate.
  - intros [= <-]. eauto.
  - intros [= <-]. eauto.
  - apply IH. eapply searchStep_keeps; eassumption.
Qed.

Lemma initialState_keeps (g : Graph) (options : Options) (s t : string)
    (startNode : Node) (h : Q) :
  getNode g s = Some startNode ->
  searchKeeps g options s t (initialState s h).
Proof.
  intros Hstart. unfold initialState.
  assert (Honly : forall item, item ∈ MinHeap.push [] (MinHeap.mkItem s h) ->
            item = MinHeap.mkItem s h).
  { intros item Hin. rewrite push_Permutation in Hin.
    apply list_elem_of_singleton in Hin. exact Hin. }
  split; [exists (fun _ => 0%nat) | split]; split; cbn [openSet closedSet cameFrom gScore].
  - intros item Hin. rewrite (Honly item Hin). simpl. eauto.
  - intros n c. rewrite lookup_empty. discriminate.
  - intros c Hc. apply not_elem_of_empty in Hc. contradiction.
  - apply not_elem_of_empty.
  - intros n c. rewrite lookup_empty. discriminate.
  - intros item Hin. rewrite (Honly item Hin). auto.
  - apply lookup_singleton_eq.
  - right. intros item Hin. rewrite (Honly item Hin). reflexivity.
  - intros n Hn. right. exists (MinHeap.mkItem s h).
    split; [rewrite push_Permutation; apply list_elem_of_here |].
    simpl. destruct (decide (n = s)) as [-> | Hne]; [reflexivity |].
    rewrite lookup_singleton_ne in Hn by congruence. destruct Hn; discriminate.
  - intros item Hin. rewrite (Honly item Hin). simpl. rewrite lookup_singleton_eq. eauto.
  - intros c Hc. apply not_elem_of_empty in Hc. contradiction.
  - intros c edge node d Hc. apply not_elem_of_empty in Hc. contradiction.
Qed.

Lemma walkBack_chain (cameFrom : gmap string string) (rounds : nat)
    (current : string) (rest result : list string) :
  walkBack rounds cameFrom current (current :: rest) = Ret result ->
  exists l, Chain cameFrom current l /\ result = l ++ rest.
Proof.
  revert current rest. induction rounds as [| rounds IH]; intros current rest; simpl;
    destruct (cameFrom !! current) as [previous |] eqn:Hprevious; try discriminate.
  - intros [= <-]. exists [current]. split; [apply chain_end, Hprevious | reflexivity].
  - intros Hwalk. destruct (IH previous (current :: rest) Hwalk) as (l & Hchain & ->).
    exists (l ++ [current]). split; [eapply chain_step; eassumption |].
    now rewrite <- app_assoc.
  - intros [= <-]. exists [current]. split; [apply chain_end, Hprevious | reflexivity].
Qed.

Lemma chain_walk (g : Graph) (options : Options) (s : string) (st : SearchState)
    (n : string) (l : list string) :
  searchTrace g options s st ->
  Chain (cameFrom st) n l ->
  n = s \/ is_Some (cameFrom st !! n) ->
  exists cost, Walk g options s n l cost /\ gScore st !! n = Some cost.
Proof.
  intros [Hpred Hheap Hzero Hfirst] Hchain.
  induction Hchain as [n Hnone | n c l Hnc Hchain IH]; intros Hback.
  - destruct Hback as [-> | [c Hc]]; [| congruence].
    exists 0%Q. split; [constructor | exact Hzero].
  - destruct (Hpred n c Hnc)
      as (_ & Hcback & edge & node & gc & d & Hadm & <- & Hgc & Hgn).
    destruct (IH Hcback) as (cost & Hwalk & Hcost).
    assert (cost = gc) as -> by congruence.
    exists (gc + d)%Q. split; [| exact Hgn].
    econstructor; eassumption.
Qed.

Lemma chain_ranks (cameFrom : gmap string string) (rank : string -> nat)
    (n : string) (l : list string) :
  (forall n c, cameFrom !! n = Some c -> (rank c < rank n)%nat) ->
  Chain cameFrom n l ->
  NoDup l /\ forall x, x ∈ l -> (rank x <= rank n)%nat.
Proof.
  intros Hrank Hchain. induction Hchain as [n Hnone | n c l Hnc Hchain [Hdup Hle]].
  - split; [apply NoDup_singleton |]. intros x Hx.
    apply list_elem_of_singleton in Hx as ->. lia.
  - pose proof (Hrank n c Hnc) as Hlower. split.
    + apply NoDup_app. split; [exact Hdup |]. split; [| apply NoDup_singleton].
      intros x Hx Hn. apply list_elem_of_singleton in Hn as ->.
      specialize (Hle n Hx). lia.
    + intros x Hx. apply elem_of_app in Hx as [Hx | Hx].
      * specialize (Hle x Hx). lia.
      * apply list_elem_of_singleton in Hx as ->. lia.
Qed.

Lemma pop_nothing (heap rest : MinHeap.t) :
  MinHeap.pop heap = (None, rest) -> heap = [].
Proof.
  unfold MinHeap.pop. destruct heap as [| a [| b heap]]; [reflexivity | discriminate |].
  destruct (removelast (a :: b :: heap)); discriminate.
Qed.

(** How a search that returns a path ends: the goal is popped and the path
    is the chain of its predecessors. *)
Lemma findPath_ends_with_chain (g : Graph) (s t : string) (options : Options)
    (pr : PathResult.t) :
  findPath g s t options = Ret (Some pr) ->
  exists final,
    searchKeeps g options s t final
    /\ (t = s \/ is_Some (cameFrom final !! t))
    /\ Chain (cameFrom final) t (PathResult.nodeIds pr)
    /\ PathResult.distance pr = gScore final !! t.
Proof.
  unfold findPath.
  destruct (getNode g s) as [startNode |] eqn:Hstart; [| discriminate].
  destruct (getNode g t) as [endNode |] eqn:Hend; [| discriminate].
  intros Hloop.
  destruct (searchLoop_ends g endNode options s t _ _ _ (mk_is_Some _ _ Hend)
              (initialState_keeps g options s t startNode _ Hstart) Hloop)
    as (final & Hkeeps & Hstep).
  exists final. split; [exact Hkeeps |].
  revert Hstep. unfold searchStep.
  destruct (MinHeap.pop (openSet final)) as [[current |] rest] eqn:Hpop; [| discriminate].
  apply pop_Permutation in Hpop.
  destruct (String.eqb_spec (MinHeap.nodeId current) t) as [Heq | Hother].
  2: { destruct (bool_decide _); [discriminate |].
       destruct (relaxAll _ _ _ _ _ _); discriminate. }
  cbn [cameFrom gScore]. unfold reconstructPath. rewrite Heq.
  destruct (walkBack _ _ _ _) as [path | |] eqn:Hwalk; simpl; try discriminate.
  destruct (nodesOf g path) as [ns | |]; simpl; try discriminate.
  intros [= <-]. simpl.
  destruct (walkBack_chain _ _ _ _ _ Hwalk) as (l & Hchain & ->).
  rewrite app_nil_r. split; [| auto].
  destruct Hkeeps as (_ & [_ Hheap _ _] & _). rewrite <- Heq. apply Hheap.
  rewrite Hpop. apply list_elem_of_here.
Qed.

(** The path of a search that returns one is a walk whose cost is the
    distance returned. *)
Lemma findPath_walk (g : Graph) (s t : string) (options : Options)
    (pr : PathResult.t) :
  findPath g s t options = Ret (Some pr) ->
  exists cost,
    Walk g options s t (PathResult.nodeIds pr) cost
    /\ PathResult.distance pr = Some cost.
Proof.
  intros Hfound.
  destruct (findPath_ends_with_chain g s t options pr Hfound)
    as (final & (_ & Htrace & _) & Hback & Hchain & ->).
  destruct (chain_walk g options s final t _ Htrace Hchain Hback) as (cost & Hwalk & Hcost).
  eauto.
Qed.

End SearchWalkFacts.

Section FindPathProperties.
Context `{Platform}.
Import AStar.

(** The path [findPath] returns is a walk of the graph from the start to
    the goal: every step follows an edge that passes the edge tests to a
    node that passes the node test, and the distance returned is the sum of
    the lengths of these edges. *)
Theorem findPath_returns_a_walk (g : Graph) (s t : string) (options : Options)
    (pr : PathResult.t) :
  findPath g s t options = Ret (Some pr) ->
  exists cost,
    Walk g options s t (PathResult.nodeIds pr) cost
    /\ PathResult.distance pr = Some cost.
Proof.
  exact (findPath_walk g s t options pr).
Qed.

(** The path [findPath] returns visits no node twice. *)
Theorem findPath_visits_once (g : Graph) (s t : string) (options : Options)
    (pr : PathResult.t) :
  findPath g s t options = Ret (Some pr) -> NoDup (PathResult.nodeIds pr).
Proof.
  intros Hfound.
  destruct (findPath_ends_with_chain g s t options pr Hfound)
    as (final & ([rank [_ Hpred Hranked _]] & _) & _ & Hchain & _).
  set (closingRank := fun n => if bool_decide (n ∈ closedSet final)
                               then rank n else size (closedSet final)).
  apply (chain_ranks (cameFrom final) closingRank t); [| exact Hchain].
  intros n c Hnc. destruct (Hpred n c Hnc) as (Hc & _ & Hlower).
  unfold closingRank. rewrite (bool_decide_eq_true_2 _ Hc).
  destruct (bool_decide (n ∈ closedSet final)) eqn:Hn.
  - apply bool_decide_eq_true_1 in Hn. auto.
  - auto.
Qed.

(** [findPath] finds a path whenever there is one: if a walk along
    admissible edges leads from a known start node to the goal, the answer
    is not null. *)
Theorem findPath_finds_a_walk (g : Graph) (s t : string) (options : Options)
    (path : list string) (cost : Q) :
  is_Some (getNode g s) ->
  Walk g options s t path cost ->
  exists pr, findPath g s t options = Ret (Some pr).
Proof.
  intros [startNode Hstart] Hwalk.
  assert (Hend : is_Some (getNode g t)).
  { destruct Hwalk as [| c p k edge node d _ (_ & _ & Hnode & _)]; eauto. }
  destruct Hend as [endNode Hend].
  destruct (findPath_returns g s t options) as [[pr |] Hresult]; [eauto | exfalso].
  revert Hresult. unfold findPath. rewrite Hstart, Hend. intros Hloop.
  destruct (searchLoop_ends g endNode options s t _ _ _ (mk_is_Some _ _ Hend)
              (initialState_keeps g options s t startNode _ Hstart) Hloop)
    as (final & ([rank [_ _ _ Hgoal]] & [_ _ Hzero _] & [Hscored _ _ Hout]) & Hstep).
  assert (Hempty : openSet final = []).
  { revert Hstep. unfold searchStep.
    destruct (MinHeap.pop (openSet final)) as [[current |] rest] eqn:Hpop.
    - destruct (String.eqb _ t).
      + destruct (reconstructPath _ _ _ _); discriminate.
      + destruct (bool_decide _); [discriminate |].
        destruct (relaxAll _ _ _ _ _ _); discriminate.
    - intros _. eapply pop_nothing, Hpop. }
  assert (Hclosed : forall n, is_Some (gScore final !! n) -> n ∈ closedSet final).
  { intros n Hn. destruct (Hscored n Hn) as [Hn' | (item & Hitem & _)]; [exact Hn' |].
    rewrite Hempty in Hitem. apply elem_of_nil in Hitem. contradiction. }
  apply Hgoal. clear - Hwalk Hclosed Hzero Hout.
  induction Hwalk as [| c p k edge node d Hwalk IH Hadm].
  - apply Hclosed. rewrite Hzero. eauto.
  - apply Hclosed. eapply Hout; [exact IH | exact Hadm].
Qed.

(** From a node to itself [findPath] returns the path of that one node,
    of length zero and without segments. *)
Theorem findPath_to_itself (g : Graph) (s : string) (options : Options) (node : Node) :
  getNode g s = Some node ->
  findPath g s s options
  = Ret (Some (PathResult.mk [s] [node] [coords node] [floorId node] (Some 0%Q) [])).
Proof.
  intros Hnode. unfold findPath. rewrite Hnode.
  unfold searchBudget. cbn [searchLoop]. unfold searchStep, initialState.
  cbn [openSet closedSet gScore fScore cameFrom].
  change (MinHeap.push [] ?item) with [item]. cbn [MinHeap.pop MinHeap.nodeId].
  rewrite String.eqb_refl. unfold reconstructPath. cbn [walkBack].
  destruct (size (∅ : gmap string string)); cbn [walkBack]; rewrite lookup_empty;
    simpl; rewrite Hnode; simpl; rewrite lookup_singleton_eq; reflexivity.
Qed.

(** The loop of [findPath] ends on every graph: one round more than the
    graph has edges is enough, and no round throws. *)
Theorem findPath_loop_ends (g : Graph) (s t : string) (options : Options)
    (startNode endNode : Node) :
  getNode g s = Some startNode ->
  getNode g t = Some endNode ->
  exists result,
    searchLoop (searchBudget g) g t endNode options
               (initialState s (heuristic startNode endNode)) = Ret result
    /\ findPath g s t options = Ret result.
Proof.
  intros Hstart Hend. destruct (findPath_returns g s t options) as [result Hresult].
  exists result. split; [| exact Hresult].
  revert Hresult. unfold findPath. now rewrite Hstart, Hend.
Qed.

End FindPathProperties.

Section FindPathPropertiesOnThePlan.
#[local] Existing Instance Plan.platform.
Import AStar.

Lemma findPath_returns_a_walk_witness :
  exists pr cost,
    findPath (Plan.floorGraph true) "n1" "n2" noOptions = Ret (Some pr)
    /\ PathResult.nodeIds pr = ["n1"; "door_D1"; "n2"]
    /\ Walk (Plan.floorGraph true) noOptions "n1" "n2" (PathResult.nodeIds pr) cost
    /\ PathResult.distance pr = Some cost.
Proof.
  assert (Hfound : exists pr,
            findPath (Plan.floorGraph true) "n1" "n2" noOptions = Ret (Some pr)
            /\ PathResult.nodeIds pr = ["n1"; "door_D1"; "n2"]).
  { eexists. split; vm_compute; reflexivity. }
  destruct Hfound as (pr & Hfound & Hids).
  destruct (findPath_returns_a_walk _ _ _ _ pr Hfound) as (cost & Hwalk & Hcost).
  exists pr, cost. exact (conj Hfound (conj Hids (conj Hwalk Hcost))).
Defined.

Lemma findPath_visits_once_witness :
  exists pr,
    findPath (Plan.floorGraph true) "n1" "n2" noOptions = Ret (Some pr)
    /\ NoDup (PathResult.nodeIds pr).
Proof.
  assert (Hfound : exists pr,
            findPath (Plan.floorGraph true) "n1" "n2" noOptions = Ret (Some pr)).
  { eexists. vm_compute. reflexivity. }
  destruct Hfound as (pr & Hfound).
  exists pr. exact (conj Hfound (findPath_visits_once _ _ _ _ pr Hfound)).
Defined.

Lemma findPath_finds_a_walk_witness :
  Walk (Plan.floorGraph true) noOptions "n1" "n2" ["n1"; "door_D1"; "n2"]
       (0 + (249 # 100) + (249 # 100))%Q
  /\ exists pr, findPath (Plan.floorGraph true) "n1" "n2" noOptions = Ret (Some pr).
Proof.
  assert (Hwalk : Walk (Plan.floorGraph true) noOptions "n1" "n2" ["n1"; "door_D1"; "n2"]
                       (0 + (249 # 100) + (249 # 100))%Q).
  { apply (walk_step _ _ _ "door_D1" ["n1"; "door_D1"] _
                     (Plan.link "n2" (249 # 100)) Plan.n2).
    - apply (walk_step _ _ _ "n1" ["n1"] _
                       (Plan.link "door_D1" (249 # 100)) (Plan.doorD1 true)).
      + constructor.
      + split; [vm_compute; tauto |]. repeat split; vm_compute; reflexivity.
    - split; [vm_compute; tauto |]. repeat split; vm_compute; reflexivity. }
  split; [exact Hwalk |].
  apply (findPath_finds_a_walk (Plan.floorGraph true) "n1" "n2" noOptions
                               ["n1"; "door_D1"; "n2"] (0 + (249 # 100) + (249 # 100))%Q);
    [exists Plan.n1; vm_compute; reflexivity | exact Hwalk].
Defined.

Lemma findPath_to_itself_witness :
  findPath (Plan.floorGraph true) "n1" "n1" noOptions
  = Ret (Some (PathResult.mk ["n1"] [Plan.n1] [coords Plan.n1] ["F0"] (Some 0%Q) [])).
Proof.
  apply (findPath_to_itself (Plan.floorGraph true) "n1" noOptions Plan.n1).
  vm_compute. reflexivity.
Defined.

Lemma findPath_loop_ends_witness :
  exists result,
    searchLoop (searchBudget Plan.lineGraph) Plan.lineGraph "G" Plan.goal Plan.weighted
               (initialState "S" (heuristic (Plan.onLine "S" 0) Plan.goal)) = Ret result
    /\ findPath Plan.lineGraph "S" "G" Plan.weighted = Ret result.
Proof.
  apply (findPath_loop_ends Plan.lineGraph "S" "G" Plan.weighted
                            (Plan.onLine "S" 0) Plan.goal); vm_compute; reflexivity.
Defined.

End FindPathPropertiesOnThePlan.

(** ** The order of the open heap *)

Lemma parent_children (i k : nat) :
  (0 < i)%nat -> ((i - 1) / 2)%nat = k <-> i = (2 * k + 1)%nat \/ i = (2 * k + 2)%nat.
Proof.
  intros Hi. split.
  - intros <-. pose proof (Nat.div_mod_eq (i - 1) 2) as Hd.
    pose proof (Nat.mod_upper_bound (i - 1) 2). lia.
  - intros [-> | ->].
    + replace (2 * k + 1 - 1)%nat with (k * 2)%nat by lia. apply Nat.div_mul. lia.
    + replace (2 * k + 2 - 1)%nat with (1 + k * 2)%nat by lia.
      rewrite Nat.div_add by lia. reflexivity.
Qed.

Lemma parent_of_left (k : nat) : ((2 * k + 1 - 1) / 2)%nat = k.
Proof. apply parent_children; lia. Qed.

Lemma parent_of_right (k : nat) : ((2 * k + 2 - 1) / 2)%nat = k.
Proof. apply parent_children; lia. Qed.

Lemma parent_below (i : nat) : (0 < i)%nat -> ((i - 1) / 2 < i)%nat.
Proof.
  intros Hi. destruct (proj1 (parent_children i _ Hi) eq_refl); lia.
Qed.

Lemma num_ge_true (a b : Q) : num_ge a b = true <-> (b <= a)%Q.
Proof. unfold num_ge. apply Qle_bool_iff. Qed.

Lemma num_ge_false (a b : Q) : num_ge a b = false -> (a < b)%Q.
Proof.
  intros Hge. apply Qnot_le_lt. intros Hle. apply num_ge_true in Hle. congruence.
Qed.

Lemma lookup_swap (heap : MinHeap.t) (i j : nat) (a b : MinHeap.Item) (x : nat) :
  heap !! i = Some a -> heap !! j = Some b ->
  MinHeap.swap heap i j !! x
  = if decide (x = i) then Some b else if decide (x = j) then Some a else heap !! x.
Proof.
  intros Hi Hj. unfold MinHeap.swap. rewrite Hi, Hj.
  pose proof (lookup_lt_Some _ _ _ Hi). pose proof (lookup_lt_Some _ _ _ Hj).
  destruct (decide (x = i)) as [-> | Hxi].
  - apply list_lookup_insert_eq. now rewrite length_insert.
  - rewrite list_lookup_insert_ne by congruence.
    destruct (decide (x = j)) as [-> | Hxj].
    + now apply list_lookup_insert_eq.
    + now apply list_lookup_insert_ne.
Qed.

Lemma length_swap (heap : MinHeap.t) (i j : nat) :
  length (MinHeap.swap heap i j) = length heap.
Proof. apply Permutation_length, swap_Permutation. Qed.

Lemma heapOrderedBut_root (heap : MinHeap.t) :
  heapOrderedBut false 0 heap -> heapOrdered heap.
Proof.
  intros [Hmost _] i child parent Hi. apply Hmost; [exact Hi | lia].
Qed.

(** [bubbleUp] restores the order when only the entry at [index] may be
    below its parent. *)
Lemma bubbleUpLoop_ordered (rounds : nat) (heap : MinHeap.t) (index : nat) :
  (index <= rounds)%nat ->
  heapOrderedBut false index heap ->
  heapOrdered (MinHeap.bubbleUpLoop rounds heap index).
Proof.
  revert heap index. induction rounds as [| rounds IH]; intros heap index Hfuel Hbut.
  { simpl. assert (index = 0%nat) as -> by lia. apply heapOrderedBut_root; assumption. }
  cbn [MinHeap.bubbleUpLoop].
  destruct (Nat.ltb_spec 0 index) as [Hpos |];
    [| assert (index = 0%nat) as -> by lia; apply heapOrderedBut_root; assumption].
  destruct Hbut as [Hmost Hgrand].
  assert (Hall : forall child parent,
            heap !! index = Some child -> heap !! ((index - 1) / 2)%nat = Some parent ->
            (MinHeap.priority parent <= MinHeap.priority child)%Q -> heapOrdered heap).
  { intros child parent Hc Hp Hle i c p Hi Hic Hip.
    destruct (decide (i = index)) as [-> | Hne]; [congruence |]. eapply Hmost; eauto. }
  destruct (heap !! index) as [child |] eqn:Hchild.
  2: { intros i c p Hi Hic Hip. apply (Hmost i c p); try assumption. congruence. }
  destruct (heap !! ((index - 1) / 2)%nat) as [parent |] eqn:Hparent.
  2: { intros i c p Hi Hic Hip. apply (Hmost i c p); try assumption. congruence. }
  destruct (num_ge (MinHeap.priority child) (MinHeap.priority parent)) eqn:Hge.
  { apply num_ge_true in Hge. eapply Hall; eauto. }
  apply num_ge_false in Hge. pose proof (parent_below index Hpos) as Hbelow.
  set (up := ((index - 1) / 2)%nat) in *.
  apply IH; [lia |].
  assert (Hlook := lookup_swap heap index up child parent).
  split.
  - intros i c p Hi Hne. rewrite !Hlook by assumption.
    pose proof (parent_below i Hi) as Hib.
    destruct (decide (i = index)) as [-> | Hii].
    + intros [= <-]. fold up. rewrite decide_False by lia. rewrite decide_True by reflexivity.
      intros [= <-]. apply Qlt_le_weak, Hge.
    + rewrite (decide_False (P := i = up)) by congruence. intros Hic.
      destruct (decide (((i - 1) / 2)%nat = index)) as [Hpi | Hpi].
      * intros [= <-]. apply (Hgrand i c parent); auto.
      * destruct (decide (((i - 1) / 2)%nat = up)) as [Hpu | Hpu].
        -- intros [= <-]. apply Qle_trans with (MinHeap.priority parent);
             [apply Qlt_le_weak, Hge |].
           apply (Hmost i c parent); auto. now rewrite Hpu.
        -- intros Hip. apply (Hmost i c p); auto.
  - intros i c gp Hup Hpi Hi. rewrite !Hlook by assumption.
    pose proof (parent_below up Hup) as Hub.
    rewrite (decide_False (P := ((up - 1) / 2)%nat = index)) by lia.
    rewrite (decide_False (P := ((up - 1) / 2)%nat = up)) by lia.
    assert (Hpg : forall gp', heap !! ((up - 1) / 2)%nat = Some gp' ->
              (MinHeap.priority gp' <= MinHeap.priority parent)%Q).
    { intros gp' Hgp. apply (Hmost up parent gp'); auto. lia. }
    destruct (decide (i = index)) as [-> | Hii].
    + intros [= <-] Hgp. auto.
    + assert (i <> up) by (pose proof (parent_below i Hi); lia).
      rewrite decide_False by assumption. intros Hic Hgp.
      apply Qle_trans with (MinHeap.priority parent); [auto |].
      apply (Hmost i c parent); auto. now rewrite Hpi.
Qed.

Lemma push_heapOrdered (heap : MinHeap.t) (item : MinHeap.Item) :
  heapOrdered heap -> heapOrdered (MinHeap.push heap item).
Proof.
  intros Hordered. unfold MinHeap.push, MinHeap.bubbleUp.
  apply bubbleUpLoop_ordered; [lia |]. split.
  - intros i c p Hi Hne Hic Hip.
    assert (Hlt : (i < length heap)%nat).
    { pose proof (lookup_lt_Some _ _ _ Hic) as Hl. rewrite length_app in Hl. simpl in Hl. lia. }
    pose proof (parent_below i Hi).
    rewrite lookup_app_l in Hic, Hip by lia. eapply Hordered; eauto.
  - intros i c gp Hk Hpi Hi Hic _. exfalso.
    pose proof (lookup_lt_Some _ _ _ Hic) as Hl. rewrite length_app in Hl. simpl in Hl.
    apply parent_children in Hpi; [lia | exact Hi].
Qed.

Lemma smallerAt_cases (heap : MinHeap.t) (candidate smallest : nat) :
  (MinHeap.smallerAt heap candidate smallest = smallest
   /\ forall c s, heap !! candidate = Some c -> heap !! smallest = Some s ->
        (MinHeap.priority s <= MinHeap.priority c)%Q)
  \/ (MinHeap.smallerAt heap candidate smallest = candidate
      /\ exists c s, heap !! candidate = Some c /\ heap !! smallest = Some s
           /\ (MinHeap.priority c < MinHeap.priority s)%Q).
Proof.
  unfold MinHeap.smallerAt.
  destruct (heap !! candidate) as [c |]; [| left; split; [reflexivity | discriminate]].
  destruct (heap !! smallest) as [s |]; [| left; split; [reflexivity | discriminate]].
  destruct (num_lt (MinHeap.priority c) (MinHeap.priority s)) eqn:Hlt.
  - right. apply num_lt_true in Hlt. split; [reflexivity |]. exists c, s. auto.
  - left. apply num_lt_false in Hlt. split; [reflexivity |]. intros ? ? [= <-] [= <-]. exact Hlt.
Qed.

(** One exchange on the way down: the smaller child [s] of [k] moves up. *)
Lemma swap_down_ordered (heap : MinHeap.t) (k s : nat) (a b : MinHeap.Item) :
  heapOrderedBut true k heap ->
  heap !! k = Some a -> heap !! s = Some b ->
  (0 < s)%nat -> ((s - 1) / 2)%nat = k ->
  (MinHeap.priority b < MinHeap.priority a)%Q ->
  (forall i c, (0 < i)%nat -> ((i - 1) / 2)%nat = k -> heap !! i = Some c ->
     (MinHeap.priority b <= MinHeap.priority c)%Q) ->
  heapOrderedBut true s (MinHeap.swap heap k s).
Proof.
  intros [Hmost Hgrand] Hk Hs Hpos Hparent Hlt Hleast.
  assert (Hlook := fun x => lookup_swap heap k s a b x Hk Hs).
  assert (Hks : (k < s)%nat) by (rewrite <- Hparent; apply parent_below, Hpos).
  split.
  - intros i c p Hi Hne. rewrite !Hlook.
    pose proof (parent_below i Hi) as Hib.
    destruct (decide (((i - 1) / 2)%nat = s)) as [| _]; [contradiction |].
    destruct (decide (i = k)) as [-> | Hik].
    + intros [= <-]. destruct (decide (((k - 1) / 2)%nat = k)) as [| _]; [lia |].
      intros Hp. apply (Hgrand s b p); auto; lia.
    + destruct (decide (i = s)) as [-> | His].
      * intros [= <-]. rewrite Hparent. rewrite decide_True by reflexivity.
        intros [= <-]. apply Qlt_le_weak, Hlt.
      * intros Hic. destruct (decide (((i - 1) / 2)%nat = k)) as [Hpi | Hpi].
        -- intros [= <-]. eauto.
        -- intros Hip. eauto.
  - intros i c gp _ Hpi Hi. rewrite !Hlook.
    pose proof (parent_below i Hi) as Hib.
    destruct (decide (i = k)) as [| _]; [lia |].
    destruct (decide (i = s)) as [| _]; [lia |].
    rewrite Hparent. rewrite decide_True by reflexivity.
    intros Hic [= <-]. apply (Hmost i c b); auto.
    + rewrite Hpi. lia.
    + now rewrite Hpi.
Qed.

(** [bubbleDown] restores the order when only the entry at [index] may be
    above its children. *)
Lemma bubbleDownLoop_ordered (rounds : nat) (heap : MinHeap.t) (index : nat) :
  (length heap <= rounds + index)%nat ->
  heapOrderedBut true index heap ->
  heapOrdered (MinHeap.bubbleDownLoop rounds heap index).
Proof.
  revert heap index. induction rounds as [| rounds IH]; intros heap index Hfuel Hbut.
  { simpl. destruct Hbut as [Hmost _]. intros i c p Hi Hic Hip.
    apply (Hmost i c p); auto. intros Hpi.
    pose proof (lookup_lt_Some _ _ _ Hic). apply parent_children in Hpi; lia. }
  cbn [MinHeap.bubbleDownLoop].
  set (l := (2 * index + 1)%nat). set (r := (2 * index + 2)%nat).
  assert (Hkids : forall i, (0 < i)%nat -> ((i - 1) / 2)%nat = index -> i = l \/ i = r).
  { intros i Hi Hpi. apply parent_children in Hpi; [exact Hpi | exact Hi]. }
  assert (Hpl : ((l - 1) / 2)%nat = index) by apply parent_of_left.
  assert (Hpr : ((r - 1) / 2)%nat = index) by apply parent_of_right.
  destruct (smallerAt_cases heap l index) as [[Hl Hlle] | (Hl & cl & s & Hcl & Hs & Hllt)];
    rewrite Hl.
  - destruct (smallerAt_cases heap r index) as [[Hr Hrle] | (Hr & cr & s & Hcr & Hs & Hrlt)];
      rewrite Hr.
    + rewrite Nat.eqb_refl. destruct Hbut as [Hmost _]. intros i c p Hi Hic Hip.
      destruct (decide (((i - 1) / 2)%nat = index)) as [Hpi | Hpi]; [| eapply Hmost; eauto].
      rewrite Hpi in Hip. destruct (Hkids i Hi Hpi) as [-> | ->]; eauto.
    + destruct (Nat.eqb_spec r index) as [Heq | _]; [unfold r in Heq; lia |].
      apply IH; [rewrite length_swap; unfold r; lia |].
      apply (swap_down_ordered heap index r s cr); auto; [unfold r; lia |].
      intros i c Hi Hpi Hic. destruct (Hkids i Hi Hpi) as [-> | ->].
      * apply Qle_trans with (MinHeap.priority s); [apply Qlt_le_weak, Hrlt | eauto].
      * assert (c = cr) as -> by congruence. apply Qle_refl.
  - destruct (smallerAt_cases heap r l) as [[Hr Hrle] | (Hr & cr & s' & Hcr & Hs' & Hrlt)];
      rewrite Hr.
    + destruct (Nat.eqb_spec l index) as [Heq | _]; [unfold l in Heq; lia |].
      apply IH; [rewrite length_swap; unfold l; lia |].
      apply (swap_down_ordered heap index l s cl); auto; [unfold l; lia |].
      intros i c Hi Hpi Hic. destruct (Hkids i Hi Hpi) as [-> | ->].
      * assert (c = cl) as -> by congruence. apply Qle_refl.
      * eauto.
    + assert (s' = cl) as -> by congruence.
      destruct (Nat.eqb_spec r index) as [Heq | _]; [unfold r in Heq; lia |].
      apply IH; [rewrite length_swap; unfold r; lia |].
      apply (swap_down_ordered heap index r s cr); auto; [unfold r; lia | |].
      * eapply Qlt_trans; eassumption.
      * intros i c Hi Hpi Hic. destruct (Hkids i Hi Hpi) as [-> | ->].
        -- assert (c = cl) as -> by congruence. apply Qlt_le_weak, Hrlt.
        -- assert (c = cr) as -> by congruence. apply Qle_refl.
Qed.

(** In an ordered heap no entry has a priority below the root's. *)
Lemma heapOrdered_root_least (heap : MinHeap.t) (top : MinHeap.Item) :
  heapOrdered heap -> heap !! 0%nat = Some top ->
  forall i x, heap !! i = Some x -> (MinHeap.priority top <= MinHeap.priority x)%Q.
Proof.
  intros Hordered Htop i. induction i as [i IH] using lt_wf_ind. intros x Hx.
  destruct (Nat.eq_dec i 0) as [-> | Hne].
  - assert (x = top) as -> by congruence. apply Qle_refl.
  - assert (Hi : (0 < i)%nat) by lia. pose proof (parent_below i Hi) as Hbelow.
    destruct (lookup_lt_is_Some_2 heap ((i - 1) / 2)%nat) as [p Hp].
    { pose proof (lookup_lt_Some _ _ _ Hx). lia. }
    apply Qle_trans with (MinHeap.priority p); [eapply IH; eauto | eapply Hordered; eauto].
Qed.

Lemma lookup_removelast (heap : MinHeap.t) (i : nat) :
  (S i < length heap)%nat -> removelast heap !! i = heap !! i.
Proof.
  revert i. induction heap as [| a [| b heap] IH]; intros i Hlt; simpl in Hlt; try lia.
  change (removelast (a :: b :: heap)) with (a :: removelast (b :: heap)).
  destruct i as [| i]; [reflexivity |]. simpl. apply IH. simpl. lia.
Qed.

Lemma pop_heapOrdered (heap rest : MinHeap.t) (top : MinHeap.Item) :
  heapOrdered heap -> MinHeap.pop heap = (Some top, rest) -> heapOrdered rest.
Proof.
  intros Hordered. unfold MinHeap.pop. destruct heap as [| a [| b heap]].
  - discriminate.
  - intros [= <- <-]. intros i c p Hi Hic. destruct i; discriminate.
  - destruct (removelast (a :: b :: heap)) as [| x shorter] eqn:Hshort.
    { intros [= <- <-]. intros i c p Hi Hic. destruct i; discriminate. }
    intros [= <- <-]. unfold MinHeap.bubbleDown.
    apply bubbleDownLoop_ordered; [lia |].
    assert (Hlen : S (length (x :: shorter)) = length (a :: b :: heap)).
    { rewrite <- Hshort. change (removelast (a :: b :: heap)) with (a :: removelast (b :: heap)).
      simpl. f_equal. clear. revert b. induction heap as [| c heap IH]; intros b; [reflexivity |].
      change (removelast (b :: c :: heap)) with (b :: removelast (c :: heap)). simpl.
      now rewrite IH. }
    assert (Hlook : forall (final : MinHeap.Item) i, (0 < i)%nat ->
              (final :: shorter) !! i = (a :: b :: heap) !! i
              \/ (final :: shorter) !! i = None).
    { intros final i Hi. destruct i as [| i]; [lia |].
      change ((final :: shorter) !! S i) with ((x :: shorter) !! S i).
      rewrite <- Hshort.
      destruct (Nat.lt_ge_cases (S (S i)) (length (a :: b :: heap))) as [Hin | Hout].
      - left. now apply lookup_removelast.
      - right. apply lookup_ge_None_2. rewrite Hshort. simpl in *. lia. }
    split.
    + intros i c p Hi Hne Hic Hip.
      assert (Hpos : (0 < (i - 1) / 2)%nat).
      { destruct ((i - 1) / 2)%nat; [congruence | lia]. }
      match type of Hic with (?final :: _) !! _ = _ =>
        destruct (Hlook final i Hi) as [Hi' | Hi']; [| congruence];
        destruct (Hlook final _ Hpos) as [Hp' | Hp']; [| congruence]
      end.
      apply (Hordered i c p); [exact Hi | congruence | congruence].
    + intros i c gp Hk. lia.
Qed.

(** ** What [push] and [pop] keep *)

(** [push] keeps the heap ordered and adds exactly the new entry. *)
Theorem push_keeps_heap_order (heap : MinHeap.t) (item : MinHeap.Item) :
  heapOrdered heap ->
  heapOrdered (MinHeap.push heap item) /\ MinHeap.push heap item ≡ₚ item :: heap.
Proof.
  intros Hordered. split; [apply push_heapOrdered, Hordered | apply push_Permutation].
Qed.

(** [pop] answers null on the empty heap only; on an ordered heap it
    removes an entry of least priority and leaves the rest ordered. *)
Theorem pop_takes_least (heap : MinHeap.t) :
  heapOrdered heap ->
  match MinHeap.pop heap with
  | (None, rest) => heap = [] /\ rest = []
  | (Some top, rest) =>
      heap ≡ₚ top :: rest
      /\ heapOrdered rest
      /\ forall x, x ∈ heap -> (MinHeap.priority top <= MinHeap.priority x)%Q
  end.
Proof.
  intros Hordered. destruct (MinHeap.pop heap) as [[top |] rest] eqn:Hpop.
  - split; [apply pop_Permutation, Hpop |].
    split; [eapply pop_heapOrdered; eassumption |].
    intros x Hx. apply list_elem_of_lookup in Hx as [i Hi].
    apply (heapOrdered_root_least heap top Hordered) with (i := i); [| exact Hi].
    revert Hpop. unfold MinHeap.pop. destruct heap as [| a [| b heap]]; try discriminate.
    + intros [= <- _]. reflexivity.
    + destruct (removelast (a :: b :: heap)); intros [= <- _]; reflexivity.
  - revert Hpop. unfold MinHeap.pop. destruct heap as [| a [| b heap]]; try discriminate.
    intros [= <-]. auto.
Qed.

Lemma push_keeps_heap_order_witness :
  let heap := [MinHeap.mkItem "a" 1; MinHeap.mkItem "b" 3; MinHeap.mkItem "c" 2] in
  heapOrdered heap
  /\ MinHeap.push heap (MinHeap.mkItem "d" (1 # 2))
     = [MinHeap.mkItem "d" (1 # 2); MinHeap.mkItem "a" 1; MinHeap.mkItem "c" 2;
        MinHeap.mkItem "b" 3]
  /\ heapOrdered (MinHeap.push heap (MinHeap.mkItem "d" (1 # 2))).
Proof.
  intros heap.
  assert (Hordered : heapOrdered heap).
  { intros i c p Hi Hic Hip. destruct i as [| [| [| i]]]; try lia; try discriminate;
      injection Hic as <-; injection Hip as <-; simpl; unfold Qle; simpl; lia. }
  split; [exact Hordered |]. split; [reflexivity |].
  apply (push_keeps_heap_order heap (MinHeap.mkItem "d" (1 # 2)) Hordered).
Defined.

Lemma pop_takes_least_witness :
  let heap := [MinHeap.mkItem "a" 1; MinHeap.mkItem "b" 3; MinHeap.mkItem "c" 2] in
  heapOrdered heap
  /\ MinHeap.pop heap
     = (Some (MinHeap.mkItem "a" 1), [MinHeap.mkItem "c" 2; MinHeap.mkItem "b" 3])
  /\ heapOrdered [MinHeap.mkItem "c" 2; MinHeap.mkItem "b" 3].
Proof.
  intros heap.
  assert (Hordered : heapOrdered heap).
  { intros i c p Hi Hic Hip. destruct i as [| [| [| i]]]; try lia; try discriminate;
      injection Hic as <-; injection Hip as <-; simpl; unfold Qle; simpl; lia. }
  split; [exact Hordered |]. split; [reflexivity |].
  pose proof (pop_takes_least heap Hordered) as Hpop.
  change (MinHeap.pop heap)
    with (Some (MinHeap.mkItem "a" 1), [MinHeap.mkItem "c" 2; MinHeap.mkItem "b" 3]) in Hpop.
  apply Hpop.
Defined.

(** ** Nearest candidates and the edges of a floor *)

Lemma ltb_leb_false (a b : string) : String.ltb a b = true -> String.leb b a = false.
Proof.
  unfold String.leb, String.ltb. rewrite (String.compare_antisym a b).
  destruct (String.compare b a); simpl; intros; congruence.
Qed.

Section EdgeBuilderProperties.
Context `{Platform}.
Import EdgeBuilder.

Lemma aboveWorst_false (d w : Q) : aboveWorst d (Some w) = false -> (d <= w)%Q.
Proof. unfold aboveWorst. apply num_gt_false. Qed.

Lemma aboveWorst_true (d w : Q) : aboveWorst d (Some w) = true -> (w < d)%Q.
Proof. unfold aboveWorst, num_gt. apply num_lt_true. Qed.

Lemma findWorst_worstOf (rest scanned : list (Node * Q)) (wi : nat) (wd : option Q) :
  worstOf scanned wi wd ->
  worstOf (scanned ++ rest) (fst (findWorst rest (length scanned) wi wd))
          (snd (findWorst rest (length scanned) wi wd)).
Proof.
  revert scanned wi wd. induction rest as [| item rest IH]; intros scanned wi wd Hworst.
  - simpl. now rewrite app_nil_r.
  - cbn [findWorst].
    assert (Hnext : forall wi' wd', worstOf (scanned ++ [item]) wi' wd' ->
              worstOf (scanned ++ item :: rest)
                (fst (findWorst rest (S (length scanned)) wi' wd'))
                (snd (findWorst rest (S (length scanned)) wi' wd'))).
    { intros wi' wd' Hw. specialize (IH (scanned ++ [item]) wi' wd' Hw).
      rewrite length_app in IH. simpl in IH. rewrite Nat.add_1_r in IH.
      now rewrite <- app_assoc in IH. }
    destruct (aboveWorst (snd item) wd) eqn:Habove; apply Hnext.
    + split.
      * exists (fst item). rewrite lookup_app_r by lia. rewrite Nat.sub_diag.
        now destruct item.
      * intros x Hx. apply elem_of_app in Hx as [Hx | Hx].
        -- destruct wd as [w |]; [| simpl in Hworst; subst scanned; inversion Hx].
           destruct Hworst as [_ Hle]. apply Qle_trans with w; [auto |].
           apply Qlt_le_weak, aboveWorst_true, Habove.
        -- apply list_elem_of_singleton in Hx as ->. apply Qle_refl.
    + destruct wd as [w |]; [| discriminate]. destruct Hworst as [[n Hn] Hle]. split.
      * exists n. rewrite lookup_app_l by (eapply lookup_lt_Some; eauto). exact Hn.
      * intros x Hx. apply elem_of_app in Hx as [Hx | Hx]; [auto |].
        apply list_elem_of_singleton in Hx as ->. apply aboveWorst_false, Habove.
Qed.

Lemma insert_Permutation {A : Type} (l : list A) (i : nat) (x y : A) :
  l !! i = Some x -> y :: l ≡ₚ x :: <[i := y]> l.
Proof.
  intros Hi. pose proof (lookup_lt_Some _ _ _ Hi) as Hlt.
  rewrite insert_take_drop by exact Hlt.
  rewrite <- (take_drop_middle l i x Hi) at 1.
  rewrite <- !Permutation_middle. apply perm_swap.
Qed.

(** The loop of [selectNearestCandidates]: [best] holds as many of the
    eligible candidates seen so far as fit, and none of those left out is
    nearer than one that is kept. *)
Lemma selectLoop_keeps_nearest (nodeA : Node) (maxNeighbors : nat)
    (candidates : list Node) (best : list (Node * Q)) (wi : nat) (wd : option Q)
    (seen dropped : list Node) :
  worstOf best wi wd ->
  (forall x, x ∈ best -> snd x = distSqDegrees nodeA (fst x)) ->
  seen ≡ₚ map fst best ++ dropped ->
  ((length best < maxNeighbors)%nat -> dropped = []) ->
  (length best <= maxNeighbors)%nat ->
  (forall x d, x ∈ best -> d ∈ dropped -> (snd x <= distSqDegrees nodeA d)%Q) ->
  exists dropped',
    let best' := selectLoop nodeA candidates maxNeighbors best wi wd in
    (forall x, x ∈ best' -> snd x = distSqDegrees nodeA (fst x))
    /\ seen ++ eligible nodeA candidates ≡ₚ map fst best' ++ dropped'
    /\ ((length best' < maxNeighbors)%nat -> dropped' = [])
    /\ (length best' <= maxNeighbors)%nat
    /\ (forall x d, x ∈ best' -> d ∈ dropped' -> (snd x <= distSqDegrees nodeA d)%Q).
Proof.
  revert best wi wd seen dropped.
  induction candidates as [| c candidates IH];
    intros best wi wd seen dropped Hworst Hdist Hperm Hroom Hfull Hfar.
  - exists dropped. simpl. unfold eligible. simpl. rewrite app_nil_r. auto.
  - unfold eligible. cbn [selectLoop List.filter].
    destruct (String.eqb (id c) (id nodeA)); simpl negb; cbv iota.
    { apply (IH best wi wd seen dropped); assumption. }
    fold (eligible nodeA candidates).
    assert (Hshift : forall l, seen ++ c :: l ≡ₚ (seen ++ [c]) ++ l)
      by (intros l; now rewrite <- app_assoc).
    set (dc := distSqDegrees nodeA c).
    destruct (Nat.ltb_spec (length best) maxNeighbors) as [Hless | Hmore].
    + assert (Hstep : forall wi' wd', worstOf (best ++ [(c, dc)]) wi' wd' ->
                exists dropped',
                  let best' := selectLoop nodeA candidates maxNeighbors
                                          (best ++ [(c, dc)]) wi' wd' in
                  (forall x, x ∈ best' -> snd x = distSqDegrees nodeA (fst x))
                  /\ seen ++ c :: eligible nodeA candidates ≡ₚ map fst best' ++ dropped'
                  /\ ((length best' < maxNeighbors)%nat -> dropped' = [])
                  /\ (length best' <= maxNeighbors)%nat
                  /\ (forall x d, x ∈ best' -> d ∈ dropped' ->
                        (snd x <= distSqDegrees nodeA d)%Q)).
      { intros wi' wd' Hworst'.
        destruct (IH (best ++ [(c, dc)]) wi' wd' (seen ++ [c]) [])
          as (dropped' & Hd & Hp & Hr & Hf & Hn); try assumption.
        - intros x Hx. apply elem_of_app in Hx as [Hx | Hx]; [auto |].
          apply list_elem_of_singleton in Hx as ->. reflexivity.
        - rewrite (Hroom Hless) in Hperm. rewrite app_nil_r in *.
          rewrite map_app. simpl. now rewrite Hperm.
        - reflexivity.
        - rewrite length_app. simpl. lia.
        - intros x d _ Hd. inversion Hd.
        - exists dropped'. cbv zeta. rewrite Hshift. auto. }
      destruct (aboveWorst dc wd) eqn:Habove; apply Hstep.
      * split.
        -- exists c. rewrite length_app. simpl. rewrite Nat.add_sub.
           now rewrite list_lookup_middle.
        -- intros x Hx. apply elem_of_app in Hx as [Hx | Hx].
           ++ destruct wd as [w |]; [| simpl in Hworst; subst best; inversion Hx].
              destruct Hworst as [_ Hle]. apply Qle_trans with w; [auto |].
              apply Qlt_le_weak, aboveWorst_true, Habove.
           ++ apply list_elem_of_singleton in Hx as ->. apply Qle_refl.
      * destruct wd as [w |]; [| discriminate]. destruct Hworst as [[n Hn] Hle]. split.
        -- exists n. rewrite lookup_app_l by (eapply lookup_lt_Some; eauto). exact Hn.
        -- intros x Hx. apply elem_of_app in Hx as [Hx | Hx]; [auto |].
           apply list_elem_of_singleton in Hx as ->. apply aboveWorst_false, Habove.
    + assert (Hbest : length best = maxNeighbors) by lia.
      destruct (notBelowWorst dc wd) eqn:Hnot.
      * destruct (IH best wi wd (seen ++ [c]) (c :: dropped))
          as (dropped' & Hd & Hp & Hr & Hf & Hn); try assumption.
        -- rewrite Hperm. rewrite <- app_assoc.
           apply Permutation_app_head. symmetry. apply Permutation_cons_append.
        -- intros Hlt. lia.
        -- intros x d Hx Hd. apply elem_of_cons in Hd as [-> | Hd]; [| auto].
           destruct wd as [w |]; [| simpl in Hworst; subst best; inversion Hx].
           destruct Hworst as [_ Hle]. apply Qle_trans with w; [auto |].
           unfold notBelowWorst in Hnot. apply num_ge_true in Hnot. exact Hnot.
        -- exists dropped'. cbv zeta. rewrite Hshift. auto.
      * destruct wd as [w |]; [| discriminate]. destruct Hworst as [[n Hn] Hle].
        unfold notBelowWorst in Hnot. apply num_ge_false in Hnot.
        pose proof (findWorst_worstOf (<[wi := (c, dc)]> best) [] 0 None eq_refl) as Hrescan.
        cbn [app length] in Hrescan.
        destruct (findWorst (<[wi := (c, dc)]> best) 0 0 None) as [wi' wd'].
        cbn [fst snd] in Hrescan.
        assert (Hin : forall x, x ∈ <[wi := (c, dc)]> best -> x = (c, dc) \/ x ∈ best).
        { intros x Hx. apply list_elem_of_In in Hx.
          destruct (In_list_insert _ _ _ _ Hx) as [-> | Hx']; [auto | right].
          now apply list_elem_of_In. }
        destruct (IH (<[wi := (c, dc)]> best) wi' wd' (seen ++ [c]) (n :: dropped))
          as (dropped' & Hd & Hp & Hr & Hf & Hnear); try assumption.
        -- intros x Hx. destruct (Hin x Hx) as [-> | Hx']; [reflexivity | auto].
        -- rewrite Hperm. rewrite <- app_assoc.
           transitivity (c :: map fst best ++ dropped).
           { symmetry. rewrite app_assoc. apply Permutation_cons_append. }
           rewrite list_fmap_insert. cbn [fst].
           rewrite <- Permutation_middle.
           rewrite !app_comm_cons. apply Permutation_app_tail.
           apply (insert_Permutation (map fst best) wi n c).
           rewrite list_lookup_fmap, Hn. reflexivity.
        -- rewrite length_insert. lia.
        -- rewrite length_insert. lia.
        -- intros x d Hx Hd. apply elem_of_cons in Hd as [-> | Hd].
           ++ assert (Hw : distSqDegrees nodeA n = w).
              { symmetry. apply (Hdist (n, w)). eapply list_elem_of_lookup_2, Hn. }
              rewrite Hw. destruct (Hin x Hx) as [-> | Hx']; [| auto].
              apply Qlt_le_weak, Hnot.
           ++ destruct (Hin x Hx) as [-> | Hx']; [| auto].
              apply Qle_trans with w; [apply Qlt_le_weak, Hnot |].
              apply (Hfar (n, w)); [eapply list_elem_of_lookup_2, Hn | exact Hd].
        -- exists dropped'. cbv zeta. rewrite Hshift. auto.
Qed.

Lemma insertByDistSq_Permutation (item : Node * Q) (sorted : list (Node * Q)) :
  insertByDistSq item sorted ≡ₚ item :: sorted.
Proof.
  induction sorted as [| x sorted IH]; simpl; [reflexivity |].
  destruct (num_lt (snd item) (snd x)); [reflexivity |].
  rewrite IH. apply perm_swap.
Qed.

Lemma insertByDistSq_sorted (item : Node * Q) (sorted : list (Node * Q)) :
  StronglySorted (fun x y => (snd x <= snd y)%Q) sorted ->
  StronglySorted (fun x y => (snd x <= snd y)%Q) (insertByDistSq item sorted).
Proof.
  induction sorted as [| x sorted IH]; simpl; intros Hsorted.
  - repeat constructor.
  - apply StronglySorted_inv in Hsorted as [Hrest Hx].
    destruct (num_lt (snd item) (snd x)) eqn:Hlt.
    + apply num_lt_true in Hlt. constructor; [constructor; assumption |].
      constructor; [apply Qlt_le_weak, Hlt |].
      eapply Forall_impl; [exact Hx |]. intros y Hy. simpl in Hy.
      apply Qle_trans with (snd x); [apply Qlt_le_weak, Hlt | exact Hy].
    + apply num_lt_false in Hlt. constructor; [apply IH, Hrest |].
      rewrite (insertByDistSq_Permutation item sorted). constructor; assumption.
Qed.

Lemma sortByDistSq_sorts (best : list (Node * Q)) :
  sortByDistSq best ≡ₚ best
  /\ StronglySorted (fun x y => (snd x <= snd y)%Q) (sortByDistSq best).
Proof.
  unfold sortByDistSq.
  assert (Hgen : forall acc,
            StronglySorted (fun x y => (snd x <= snd y)%Q) acc ->
            fold_left (fun acc item => insertByDistSq item acc) best acc ≡ₚ acc ++ best
            /\ StronglySorted (fun x y => (snd x <= snd y)%Q)
                 (fold_left (fun acc item => insertByDistSq item acc) best acc)).
  { induction best as [| item best IH]; intros acc Hacc; simpl.
    - rewrite app_nil_r. auto.
    - destruct (IH (insertByDistSq item acc) (insertByDistSq_sorted item acc Hacc))
        as [Hperm Hsorted].
      split; [| exact Hsorted]. rewrite Hperm, insertByDistSq_Permutation.
      apply Permutation_middle. }
  destruct (Hgen [] (SSorted_nil _)) as [Hperm Hsorted]. auto.
Qed.

End EdgeBuilderProperties.

Section EdgeBuilderTheorems.
Context `{Platform}.
Import EdgeBuilder.

(** The selection in the terms of the loop. *)
Lemma selectNearestCandidates_spec (nodeA : Node) (candidates : list Node)
    (maxNeighbors : nat) :
  let selected := selectNearestCandidates nodeA candidates maxNeighbors in
  length selected = Nat.min maxNeighbors (length (eligible nodeA candidates))
  /\ StronglySorted (fun x y => (distSqDegrees nodeA x <= distSqDegrees nodeA y)%Q) selected
  /\ exists leftOut,
       eligible nodeA candidates ≡ₚ selected ++ leftOut
       /\ forall x y, x ∈ selected -> y ∈ leftOut ->
            (distSqDegrees nodeA x <= distSqDegrees nodeA y)%Q.
Proof.
  intros selected. subst selected. unfold selectNearestCandidates.
  destruct (selectLoop_keeps_nearest nodeA maxNeighbors candidates [] 0 None [] [])
    as (leftOut & Hdist & Hperm & Hroom & Hfull & Hfar);
    try reflexivity; try (simpl; lia); try (intros x d Hx; inversion Hx).
  { intros x Hx. inversion Hx. }
  cbv zeta in *. simpl in Hperm.
  set (best := selectLoop nodeA candidates maxNeighbors [] 0 None) in *.
  destruct (sortByDistSq_sorts best) as [Hsort Hsorted].
  assert (Hsame : forall x, x ∈ sortByDistSq best -> snd x = distSqDegrees nodeA (fst x)).
  { intros x Hx. apply Hdist. now rewrite <- Hsort. }
  split; [| split].
  - rewrite length_map, (Permutation_length Hsort).
    pose proof (Permutation_length Hperm) as Hlen.
    rewrite length_app, length_map in Hlen.
    destruct (Nat.lt_ge_cases (length best) maxNeighbors) as [Hlt | Hge].
    + rewrite (Hroom Hlt) in Hlen. simpl in Hlen. lia.
    + lia.
  - clear -Hsorted Hsame. induction Hsorted as [| x l Hl IH Hx]; simpl; constructor.
    + apply IH. intros y Hy. apply Hsame. now right.
    + apply Forall_map. rewrite Forall_forall in Hx |- *. intros y Hy. simpl.
      rewrite <- (Hsame x) by left. rewrite <- (Hsame y) by (right; exact Hy).
      apply Hx. exact Hy.
  - exists leftOut. split.
    + rewrite Hperm. apply Permutation_app_tail.
      change (map fst best ≡ₚ map fst (sortByDistSq best)). now rewrite Hsort.
    + intros x y Hx Hy. apply list_elem_of_fmap in Hx as [[x' d] [-> Hx]].
      rewrite Hsort in Hx. rewrite <- (Hdist _ Hx). apply (Hfar _ _ Hx Hy).
Qed.

(** [selectNearestCandidates] returns the [maxNeighbors] nearest of the
    candidates other than [nodeA] itself (all of them when there are
    fewer), nearest first by the squared planar distance in degrees: what
    is left out is at least as far as anything returned. *)
Theorem selectNearestCandidates_nearest (nodeA : Node) (candidates : list Node)
    (maxNeighbors : nat) :
  let selected := selectNearestCandidates nodeA candidates maxNeighbors in
  length selected = Nat.min maxNeighbors (length (eligible nodeA candidates))
  /\ StronglySorted
       (fun x y => (planarDistSq (coords nodeA) x <= planarDistSq (coords nodeA) y)%Q)
       selected
  /\ exists leftOut,
       eligible nodeA candidates ≡ₚ selected ++ leftOut
       /\ forall x y, x ∈ selected -> y ∈ leftOut ->
            (planarDistSq (coords nodeA) x <= planarDistSq (coords nodeA) y)%Q.
Proof.
  exact (selectNearestCandidates_spec nodeA candidates maxNeighbors).
Qed.

Lemma edgesFromNode_limit (eb : EdgeBuilder.t) (floor : string) (maxDistance : Q)
    (limit : nat) (nodeA : Node) (candidates : list Node) (added : nat) :
  (added <= limit)%nat ->
  (length (edgesFromNode eb floor maxDistance (Some (S limit)) nodeA candidates added)
   + 2 * added <= 2 * S limit)%nat.
Proof.
  revert added. induction candidates as [| b candidates IH]; intros added Hadded; simpl.
  - lia.
  - destruct (String.leb (id b) (id nodeA)); [auto |].
    destruct (num_gt _ _); [auto |].
    destruct (hasLineOfSight _ _ _ _); [| auto].
    simpl. destruct (Nat.leb_spec limit added) as [Hfull | Hroom]; simpl.
    + lia.
    + specialize (IH (S added) ltac:(lia)). lia.
Qed.

(** With a neighbour limit of one or more, [buildEdgesForFloor] emits at
    most that number of pairs, twice that number of edges, for each node it
    goes through: the edges of a floor number at most twice the limit times
    the nodes. *)
Theorem buildEdgesForFloor_limit (eb : EdgeBuilder.t) (nodes : list Node)
    (floor : string) (maxDistance : Q) (spatialIndex : SpatialIndex) (limit : nat) :
  (length (buildEdgesForFloor eb nodes floor maxDistance spatialIndex (Some (S limit)))
   <= 2 * S limit * length nodes)%nat.
Proof.
  unfold buildEdgesForFloor.
  set (cands := candidatesOf nodes maxDistance spatialIndex (Some (S limit))).
  clearbody cands. induction nodes as [| nodeA rest IH]; simpl; [lia |].
  rewrite length_app.
  pose proof (edgesFromNode_limit eb floor maxDistance limit nodeA (cands nodeA) 0
                ltac:(lia)).
  lia.
Qed.

Lemma edgesFromNode_complete (eb : EdgeBuilder.t) (floor : string) (maxDistance : Q)
    (neighborLimit : option nat) (nodeA nodeB : Node) (candidates : list Node)
    (added : nat) :
  neighborLimit = None \/ neighborLimit = Some 0%nat ->
  In nodeB candidates ->
  String.ltb (id nodeA) (id nodeB) = true ->
  (distanceSqMeters nodeA nodeB <= maxDistance * maxDistance)%Q ->
  hasLineOfSight eb (coords nodeA) (coords nodeB) floor = true ->
  let distance := Math_sqrt (distanceSqMeters nodeA nodeB) in
  In (mkBuiltEdge (id nodeA) (id nodeB) distance "walkable")
     (edgesFromNode eb floor maxDistance neighborLimit nodeA candidates added)
  /\ In (mkBuiltEdge (id nodeB) (id nodeA) distance "walkable")
        (edgesFromNode eb floor maxDistance neighborLimit nodeA candidates added).
Proof.
  intros Hlimit Hin Hid Hnear Hsight distance. subst distance.
  assert (Hnever : forall n, limitReached neighborLimit n = false)
    by (intros n; destruct Hlimit as [-> | ->]; reflexivity).
  revert added. induction candidates as [| b candidates IH]; intros added;
    [contradiction |].
  cbn [edgesFromNode]. destruct Hin as [-> | Hin].
  - rewrite (ltb_leb_false _ _ Hid).
    assert (Hfar : num_gt (distanceSqMeters nodeA nodeB) (maxDistance * maxDistance) = false).
    { unfold num_gt. destruct (num_lt _ _) eqn:Hlt; [| reflexivity].
      apply num_lt_true in Hlt. exfalso. eapply Qlt_not_le; eassumption. }
    rewrite Hfar, Hsight. simpl. auto.
  - specialize (IH Hin).
    destruct (String.leb (id b) (id nodeA)); [apply IH |].
    destruct (num_gt _ _); [apply IH |].
    destruct (hasLineOfSight eb (coords nodeA) (coords b) floor); [| apply IH].
    rewrite Hnever. destruct (IH (S added)). split; right; right; assumption.
Qed.

(** Without a neighbour limit ([maxNeighbors] not a finite number, or 0)
    no pair is passed over.  Take a node A of the list and a node B handed
    in for it: a node of the list within [maxDistance / 111320] degrees of
    A on both axes or, with a spatial index, a node the quad tree answers
    for that square.  If B has the larger id, lies at most [maxDistance]
    meters from A and is in line of sight, the two get their two edges,
    weighted by their distance in meters. *)
Theorem buildEdgesForFloor_complete (eb : EdgeBuilder.t) (nodes : list Node)
    (floor : string) (maxDistance : Q) (spatialIndex : SpatialIndex)
    (maxNeighbors : option nat) (nodeA nodeB : Node) :
  maxNeighbors = None \/ maxNeighbors = Some 0%nat ->
  In nodeA nodes ->
  match spatialIndex with
  | Some query => In nodeB (query (degreeBox maxDistance nodeA))
  | None => In nodeB nodes /\ withinDegreeBox maxDistance nodeA nodeB
  end ->
  String.ltb (id nodeA) (id nodeB) = true ->
  (squaredMeters nodeA nodeB <= maxDistance * maxDistance)%Q ->
  CollisionDetector.isPathClear (collisionDetector eb) (coords nodeA) (coords nodeB) floor
  = true ->
  let built := buildEdgesForFloor eb nodes floor maxDistance spatialIndex maxNeighbors in
  In (mkBuiltEdge (id nodeA) (id nodeB) (meterDistance nodeA nodeB) "walkable") built
  /\ In (mkBuiltEdge (id nodeB) (id nodeA) (meterDistance nodeA nodeB) "walkable") built.
Proof.
  intros Hlimit HA HB Hid Hnear Hclear built. subst built.
  assert (Hcandidate : In nodeB (candidatesOf nodes maxDistance spatialIndex maxNeighbors nodeA)).
  { unfold candidatesOf.
    assert (Hpool : candidatePoolLimit maxNeighbors = None)
      by (destruct Hlimit as [-> | ->]; reflexivity).
    rewrite Hpool. destruct spatialIndex as [query |]; [exact HB |].
    destruct HB as [Hin [Hlng Hlat]]. apply filter_In. split; [exact Hin |].
    apply andb_true_iff. split; apply num_le_true; assumption. }
  unfold buildEdgesForFloor.
  destruct (edgesFromNode_complete eb floor maxDistance maxNeighbors nodeA nodeB
              (candidatesOf nodes maxDistance spatialIndex maxNeighbors nodeA) 0)
    as [Hfwd Hbwd]; try assumption.
  split; apply in_flat_map; exists nodeA; auto.
Qed.

(** Without a spatial index the candidates of a node are the nodes of the
    list inside the square of [maxDistance / 111320] degrees around it,
    whatever the latitude: an edge joins two nodes of the list only if
    they lie that close in longitude and in latitude. *)
Theorem buildEdgesForFloor_degree_box (eb : EdgeBuilder.t) (nodes : list Node)
    (floor : string) (maxDistance : Q) (maxNeighbors : option nat) (e : BuiltEdge) :
  In e (buildEdgesForFloor eb nodes floor maxDistance None maxNeighbors) ->
  exists nodeA nodeB,
    In nodeA nodes /\ In nodeB nodes
    /\ withinDegreeBox maxDistance nodeA nodeB
    /\ ((from e = id nodeA /\ to e = id nodeB) \/ (from e = id nodeB /\ to e = id nodeA)).
Proof.
  unfold buildEdgesForFloor. intros Hin.
  apply in_flat_map in Hin as (nodeA & HA & Hin).
  destruct (edgesFromNode_sound _ _ _ _ _ _ _ _ Hin) as (nodeB & HB & (_ & _ & _ & Hshape) & _).
  exists nodeA, nodeB. split; [exact HA |].
  assert (Hpool : In nodeB
            (List.filter
               (fun n =>
                  num_le (Math_abs (lng (coords n) - lng (coords nodeA)))
                         (maxDistance / 111320)
                  && num_le (Math_abs (lat (coords n) - lat (coords nodeA)))
                            (maxDistance / 111320))%Q nodes)).
  { revert HB. unfold candidatesOf.
    destruct (candidatePoolLimit maxNeighbors) as [limit |]; [| auto].
    destruct (limit <? length _)%nat; [| auto]. apply In_selectNearestCandidates. }
  apply filter_In in Hpool as [Hnodes Hbox]. apply andb_true_iff in Hbox as [Hlng Hlat].
  apply num_le_true in Hlng, Hlat.
  split; [exact Hnodes |]. split; [split; assumption |].
  destruct Hshape as [-> | ->]; simpl; auto.
Qed.

End EdgeBuilderTheorems.

Section EdgeBuilderTheoremsOnThePlan.
#[local] Existing Instance Plan.platform.
Import EdgeBuilder.

Lemma buildEdgesForFloor_complete_witness :
  let eb := EdgeBuilder.mk Plan.detector in
  let floorNodes := [Plan.n1; Plan.n2; Plan.doorD1 true] in
  let built := buildEdgesForFloor eb floorNodes "F0" 15 None None in
  In (mkBuiltEdge "n1" "n2" (meterDistance Plan.n1 Plan.n2) "walkable") built
  /\ In (mkBuiltEdge "n2" "n1" (meterDistance Plan.n1 Plan.n2) "walkable") built.
Proof.
  intros eb floorNodes built.
  apply (buildEdgesForFloor_complete eb floorNodes "F0" 15 None None Plan.n1 Plan.n2).
  - left. reflexivity.
  - left. reflexivity.
  - split; [vm_compute; tauto |]. split; vm_compute; discriminate.
  - reflexivity.
  - vm_compute. discriminate.
  - vm_compute. reflexivity.
Defined.

Lemma buildEdgesForFloor_degree_box_witness :
  let eb := EdgeBuilder.mk Plan.detector in
  let floorNodes := [Plan.n1; Plan.n2; Plan.doorD1 true] in
  let e := mkBuiltEdge "n1" "n2" (Math_sqrt (distanceSqMeters Plan.n1 Plan.n2)) "walkable" in
  In e (buildEdgesForFloor eb floorNodes "F0" 15 None None)
  /\ exists nodeA nodeB,
       In nodeA floorNodes /\ In nodeB floorNodes
       /\ withinDegreeBox 15 nodeA nodeB
       /\ ((from e = id nodeA /\ to e = id nodeB) \/ (from e = id nodeB /\ to e = id nodeA)).
Proof.
  intros eb floorNodes e.
  assert (Hin : In e (buildEdgesForFloor eb floorNodes "F0" 15 None None))
    by (vm_compute; tauto).
  split; [exact Hin |].
  exact (buildEdgesForFloor_degree_box eb floorNodes "F0" 15 None e Hin).
Defined.

End EdgeBuilderTheoremsOnThePlan.

(** ** Segments and obstacles *)

Section CollisionDetectorProperties.
Context `{Platform}.
Import CollisionDetector.

Lemma crossesSomeObstacle_loop (cd : CollisionDetector.t) (a b : Coord) (floor : string)
    (obs : list Obstacle) :
  crossesSomeObstacle cd a b floor obs = true
  <-> exists before o after,
        obs = before ++ o :: after
        /\ Forall (goesOnAfter cd a b floor) before
        /\ stopsAt cd a b floor o.
Proof.
  induction obs as [| o obs IH]; cbn [crossesSomeObstacle].
  - split; [discriminate |]. intros (before & o & after & Heq & _).
    destruct before; discriminate.
  - fold (skipsObstacle a b o).
    assert (Hlater : goesOnAfter cd a b floor o -> ~ stopsAt cd a b floor o ->
              crossesSomeObstacle cd a b floor obs = true
              <-> exists before o' after,
                    o :: obs = before ++ o' :: after
                    /\ Forall (goesOnAfter cd a b floor) before
                    /\ stopsAt cd a b floor o').
    { intros Hpass Hnot. rewrite IH. split.
      - intros (before & o' & after & -> & Hbefore & HstopsAt).
        exists (o :: before), o', after. split; [reflexivity |]. split; [| exact HstopsAt].
        constructor; assumption.
      - intros (before & o' & after & Heq & Hbefore & HstopsAt).
        destruct before as [| x before]; simpl in Heq; injection Heq as <- ->.
        + contradiction.
        + apply Forall_cons in Hbefore as [_ Hbefore]. eauto 6. }
    destruct (skipsObstacle a b o) eqn:Hreach.
    { apply Hlater; [left; exact Hreach |]. intros [Hin _]. congruence. }
    destruct (turf_lineIntersect a b (feature o)) as [points |] eqn:Hturf.
    2: { split; [discriminate |]. intros (before & o' & after & Heq & Hbefore & HstopsAt).
         destruct before as [| x before]; simpl in Heq; injection Heq as <- ->.
         - destruct HstopsAt as (_ & points & Hp & _). congruence.
         - apply Forall_cons in Hbefore as [[Hout | (points & Hp & _)] _]; congruence. }
    destruct (forallb (fun q => isIntersectionAtDoor cd q floor) points) eqn:Hdoors.
    + assert (Hgo : (match points with
                     | [] => crossesSomeObstacle cd a b floor obs
                     | _ :: _ => crossesSomeObstacle cd a b floor obs
                     end) = crossesSomeObstacle cd a b floor obs) by (destruct points; reflexivity).
      rewrite Hgo. apply Hlater; [right; eauto |].
      intros (_ & points' & Hp & Hfalse). congruence.
    + destruct points as [| q points]; [discriminate |].
      split; [| reflexivity]. intros _. exists [], o, obs.
      split; [reflexivity |]. split; [constructor |]. split; [exact Hreach | eauto].
Qed.

Lemma skipsObstacle_outOfReach (a b : Coord) (o : Obstacle) :
  skipsObstacle a b o = true <-> outOfReach a b o.
Proof.
  unfold skipsObstacle, outOfReach.
  destruct (bbox o) as [box |]; [| split; [discriminate | intros (box & Hbox & _); discriminate]].
  unfold bboxDisjoint, lineBBox, inReach, num_gt. cbn [minX minY maxX maxY].
  rewrite !orb_true_iff, !num_lt_true. split.
  - intros Hapart. exists box. split; [reflexivity |]. intros (H1 & H2 & H3 & H4).
    destruct Hapart as [[[Hlt | Hlt] | Hlt] | Hlt];
      eapply Qlt_not_le; eassumption.
  - intros (box' & [= <-] & Hnot).
    destruct (Qlt_le_dec (maxX box) (Qmin (lng a) (lng b))) as [| H1]; [auto |].
    destruct (Qlt_le_dec (Qmax (lng a) (lng b)) (minX box)) as [| H2]; [auto |].
    destruct (Qlt_le_dec (maxY box) (Qmin (lat a) (lat b))) as [| H3]; [auto |].
    destruct (Qlt_le_dec (Qmax (lat a) (lat b)) (minY box)) as [| H4]; [auto |].
    exfalso. apply Hnot. auto.
Qed.

Lemma someDoorWithin_iff (q : Coord) (segments : list Feature) :
  someDoorWithin q segments = true
  <-> exists before segment after distance,
        segments = before ++ segment :: after
        /\ Forall (fun s => is_Some (turf_pointToLineDistance q s)) before
        /\ turf_pointToLineDistance q segment = Some distance
        /\ (distance <= 6 # 10)%Q.
Proof.
  induction segments as [| s segments IH]; cbn [someDoorWithin].
  - split; [discriminate |]. intros (before & segment & after & distance & Heq & _).
    destruct before; discriminate.
  - destruct (turf_pointToLineDistance q s) as [distance |] eqn:Hdistance.
    + unfold doorToleranceMeters.
      destruct (num_le distance (6 # 10)) eqn:Hnear.
      * apply num_le_true in Hnear. split; [intros _ | reflexivity].
        exists [], s, segments, distance. split; [reflexivity |]. split; [constructor | auto].
      * rewrite IH. split.
        -- intros (before & segment & after & distance' & -> & Hbefore & Hrest).
           exists (s :: before), segment, after, distance'. split; [reflexivity |].
           split; [constructor; [rewrite Hdistance; eauto | exact Hbefore] | exact Hrest].
        -- intros (before & segment & after & distance' & Heq & Hbefore & Hsegment & Hle).
           destruct before as [| x before]; simpl in Heq; injection Heq as <- ->.
           ++ rewrite Hdistance in Hsegment. injection Hsegment as <-.
              apply num_le_true in Hle. congruence.
           ++ apply Forall_cons in Hbefore as [_ Hbefore]. eauto 10.
    + split; [discriminate |].
      intros (before & segment & after & distance' & Heq & Hbefore & Hsegment & _).
      destruct before as [| x before]; simpl in Heq; injection Heq as <- ->.
      * congruence.
      * apply Forall_cons in Hbefore as [[d Hd] _]. congruence.
Qed.

Lemma isIntersectionAtDoor_atDoor (cd : CollisionDetector.t) (q : Coord) (floor : string) :
  isIntersectionAtDoor cd q floor = true <-> atDoor cd q floor.
Proof.
  unfold isIntersectionAtDoor, atDoor.
  destruct (doorSegments cd !! floor) as [segments |].
  - transitivity (someDoorWithin q segments = true).
    { destruct segments; [| reflexivity]. reflexivity. }
    rewrite someDoorWithin_iff. split.
    + intros (before & segment & after & distance & -> & Hrest). eauto 10.
    + intros (before & segment & after & distance & [= ->] & Hrest). eauto 10.
  - split; [discriminate |].
    intros (before & segment & after & distance & Heq & _). discriminate.
Qed.

Lemma goesOnAfter_passedOver (cd : CollisionDetector.t) (a b : Coord) (floor : string)
    (o : Obstacle) :
  goesOnAfter cd a b floor o <-> passedOver cd a b floor o.
Proof.
  unfold goesOnAfter, passedOver. rewrite skipsObstacle_outOfReach.
  apply or_iff_compat_l. split.
  - intros (points & Hpoints & Hall). exists points. split; [exact Hpoints |].
    intros q Hq. apply isIntersectionAtDoor_atDoor.
    rewrite forallb_forall in Hall. apply Hall, Hq.
  - intros (points & Hpoints & Hall). exists points. split; [exact Hpoints |].
    apply forallb_forall. intros q Hq. apply isIntersectionAtDoor_atDoor, Hall, Hq.
Qed.

Lemma stopsAt_blocks (cd : CollisionDetector.t) (a b : Coord) (floor : string)
    (o : Obstacle) :
  stopsAt cd a b floor o <-> blocks cd a b floor o.
Proof.
  unfold stopsAt, blocks. rewrite <- skipsObstacle_outOfReach. split.
  - intros (Hreach & points & Hpoints & Hsome).
    split; [congruence |]. exists points.
    assert (Hq : exists q, In q points /\ isIntersectionAtDoor cd q floor = false).
    { clear Hpoints. induction points as [| p points IH]; [discriminate |].
      simpl in Hsome. destruct (isIntersectionAtDoor cd p floor) eqn:Hp.
      - destruct (IH Hsome) as (q & Hq & Hfalse). exists q. split; [right |]; assumption.
      - exists p. split; [left; reflexivity | exact Hp]. }
    destruct Hq as (q & Hq & Hfalse). exists q. split; [exact Hpoints |].
    split; [exact Hq |]. rewrite <- isIntersectionAtDoor_atDoor. congruence.
  - intros (Hreach & points & q & Hpoints & Hq & Hnot).
    split; [destruct (skipsObstacle a b o); [contradiction | reflexivity] |].
    exists points. split; [exact Hpoints |].
    destruct (forallb (fun q => isIntersectionAtDoor cd q floor) points) eqn:Hall;
      [| reflexivity].
    rewrite forallb_forall in Hall. exfalso. apply Hnot.
    apply isIntersectionAtDoor_atDoor, Hall, Hq.
Qed.

Lemma crossesSomeObstacle_iff (cd : CollisionDetector.t) (a b : Coord) (floor : string)
    (obs : list Obstacle) :
  crossesSomeObstacle cd a b floor obs = true
  <-> exists before o after,
        obs = before ++ o :: after
        /\ Forall (passedOver cd a b floor) before
        /\ blocks cd a b floor o.
Proof.
  rewrite crossesSomeObstacle_loop. split.
  - intros (before & o & after & Heq & Hbefore & Hstops).
    exists before, o, after. split; [exact Heq |].
    split; [| apply stopsAt_blocks, Hstops].
    eapply Forall_impl; [exact Hbefore |]. intros x. apply goesOnAfter_passedOver.
  - intros (before & o & after & Heq & Hbefore & Hblocks).
    exists before, o, after. split; [exact Heq |].
    split; [| apply stopsAt_blocks, Hblocks].
    eapply Forall_impl; [exact Hbefore |]. intros x. apply goesOnAfter_passedOver.
Qed.

End CollisionDetectorProperties.

Section CollisionDetectorTheorems.
Context `{Platform}.
Import CollisionDetector.

(** [lineIntersectsObstacle] reports a collision exactly when, going
    through the obstacles of the floor in order, it comes to one that
    blocks the segment (its bounding box, if it has one, overlaps the span
    of the segment, and the segment meets it in a point that is not within
    0.6 meters of a door), having passed over all the obstacles before it
    (out of reach, or met in no point, or at doors only); an exception of
    turf on the way ends the check with no collision. *)
Theorem lineIntersectsObstacle_iff (cd : CollisionDetector.t) (a b : Coord)
    (floor : string) :
  lineIntersectsObstacle cd a b floor = true
  <-> exists before o after,
        obstacles cd !! floor = Some (before ++ o :: after)
        /\ Forall (passedOver cd a b floor) before
        /\ blocks cd a b floor o.
Proof.
  unfold lineIntersectsObstacle.
  destruct (obstacles cd !! floor) as [obs |] eqn:Hobs.
  - transitivity (crossesSomeObstacle cd a b floor obs = true).
    { destruct obs; [| reflexivity]. simpl. reflexivity. }
    rewrite crossesSomeObstacle_iff. split.
    + intros (before & o & after & -> & Hrest). eauto.
    + intros (before & o & after & [= ->] & Hrest). eauto.
  - split; [discriminate |]. intros (before & o & after & Heq & _). discriminate.
Qed.

(** The relaxed check is never stricter than the strict one. *)
Theorem isPathClear_isPathClearRelaxed (cd : CollisionDetector.t) (a b : Coord)
    (floor : string) :
  isPathClear cd a b floor = true -> isPathClearRelaxed cd a b floor = true.
Proof.
  unfold isPathClearRelaxed, isPathClear.
  destruct (num_lt (distMeters a b) 2); [reflexivity |].
  destruct (num_lt (distMeters a b) 10); [| auto].
  destruct (pointInObstacle cd a floor || pointInObstacle cd b floor); [discriminate | auto].
Qed.

(** On a floor without obstacles, unknown or with an empty list, every
    segment is clear for both checks. *)
Theorem isPathClear_without_obstacles (cd : CollisionDetector.t) (a b : Coord)
    (floor : string) :
  obstacles cd !! floor = None \/ obstacles cd !! floor = Some [] ->
  isPathClear cd a b floor = true /\ isPathClearRelaxed cd a b floor = true.
Proof.
  intros Hnone.
  assert (Hclear : isPathClear cd a b floor = true).
  { unfold isPathClear, pointInObstacle, lineIntersectsObstacle.
    destruct Hnone as [-> | ->]; [reflexivity |].
    destruct (isIntersectionAtDoor cd a floor), (isIntersectionAtDoor cd b floor);
      reflexivity. }
  split; [exact Hclear | apply isPathClear_isPathClearRelaxed, Hclear].
Qed.




End CollisionDetectorTheorems.

Section CollisionDetectorTheoremsOnThePlan.
#[local] Existing Instance Plan.platform.
Import CollisionDetector.

Lemma isPathClear_isPathClearRelaxed_witness :
  isPathClear Plan.detector Plan.inRoomA Plan.inRoomB "F0" = true
  /\ isPathClearRelaxed Plan.detector Plan.inRoomA Plan.inRoomB "F0" = true.
Proof.
  assert (Hclear : isPathClear Plan.detector Plan.inRoomA Plan.inRoomB "F0" = true)
    by (vm_compute; reflexivity).
  split; [exact Hclear |].
  exact (isPathClear_isPathClearRelaxed Plan.detector Plan.inRoomA Plan.inRoomB "F0" Hclear).
Defined.

Lemma isPathClear_without_obstacles_witness :
  isPathClear Plan.detector Plan.leftOfPillar Plan.rightOfPillar "F1" = true
  /\ isPathClearRelaxed Plan.detector Plan.leftOfPillar Plan.rightOfPillar "F1" = true.
Proof.
  apply (isPathClear_without_obstacles Plan.detector Plan.leftOfPillar Plan.rightOfPillar "F1").
  left. vm_compute. reflexivity.
Defined.

End CollisionDetectorTheoremsOnThePlan.

(** ** The capacity of the path cache *)

Section PathCacheProperties.
Context `{Platform}.
Context {Route : Type}.
Import PathCache.

Lemma lookupKey_None (key : string) (entries : list (string * Route)) :
  lookupKey key entries = None <-> ~ In key (map fst entries).
Proof.
  induction entries as [| [k v] entries IH]; simpl; [tauto |].
  destruct (String.eqb_spec k key) as [-> | Hne].
  - split; [discriminate | intros Hno; exfalso; auto].
  - rewrite IH. tauto.
Qed.

Lemma lookupKey_setKey_ne (key other : string) (v : Route)
    (entries : list (string * Route)) :
  other <> key -> lookupKey other (setKey key v entries) = lookupKey other entries.
Proof.
  intros Hne. induction entries as [| [k v'] entries IH]; simpl.
  - destruct (String.eqb_spec key other); [congruence | reflexivity].
  - destruct (String.eqb_spec k key) as [-> | Hk]; simpl.
    + destruct (String.eqb_spec key other); [congruence | reflexivity].
    + now rewrite IH.
Qed.

Lemma lookupKey_deleteKey_ne (key other : string) (entries : list (string * Route)) :
  other <> key -> lookupKey other (deleteKey key entries) = lookupKey other entries.
Proof.
  intros Hne. unfold deleteKey. induction entries as [| [k v'] entries IH]; simpl.
  - reflexivity.
  - destruct (String.eqb_spec k key) as [-> | Hk]; simpl.
    + destruct (String.eqb_spec key other); [congruence | exact IH].
    + now rewrite IH.
Qed.

Lemma lookupKey_app (key : string) (front back : list (string * Route)) :
  lookupKey key (front ++ back)
  = match lookupKey key front with Some v => Some v | None => lookupKey key back end.
Proof.
  induction front as [| [k v] front IH]; simpl; [reflexivity |].
  destruct (String.eqb k key); [reflexivity | exact IH].
Qed.

Lemma keys_setKey (key : string) (v : Route) (entries : list (string * Route)) :
  map fst (setKey key v entries)
  = match lookupKey key entries with
    | Some _ => map fst entries
    | None => map fst entries ++ [key]
    end.
Proof.
  induction entries as [| [k v'] entries IH]; simpl; [reflexivity |].
  destruct (String.eqb_spec k key) as [-> | Hk]; simpl; [reflexivity |].
  rewrite IH. now destruct (lookupKey key entries).
Qed.

Lemma keys_deleteKey (key : string) (entries : list (string * Route)) :
  map fst (deleteKey key entries)
  = List.filter (fun k => negb (String.eqb k key)) (map fst entries).
Proof.
  unfold deleteKey. induction entries as [| [k v] entries IH]; simpl; [reflexivity |].
  destruct (String.eqb k key); simpl; now rewrite IH.
Qed.

Lemma deleteKey_absent (key : string) (entries : list (string * Route)) :
  ~ In key (map fst entries) -> deleteKey key entries = entries.
Proof.
  unfold deleteKey. induction entries as [| [k v] entries IH]; simpl; intros Hno;
    [reflexivity |].
  destruct (String.eqb_spec k key) as [-> | _]; simpl; [exfalso; auto |].
  rewrite IH; auto.
Qed.

Lemma filter_absent (key : string) (keys : list string) :
  ~ In key keys -> List.filter (fun k => negb (String.eqb k key)) keys = keys.
Proof.
  induction keys as [| k keys IH]; simpl; intros Hno; [reflexivity |].
  destruct (String.eqb_spec k key) as [-> | _]; simpl; [exfalso; auto |].
  rewrite IH; auto.
Qed.

Lemma NoDup_filter_keys (key : string) (keys : list string) :
  NoDup keys -> NoDup (List.filter (fun k => negb (String.eqb k key)) keys).
Proof.
  induction 1 as [| k keys Hk _ IH]; simpl; [constructor |].
  destruct (negb (String.eqb k key)); [| exact IH].
  constructor; [| exact IH]. rewrite list_elem_of_In, filter_In.
  rewrite <- list_elem_of_In. tauto.
Qed.

Lemma evicted_keys (pc : PathCache.t Route) :
  distinctKeys pc ->
  NoDup (map fst (evicted pc))
  /\ (length (evicted pc) <= length (cache pc))%nat
  /\ ((0 < maxSize pc)%nat -> (length (cache pc) <= maxSize pc)%nat ->
      (length (evicted pc) < maxSize pc)%nat).
Proof.
  unfold distinctKeys, evicted. intros Hdup.
  destruct (Nat.leb_spec (maxSize pc) (length (cache pc))) as [Hfull | Hroom].
  - destruct (cache pc) as [| [k v] entries] eqn:Hcache; simpl in *.
    + split; [constructor |]. split; lia.
    + apply NoDup_cons in Hdup as [Hk Hdup]. rewrite String.eqb_refl. simpl.
      fold (deleteKey k entries). rewrite list_elem_of_In in Hk.
      rewrite (deleteKey_absent k entries Hk). split; [exact Hdup |]. split; lia.
  - split; [exact Hdup |]. split; lia.
Qed.

Lemma lookupKey_setKey_eq (key : string) (v : Route) (entries : list (string * Route)) :
  lookupKey key (setKey key v entries) = Some v.
Proof.
  induction entries as [| [k v'] entries IH]; simpl.
  - now rewrite String.eqb_refl.
  - destruct (String.eqb_spec k key) as [-> | Hk]; simpl.
    + now rewrite String.eqb_refl.
    + destruct (String.eqb_spec k key); [contradiction | exact IH].
Qed.

Lemma lookupKey_moved (key : string) (v : Route) (entries : list (string * Route)) :
  lookupKey key (deleteKey key entries ++ [(key, v)]) = Some v.
Proof.
  rewrite lookupKey_app.
  assert (Hgone : lookupKey key (deleteKey key entries) = None).
  { apply lookupKey_None. rewrite keys_deleteKey, filter_In.
    rewrite String.eqb_refl. intros [_ Hfalse]. discriminate. }
  rewrite Hgone. simpl. now rewrite String.eqb_refl.
Qed.

Lemma set_keeps (pc : PathCache.t Route) (startCoords endCoords : Coord)
    (startFloorId endFloorId : string) (options : Options) (route : Route)
    (other : string) :
  other <> generateKey startCoords endCoords startFloorId endFloorId options ->
  (forall v rest, cache pc = (other, v) :: rest -> (length (cache pc) < maxSize pc)%nat) ->
  lookupKey other
    (cache (set pc startCoords endCoords startFloorId endFloorId options route))
  = lookupKey other (cache pc).
Proof.
  intros Hother Hfirst. unfold set. cbn [cache].
  rewrite lookupKey_setKey_ne by exact Hother.
  destruct (Nat.leb_spec (maxSize pc) (length (cache pc))) as [Hfull | Hroom];
    [| reflexivity].
  destruct (cache pc) as [| [k v] entries] eqn:Hcache; [reflexivity |].
  apply lookupKey_deleteKey_ne. intros ->.
  specialize (Hfirst v entries eq_refl). lia.
Qed.

End PathCacheProperties.

Section PathCacheTheorems.
Context `{Platform}.
Context {Route : Type}.
Import PathCache.

(** [set] keeps the keys distinct and the cache within its capacity of
    one entry or more. *)
Theorem set_within_capacity (pc : PathCache.t Route) (startCoords endCoords : Coord)
    (startFloorId endFloorId : string) (options : Options) (route : Route) :
  distinctKeys pc ->
  (0 < maxSize pc)%nat ->
  (length (cache pc) <= maxSize pc)%nat ->
  let pc' := set pc startCoords endCoords startFloorId endFloorId options route in
  distinctKeys pc'
  /\ (length (cache pc') <= maxSize pc')%nat
  /\ maxSize pc' = maxSize pc.
Proof.
  intros Hdup Hpos Hfits pc'. subst pc'. unfold set, distinctKeys. cbn [cache maxSize].
  fold (evicted pc). destruct (evicted_keys pc Hdup) as (Hdup' & _ & Hless).
  specialize (Hless Hpos Hfits).
  set (key := generateKey startCoords endCoords startFloorId endFloorId options).
  pose proof (keys_setKey key route (evicted pc)) as Hkeys.
  split; [| split; [| reflexivity]].
  - rewrite Hkeys. destruct (lookupKey key (evicted pc)) eqn:Hlook; [exact Hdup' |].
    apply NoDup_app. split; [exact Hdup' |]. split; [| apply NoDup_singleton].
    intros k Hk Hkey. apply list_elem_of_singleton in Hkey as ->.
    apply lookupKey_None in Hlook. apply Hlook. now apply list_elem_of_In.
  - rewrite <- (length_map fst), Hkeys.
    destruct (lookupKey key (evicted pc)); rewrite ?length_app, length_map; simpl; lia.
Qed.

(** [set] loses no entry but the oldest: every other key is answered after
    [set] as before. *)
Theorem set_evicts_oldest_only (pc : PathCache.t Route) (startCoords endCoords : Coord)
    (startFloorId endFloorId : string) (options : Options) (route : Route)
    (other : string) :
  other <> generateKey startCoords endCoords startFloorId endFloorId options ->
  (forall v rest, cache pc = (other, v) :: rest -> (length (cache pc) < maxSize pc)%nat) ->
  lookupKey other
    (cache (set pc startCoords endCoords startFloorId endFloorId options route))
  = lookupKey other (cache pc).
Proof.
  apply set_keeps.
Qed.

(** A hit makes the entry the most recent one: in a cache for two entries
    or more, the next [set] of another key does not evict it. *)
Theorem get_refreshes_entry (pc : PathCache.t Route)
    (startCoords endCoords : Coord) (startFloorId endFloorId : string) (options : Options)
    (startCoords' endCoords' : Coord) (startFloorId' endFloorId' : string)
    (options' : Options) (cached route : Route) :
  distinctKeys pc ->
  (2 <= maxSize pc)%nat ->
  fst (get pc startCoords endCoords startFloorId endFloorId options) = Some cached ->
  generateKey startCoords' endCoords' startFloorId' endFloorId' options'
  <> generateKey startCoords endCoords startFloorId endFloorId options ->
  let hit := snd (get pc startCoords endCoords startFloorId endFloorId options) in
  fst (get (set hit startCoords' endCoords' startFloorId' endFloorId' options' route)
           startCoords endCoords startFloorId endFloorId options)
  = Some cached.
Proof.
  intros Hdup Hsize Hhit Hother hit. subst hit.
  set (key := generateKey startCoords endCoords startFloorId endFloorId options) in *.
  set (moved := mk (deleteKey key (cache pc) ++ [(key, cached)]) (maxSize pc)).
  assert (Hget : get pc startCoords endCoords startFloorId endFloorId options
                 = (Some cached, moved)).
  { revert Hhit. unfold get. fold key.
    destruct (lookupKey key (cache pc)) as [value |]; [| discriminate].
    cbn [fst]. intros [= ->]. reflexivity. }
  rewrite Hget. cbn [snd].
  assert (Hmoved : lookupKey key (cache moved) = Some cached).
  { simpl. rewrite lookupKey_app.
    assert (Hgone : lookupKey key (deleteKey key (cache pc)) = None).
    { apply lookupKey_None. rewrite keys_deleteKey, filter_In.
      rewrite String.eqb_refl. intros [_ Hfalse]. discriminate. }
    rewrite Hgone. simpl. now rewrite String.eqb_refl. }
  assert (Hkept : lookupKey key
            (cache (set moved startCoords' endCoords' startFloorId' endFloorId' options' route))
            = lookupKey key (cache moved)).
  { apply set_keeps; [congruence |].
    intros v rest Hfirst. simpl in Hfirst. cbn [maxSize cache moved].
    destruct (deleteKey key (cache pc)) as [| [k v'] entries] eqn:Hdeleted.
    - simpl. lia.
    - exfalso. simpl in Hfirst. injection Hfirst as -> _ _.
      assert (Hin : In key (map fst (deleteKey key (cache pc)))).
      { rewrite Hdeleted. left. reflexivity. }
      rewrite keys_deleteKey, filter_In, String.eqb_refl in Hin.
      destruct Hin as [_ Hfalse]. discriminate. }
  unfold get. fold key. rewrite Hkept, Hmoved. reflexivity.
Qed.

End PathCacheTheorems.

Section PathCacheCapacityOnThePlan.
#[local] Existing Instance Plan.platform.
Import PathCache.

Lemma set_within_capacity_witness :
  let pc := set (mk ([] : list (string * nat)) 1) (0%Q, 0%Q) (1%Q, 1%Q) "F1" "F1" noOptions 7%nat in
  let pc' := set pc (2%Q, 2%Q) (3%Q, 3%Q) "F1" "F1" noOptions 8%nat in
  length (cache pc) = 1%nat
  /\ distinctKeys pc' /\ (length (cache pc') <= maxSize pc')%nat /\ maxSize pc' = 1%nat.
Proof.
  intros pc pc'. split; [reflexivity |].
  apply (set_within_capacity pc (2%Q, 2%Q) (3%Q, 3%Q) "F1" "F1" noOptions 8%nat).
  - unfold distinctKeys. by_decision.
  - vm_compute. lia.
  - vm_compute. lia.
Defined.

Lemma set_evicts_oldest_only_witness :
  let first := set (mk ([] : list (string * nat)) 2) (0%Q, 0%Q) (1%Q, 1%Q) "F1" "F1" noOptions 7%nat in
  let pc := set first (2%Q, 2%Q) (3%Q, 3%Q) "F1" "F1" noOptions 8%nat in
  let other := generateKey (2%Q, 2%Q) (3%Q, 3%Q) "F1" "F1" noOptions in
  lookupKey other (cache pc) = Some 8%nat
  /\ lookupKey other (cache (set pc (4%Q, 4%Q) (5%Q, 5%Q) "F1" "F1" noOptions 9%nat))
     = lookupKey other (cache pc).
Proof.
  intros first pc other. split; [vm_compute; reflexivity |].
  apply (set_evicts_oldest_only pc (4%Q, 4%Q) (5%Q, 5%Q) "F1" "F1" noOptions 9%nat other).
  - by_decision.
  - intros v rest Hfirst. exfalso. vm_compute in Hfirst. discriminate.
Defined.

Lemma get_refreshes_entry_witness :
  let first := set (mk ([] : list (string * nat)) 2) (0%Q, 0%Q) (1%Q, 1%Q) "F1" "F1" noOptions 7%nat in
  let pc := set first (2%Q, 2%Q) (3%Q, 3%Q) "F1" "F1" noOptions 8%nat in
  let hit := snd (get pc (0%Q, 0%Q) (1%Q, 1%Q) "F1" "F1" noOptions) in
  fst (get (set pc (4%Q, 4%Q) (5%Q, 5%Q) "F1" "F1" noOptions 9%nat) (0%Q, 0%Q) (1%Q, 1%Q) "F1" "F1" noOptions)
  = None
  /\ fst (get (set hit (4%Q, 4%Q) (5%Q, 5%Q) "F1" "F1" noOptions 9%nat)
              (0%Q, 0%Q) (1%Q, 1%Q) "F1" "F1" noOptions)
     = Some 7%nat.
Proof.
  intros first pc hit. split; [vm_compute; reflexivity |].
  apply (get_refreshes_entry pc (0%Q, 0%Q) (1%Q, 1%Q) "F1" "F1" noOptions
           (4%Q, 4%Q) (5%Q, 5%Q) "F1" "F1" noOptions 7%nat 9%nat).
  - unfold distinctKeys. by_decision.
  - vm_compute. lia.
  - vm_compute. reflexivity.
  - by_decision.
Defined.

End PathCacheCapacityOnThePlan.

(** ** Candidates, best pairs and the routes of a query *)

Section EngineProperties.
Context `{Platform}.
Import PathfindingEngine.

Lemma nearestOf_spec (p : Coord) (candidates : list Node) (nearest : option Node)
    (minDistSq : option Q) :
  match nearest, minDistSq with
  | Some n, Some m => m = planarDistSq p n
  | None, None => True
  | _, _ => False
  end ->
  match nearestOf p candidates nearest minDistSq with
  | None => nearest = None /\ candidates = []
  | Some r =>
      (nearest = Some r \/ In r candidates)
      /\ (forall x, In x candidates -> (planarDistSq p r <= planarDistSq p x)%Q)
      /\ (forall n, nearest = Some n -> (planarDistSq p r <= planarDistSq p n)%Q)
  end.
Proof.
  revert nearest minDistSq.
  induction candidates as [| c candidates IH]; intros nearest minDistSq Hacc; simpl.
  - destruct nearest as [n |]; [| auto].
    split; [auto |]. split; [intros x [] |]. intros n' [= <-]. apply Qle_refl.
  - fold (planarDistSq p c).
    destruct nearest as [n |], minDistSq as [m |]; try contradiction.
    + subst m. destruct (num_lt (planarDistSq p c) (planarDistSq p n)) eqn:Hlt.
      * apply num_lt_true in Hlt.
        specialize (IH (Some c) (Some (planarDistSq p c)) eq_refl).
        destruct (nearestOf p candidates (Some c) (Some (planarDistSq p c))) as [r |];
          [| destruct IH; discriminate].
        destruct IH as (Hwhere & Hall & Hacc').
        specialize (Hacc' c eq_refl).
        split; [destruct Hwhere as [[= <-] | Hin]; auto |].
        split.
        -- intros x [<- | Hx]; auto.
        -- intros n' [= <-]. apply Qle_trans with (planarDistSq p c);
             [exact Hacc' | apply Qlt_le_weak, Hlt].
      * apply num_lt_false in Hlt.
        specialize (IH (Some n) (Some (planarDistSq p n)) eq_refl).
        destruct (nearestOf p candidates (Some n) (Some (planarDistSq p n))) as [r |];
          [| destruct IH; discriminate].
        destruct IH as (Hwhere & Hall & Hacc').
        specialize (Hacc' n eq_refl).
        split; [destruct Hwhere as [[= <-] | Hin]; auto |].
        split.
        -- intros x [<- | Hx]; [| auto].
           apply Qle_trans with (planarDistSq p n); assumption.
        -- intros n' [= <-]. exact Hacc'.
    + specialize (IH (Some c) (Some (planarDistSq p c)) eq_refl).
      destruct (nearestOf p candidates (Some c) (Some (planarDistSq p c))) as [r |];
        [| destruct IH; discriminate].
      destruct IH as (Hwhere & Hall & Hacc').
      split; [destruct Hwhere as [[= <-] | Hin]; auto |].
      split; [| discriminate]. intros x [<- | Hx]; auto.
Qed.

Lemma firstRoomContaining_spec (p : Coord) (rooms : list Room) :
  match firstRoomContaining p rooms with
  | Some room =>
      exists before after,
        rooms = before ++ room :: after
        /\ inRoomBox p room = true /\ isPointInRoom p room = true
        /\ Forall (fun r => inRoomBox p r && isPointInRoom p r = false) before
  | None => Forall (fun r => inRoomBox p r && isPointInRoom p r = false) rooms
  end.
Proof.
  induction rooms as [| room rooms IH]; simpl; [constructor |].
  fold (negb (inRoomBox p room)).
  assert (Hbox : (num_lt (lng p) (minX (bbox room)) || num_gt (lng p) (maxX (bbox room))
                  || num_lt (lat p) (minY (bbox room)) || num_gt (lat p) (maxY (bbox room)))
                 = negb (inRoomBox p room)).
  { unfold inRoomBox. now rewrite negb_involutive. }
  rewrite Hbox. clear Hbox.
  assert (Hskip : inRoomBox p room && isPointInRoom p room = false ->
            match firstRoomContaining p rooms with
            | Some r =>
                exists before after,
                  room :: rooms = before ++ r :: after
                  /\ inRoomBox p r = true /\ isPointInRoom p r = true
                  /\ Forall (fun r => inRoomBox p r && isPointInRoom p r = false) before
            | None => Forall (fun r => inRoomBox p r && isPointInRoom p r = false)
                             (room :: rooms)
            end).
  { intros Hno. destruct (firstRoomContaining p rooms) as [r |].
    - destruct IH as (before & after & -> & Hb & Hin & Hbefore).
      exists (room :: before), after. repeat split; auto.
    - constructor; assumption. }
  destruct (inRoomBox p room) eqn:Hin; simpl.
  - destruct (isPointInRoom p room) eqn:Hpoint; [| apply Hskip; reflexivity].
    exists [], rooms. repeat split; auto.
  - apply Hskip. reflexivity.
Qed.

Lemma tryPairs_spec (e : PathfindingEngine.t) (s d : Coord) (o : Options)
    (pairs seen : list (Node * Node)) (acc result : option Best) :
  match acc with
  | Some b => bestOf e s d o seen b /\ leastAmong e s d o seen (bestDistance b)
  | None => forall candidates, In candidates seen ->
              AStar.findPath (graph e) (id (fst candidates)) (id (snd candidates)) o
              = Ret None
  end ->
  tryPairs e s d o acc pairs = Ret result ->
  match result with
  | Some b =>
      bestOf e s d o (seen ++ pairs) b
      /\ leastAmong e s d o (seen ++ pairs) (bestDistance b)
  | None => forall candidates, In candidates (seen ++ pairs) ->
              AStar.findPath (graph e) (id (fst candidates)) (id (snd candidates)) o
              = Ret None
  end.
Proof.
  revert seen acc. induction pairs as [| [sc ec] pairs IH]; intros seen acc Hacc.
  - simpl. intros [= <-]. now rewrite app_nil_r.
  - cbn [tryPairs]. unfold tryPair at 1.
    replace (seen ++ (sc, ec) :: pairs) with ((seen ++ [(sc, ec)]) ++ pairs)
      by now rewrite <- app_assoc.
    assert (Hwiden : forall b, bestOf e s d o seen b -> bestOf e s d o (seen ++ [(sc, ec)]) b).
    { intros b (Hin & Hrest). split; [apply in_or_app; auto | exact Hrest]. }
    destruct (AStar.findPath (graph e) (id sc) (id ec) o) as [[path |] | |] eqn:Hpath;
      simpl; try discriminate.
    + destruct (findPath_walk _ _ _ _ _ Hpath) as (indoor & _ & Hindoor).
      rewrite Hindoor.
      set (total := (indoor + turf_distance s (coords sc) + turf_distance d (coords ec))%Q).
      assert (Hnew : bestOf e s d o (seen ++ [(sc, ec)]) (mkBest path sc ec total)).
      { split; [apply in_or_app; right; left; reflexivity |]. split; [exact Hpath |].
        exists indoor. split; [exact Hindoor | reflexivity]. }
      assert (Hhere : forall candidates path' indoor',
                candidates = (sc, ec) ->
                AStar.findPath (graph e) (id (fst candidates)) (id (snd candidates)) o
                = Ret (Some path') ->
                PathResult.distance path' = Some indoor' ->
                totalDistance s d candidates indoor' = total).
      { intros candidates path' indoor' -> Hp Hd. simpl in Hp. rewrite Hpath in Hp.
        injection Hp as <-. rewrite Hindoor in Hd. injection Hd as <-. reflexivity. }
      destruct acc as [b0 |].
      * destruct Hacc as [Hbest Hleast].
        destruct (num_lt total (bestDistance b0)) eqn:Hlt; apply IH.
        -- apply num_lt_true in Hlt. split; [exact Hnew |].
           intros candidates path' indoor' Hin Hp Hd. cbn [bestDistance].
           apply in_app_or in Hin as [Hin | [<- | []]].
           ++ apply Qle_trans with (bestDistance b0); [apply Qlt_le_weak, Hlt |].
              eapply Hleast; eassumption.
           ++ rewrite (Hhere _ _ _ eq_refl Hp Hd). apply Qle_refl.
        -- apply num_lt_false in Hlt. split; [apply Hwiden, Hbest |].
           intros candidates path' indoor' Hin Hp Hd.
           apply in_app_or in Hin as [Hin | [<- | []]].
           ++ eapply Hleast; eassumption.
           ++ rewrite (Hhere _ _ _ eq_refl Hp Hd). exact Hlt.
      * apply IH. split; [exact Hnew |].
        intros candidates path' indoor' Hin Hp Hd. cbn [bestDistance].
        apply in_app_or in Hin as [Hin | [<- | []]].
        -- rewrite (Hacc _ Hin) in Hp. discriminate.
        -- rewrite (Hhere _ _ _ eq_refl Hp Hd). apply Qle_refl.
    + apply IH. destruct acc as [b0 |].
      * destruct Hacc as [Hbest Hleast]. split; [apply Hwiden, Hbest |].
        intros candidates path' indoor' Hin Hp Hd.
        apply in_app_or in Hin as [Hin | [<- | []]].
        -- eapply Hleast; eassumption.
        -- simpl in Hp. rewrite Hpath in Hp. discriminate.
      * intros candidates Hin. apply in_app_or in Hin as [Hin | [<- | []]]; auto.
Qed.

Lemma findBestPath_bestOf (e : PathfindingEngine.t) (s d : Coord)
    (starts ends : list Node) (o : Options) (b : Best) :
  findBestPath e s d starts ends o = Ret (Some b) ->
  bestOf e s d o (flat_map (fun sc => map (fun ec => (sc, ec)) ends) starts) b.
Proof.
  unfold findBestPath. intros Hresult.
  pose proof (tryPairs_spec e s d o _ [] None _ ltac:(intros ? []) Hresult) as Hspec.
  exact (proj1 Hspec).
Qed.

Lemma attemptSearch_outcome (e : PathfindingEngine.t) (s d : Coord)
    (starts ends : list Node) (o : Options) (applied : bool)
    (allowed : option (gset string)) (mode : string) (b : Best) (effective : string) :
  attemptSearch e s d starts ends o applied allowed mode = Ret (Some (b, effective)) ->
  exists applied' allowed',
    findBestPath e s d starts ends (routeOptionsOf o applied' allowed') = Ret (Some b).
Proof.
  unfold attemptSearch.
  destruct (findBestPath e s d starts ends (routeOptionsOf o applied allowed))
    as [[first |] | |] eqn:Hfirst; simpl; try discriminate.
  - intros [= <- _]. eauto.
  - destruct applied; [| discriminate].
    destruct (findBestPath e s d starts ends (routeOptionsOf o false None))
      as [[second |] | |] eqn:Hsecond; simpl; try discriminate.
    intros [= <- _]. eauto.
Qed.

Lemma searchedRoute_outcome (e e' : PathfindingEngine.t) (s d : Coord) (sf df : string)
    (o : Options) (startRoom endRoom : option Room) (starts ends : list Node)
    (result : option Route.t) :
  searchedRoute e s d sf df o startRoom endRoom starts ends = (Ret result, e') ->
  match result with
  | None => exists code message, failureCode code /\ e' = setRouteError e code message
  | Some r =>
      graphRoute e s d sf df o r
      /\ e' = (if useCache o
               then withCache e (PathCache.set (pathCache e) s d sf df o r) else e)
  end.
Proof.
  unfold searchedRoute, failureCode.
  destruct starts as [| sc starts]; [intros [= <- <-]; eauto 6 |].
  destruct ends as [| ec ends]; [intros [= <- <-]; eauto 6 |].
  destruct (attemptSearch _ _ _ _ _ _ _ _ _) as [[[b effective] |] | |] eqn:Hattempt;
    try discriminate; intros [= <- <-]; [| eauto 6].
  split; [| reflexivity].
  destruct (attemptSearch_outcome _ _ _ _ _ _ _ _ _ _ _ Hattempt) as (applied & allowed & Hbest).
  unfold graphRoute. eauto 10.
Qed.

Lemma anchoredRoute_outcome (e e' : PathfindingEngine.t) (s d : Coord) (sf df : string)
    (o : Options) (startRoom endRoom : option Room) (result : option Route.t) :
  anchoredRoute e s d sf df o startRoom endRoom = (Ret result, e') ->
  match result with
  | None => exists code message, failureCode code /\ e' = setRouteError e code message
  | Some r =>
      graphRoute e s d sf df o r
      /\ e' = (if useCache o
               then withCache e (PathCache.set (pathCache e) s d sf df o r) else e)
  end.
Proof.
  unfold anchoredRoute.
  destruct (doorAnchors e o startRoom) as [[[| door rest] l m] |];
    try (intros [= <- <-]; unfold failureCode; eauto 6; fail);
    (destruct (doorAnchors e o endRoom) as [[[| door' rest'] l' m'] |];
     try (intros [= <- <-]; unfold failureCode; eauto 6; fail));
    apply searchedRoute_outcome.
Qed.

Lemma freshRoute_outcome (e e' : PathfindingEngine.t) (s d : Coord) (sf df : string)
    (o : Options) (result : option Route.t) :
  freshRoute e s d sf df o = (Ret result, e') ->
  match result with
  | None =>
      exists code message,
        failureCode code /\ e' = setRouteError (withError e None) code message
  | Some r =>
      (Route.nodeIds r = [] /\ e' = withError e None)
      \/ (graphRoute (withError e None) s d sf df o r
          /\ e' = (if useCache o
                   then withCache (withError e None)
                          (PathCache.set (pathCache e) s d sf df o r)
                   else withError e None))
  end.
Proof.
  assert (Hanchored : forall startRoom endRoom,
            anchoredRoute (withError e None) s d sf df o startRoom endRoom
            = (Ret result, e') ->
            match result with
            | None =>
                exists code message,
                  failureCode code /\ e' = setRouteError (withError e None) code message
            | Some r =>
                (Route.nodeIds r = [] /\ e' = withError e None)
                \/ (graphRoute (withError e None) s d sf df o r
                    /\ e' = (if useCache o
                             then withCache (withError e None)
                                    (PathCache.set (pathCache e) s d sf df o r)
                             else withError e None))
            end).
  { intros startRoom endRoom Hroute. apply anchoredRoute_outcome in Hroute.
    destruct result as [r |]; [right |]; exact Hroute. }
  unfold freshRoute.
  destruct (detectRoom e o s sf) as [sr |], (detectRoom e o d df) as [er |];
    try apply Hanchored.
  destruct (isSameRoom (Some sr) (Some er)); [| apply Hanchored].
  destruct (CollisionDetector.isPathClear _ _ _ _); intros [= <- <-].
  - left. split; reflexivity.
  - unfold failureCode. eauto 6.
Qed.

Lemma freshRoute_withError (e : PathfindingEngine.t) (err : option RouteError)
    (s d : Coord) (sf df : string) (o : Options) :
  freshRoute (withError e err) s d sf df o = freshRoute e s d sf df o.
Proof. reflexivity. Qed.

(** A computed query asked again gives the same answer. *)
Lemma freshRoute_repeats (e e1 : PathfindingEngine.t) (s d : Coord) (sf df : string)
    (o : Options) (result : option Route.t) :
  initialized e = true ->
  computed e s d sf df o ->
  freshRoute e s d sf df o = (Ret result, e1) ->
  exists e2, findRoute e1 s d sf df o = (Ret result, e2).
Proof.
  intros Hinit Hcomputed Hfresh.
  assert (Hsame : forall err, e1 = withError e err ->
            exists e2, findRoute e1 s d sf df o = (Ret result, e2)).
  { intros err ->. rewrite findRoute_computed; [| exact Hinit | exact Hcomputed].
    rewrite freshRoute_withError. eauto. }
  pose proof (freshRoute_outcome _ _ _ _ _ _ _ _ Hfresh) as Houtcome.
  destruct result as [r |].
  - destruct Houtcome as [[_ ->] | [_ ->]]; [eapply Hsame; reflexivity |].
    destruct (useCache o) eqn:Hcache; [| eapply Hsame; reflexivity].
    destruct (findRoute_cached
                (withCache (withError e None) (PathCache.set (pathCache e) s d sf df o r))
                s d sf df o r Hinit Hcache) as (e2 & Hagain & _); [| eauto].
    unfold PathCache.set. cbn [pathCache withCache PathCache.cache].
    apply lookupKey_setKey_eq.
  - destruct Houtcome as (code & message & _ & ->). eapply Hsame. reflexivity.
Qed.

Lemma walk_nonempty (g : Graph) (o : Options) (s t : string) (path : list string)
    (cost : Q) :
  Walk g o s t path cost -> exists front, path = front ++ [t].
Proof.
  intros [| c p k edge node dist _ _]; [exists []; reflexivity | eauto].
Qed.

(** Every node of a walk after the first passes the node test. *)
Lemma walk_tail_allowed (g : Graph) (o : Options) (s t : string) (path : list string)
    (cost : Q) :
  Walk g o s t path cost ->
  forall n, In n (tail path) ->
    exists node, getNode g n = Some node /\ AStar.findPath_isNodeAllowed o node = true.
Proof.
  induction 1 as [| c p k edge node dist Hwalk IH Hadm]; [intros n [] |].
  intros n Hn. destruct (walk_nonempty _ _ _ _ _ _ Hwalk) as [front ->].
  assert (Htail : tail ((front ++ [c]) ++ [target edge])
                  = tail (front ++ [c]) ++ [target edge]).
  { destruct front; reflexivity. }
  rewrite Htail in Hn. apply in_app_or in Hn as [Hn | [<- | []]]; [auto |].
  destruct Hadm as (_ & _ & Hnode & Hallowed & _). eauto.
Qed.

(** Every step of a walk follows an edge that passes the edge tests. *)
Lemma walk_steps_passable (g : Graph) (o : Options) (s t : string) (path : list string)
    (cost : Q) :
  Walk g o s t path cost ->
  forall i a b, path !! i = Some a -> path !! S i = Some b ->
    exists edge, In edge (getEdges g a) /\ target edge = b /\ passable o edge = true.
Proof.
  induction 1 as [| c p k edge node dist Hwalk IH Hadm]; intros i a b Ha Hb.
  - destruct i; discriminate.
  - destruct (walk_nonempty _ _ _ _ _ _ Hwalk) as [front Hfront].
    assert (Hlen : length p = S (length front)).
    { rewrite Hfront, length_app. simpl. lia. }
    destruct (decide (S i < length p)%nat) as [Hin | Hout].
    + rewrite lookup_app_l in Ha by lia. rewrite lookup_app_l in Hb by lia. eauto.
    + assert (Hi : S i = length p).
      { apply lookup_lt_Some in Hb. rewrite length_app in Hb. simpl in Hb. lia. }
      rewrite lookup_app_l in Ha by lia.
      rewrite Hi, list_lookup_middle in Hb by reflexivity. injection Hb as <-.
      rewrite Hfront in Ha.
      assert (Hia : i = length front) by lia.
      rewrite Hia, list_lookup_middle in Ha by reflexivity. injection Ha as <-.
      destruct Hadm as (Hedge & Hpass & _). eauto.
Qed.

(** The route of a graph search is a walk between the two candidates it
    names, and its distance adds the two connectors to the walk. *)
Lemma graphRoute_walk (e : PathfindingEngine.t) (s d : Coord) (sf df : string)
    (o : Options) (r : Route.t) :
  graphRoute e s d sf df o r ->
  exists applied allowed startNode endNode cost,
    Route.startNode r = Some startNode
    /\ Route.endNode r = Some endNode
    /\ Walk (graph e) (routeOptionsOf o applied allowed) (id startNode) (id endNode)
            (Route.nodeIds r) cost
    /\ Route.distance r
       = (cost + turf_distance s (coords startNode) + turf_distance d (coords endNode))%Q.
Proof.
  intros (startRoom & endRoom & starts & ends & applied & allowed & b & effective
          & Hbest & ->).
  apply findBestPath_bestOf in Hbest as (_ & Hpath & indoor & Hindoor & Htotal).
  destruct (findPath_walk _ _ _ _ _ Hpath) as (cost & Hwalk & Hcost).
  rewrite Hindoor in Hcost. injection Hcost as ->.
  exists applied, allowed, (bestStart b), (bestEnd b), cost.
  repeat split; [exact Hwalk | exact Htotal].
Qed.

Lemma tryPairs_withError (e : PathfindingEngine.t) (err : option RouteError)
    (s d : Coord) (o : Options) (pairs : list (Node * Node)) (acc : option Best) :
  tryPairs (withError e err) s d o acc pairs = tryPairs e s d o acc pairs.
Proof.
  revert acc. induction pairs as [| candidates pairs IH]; intros acc; [reflexivity |].
  cbn [tryPairs].
  change (tryPair (withError e err) s d o acc candidates)
    with (tryPair e s d o acc candidates).
  destruct (tryPair e s d o acc candidates); simpl; auto.
Qed.

Lemma graphRoute_withError (e : PathfindingEngine.t) (err : option RouteError)
    (s d : Coord) (sf df : string) (o : Options) (r : Route.t) :
  graphRoute (withError e err) s d sf df o r -> graphRoute e s d sf df o r.
Proof.
  intros (startRoom & endRoom & starts & ends & applied & allowed & b & effective
          & Hbest & ->).
  unfold findBestPath in Hbest. rewrite tryPairs_withError in Hbest.
  unfold graphRoute. eauto 10.
Qed.

Lemma computed_graphRoute (e e' : PathfindingEngine.t) (s d : Coord) (sf df : string)
    (o : Options) (r : Route.t) :
  initialized e = true ->
  computed e s d sf df o ->
  findRoute e s d sf df o = (Ret (Some r), e') ->
  Route.nodeIds r = [] \/ graphRoute e s d sf df o r.
Proof.
  intros Hinit Hcomputed. rewrite findRoute_computed by assumption.
  intros Hfresh.
  apply freshRoute_outcome in Hfresh as [[Hnone _] | [Hgraph _]];
    [left; exact Hnone | right; exact (graphRoute_withError _ _ _ _ _ _ _ _ Hgraph)].
Qed.

End EngineProperties.

Section EngineTheorems.
Context `{Platform}.
Import PathfindingEngine.

(** [findNearestWalkableNode] answers null exactly when the floor has no
    walkable node; otherwise it returns a walkable node of the floor from
    which no other is nearer, measured in degrees. *)
Theorem findNearestWalkableNode_nearest (e : PathfindingEngine.t) (p : Coord)
    (floor : string) :
  match findNearestWalkableNode e p floor with
  | None =>
      walkableNodesByFloor e !! floor = None \/ walkableNodesByFloor e !! floor = Some []
  | Some nearest =>
      exists walkables,
        walkableNodesByFloor e !! floor = Some walkables
        /\ In nearest walkables
        /\ forall x, In x walkables -> (planarDistSq p nearest <= planarDistSq p x)%Q
  end.
Proof.
  unfold findNearestWalkableNode.
  destruct (walkableNodesByFloor e !! floor) as [walkables |]; [| auto].
  pose proof (nearestOf_spec p walkables None None I) as Hspec.
  destruct (nearestOf p walkables None None) as [r |].
  - destruct Hspec as ([Hno | Hin] & Hall & _); [discriminate |]. eauto.
  - destruct Hspec as [_ ->]. auto.
Qed.

(** [getRoomDoorCandidates] counts all the doors of the room; with locked
    doors allowed every door is available, otherwise the available and the
    locked doors split the doors of the room between them. *)
Theorem getRoomDoorCandidates_split (e : PathfindingEngine.t) (room : Room)
    (allowLocked : bool) :
  let doors := default [] (roomDoorIndex e !! geometryId room) in
  let candidates := getRoomDoorCandidates e room allowLocked in
  total candidates = length doors
  /\ Forall (fun door => isLocked (metadata door) = true) (locked candidates)
  /\ (if allowLocked then available candidates = doors
      else Forall (fun door => isLocked (metadata door) = false) (available candidates)
           /\ doors ≡ₚ available candidates ++ locked candidates
           /\ total candidates
              = (length (available candidates) + length (locked candidates))%nat).
Proof.
  intros doors candidates. subst candidates. unfold getRoomDoorCandidates. fold doors.
  cbn [total locked available]. split; [reflexivity |]. split.
  { apply Forall_forall. intros door Hin. apply list_elem_of_In, filter_In in Hin. tauto. }
  destruct allowLocked; cbn [orb].
  - clear. induction doors as [| door doors IH]; simpl; [reflexivity | now rewrite IH].
  - assert (Hsplit : doors ≡ₚ List.filter (fun door => negb (isLocked (metadata door))) doors
                            ++ List.filter (fun door => isLocked (metadata door)) doors).
    { clear. induction doors as [| door doors IH]; simpl; [reflexivity |].
      destruct (isLocked (metadata door)); simpl.
      - rewrite <- Permutation_middle. now constructor.
      - now constructor. }
    split; [| split; [exact Hsplit |]].
    + apply Forall_forall. intros door Hin. apply list_elem_of_In, filter_In in Hin.
      destruct Hin as [_ Hin]. now apply negb_true_iff.
    + rewrite (Permutation_length Hsplit) at 1. apply length_app.
Qed.

(** [findRoomAtPoint] returns the first room of the floor whose bounding
    box and whose buffered outline both contain the point, and null when
    the floor has no such room. *)
Theorem findRoomAtPoint_first (e : PathfindingEngine.t) (p : Coord) (floor : string) :
  match findRoomAtPoint e p floor with
  | Some room =>
      exists before after,
        roomIndex e !! floor = Some (before ++ room :: after)
        /\ inRoomBox p room = true /\ isPointInRoom p room = true
        /\ Forall (fun r => inRoomBox p r && isPointInRoom p r = false) before
  | None =>
      forall rooms, roomIndex e !! floor = Some rooms ->
        Forall (fun r => inRoomBox p r && isPointInRoom p r = false) rooms
  end.
Proof.
  unfold findRoomAtPoint. destruct (roomIndex e !! floor) as [rooms |]; [| discriminate].
  pose proof (firstRoomContaining_spec p rooms) as Hspec.
  destruct (firstRoomContaining p rooms) as [room |].
  - destruct Hspec as (before & after & -> & Hrest). eauto.
  - intros rooms' [= <-]. exact Hspec.
Qed.

(** [findBestPath] answers null exactly when the graph search joins no
    start candidate with an end candidate.  Otherwise it returns a pair
    that the search joins, with the path found and with the total of its
    distance and of the two connectors, and no pair that the search joins
    has a smaller total. *)
Theorem findBestPath_least (e : PathfindingEngine.t) (s d : Coord)
    (starts ends : list Node) (o : Options) :
  let pairs := flat_map (fun sc => map (fun ec => (sc, ec)) ends) starts in
  exists result,
    findBestPath e s d starts ends o = Ret result
    /\ match result with
       | Some b => bestOf e s d o pairs b /\ leastAmong e s d o pairs (bestDistance b)
       | None => forall sc ec, In sc starts -> In ec ends ->
                   AStar.findPath (graph e) (id sc) (id ec) o = Ret None
       end.
Proof.
  intros pairs. unfold findBestPath. fold pairs.
  destruct (tryPairs_returns e s d o pairs None) as [result Hresult].
  exists result. split; [exact Hresult |].
  pose proof (tryPairs_spec e s d o pairs [] None result) as Hspec. simpl in Hspec.
  specialize (Hspec ltac:(intros ? []) Hresult).
  destruct result as [b |]; [exact Hspec |].
  intros sc ec Hsc Hec. apply (Hspec (sc, ec)).
  apply in_flat_map. exists sc. split; [exact Hsc |]. apply in_map. exact Hec.
Qed.

(** A query asked again gives the same answer: a route from the cache is
    found there again, a computed graph route is found in the cache when
    caching is on, and every other answer is computed anew to the same
    result. *)
Theorem findRoute_repeats (e e1 : PathfindingEngine.t) (s d : Coord) (sf df : string)
    (o : Options) (result : option Route.t) :
  findRoute e s d sf df o = (Ret result, e1) ->
  exists e2, findRoute e1 s d sf df o = (Ret result, e2).
Proof.
  unfold findRoute at 1. destruct (initialized e) eqn:Hinit; [| discriminate].
  cbn [negb]. destruct (useCache o) eqn:Hcache.
  - unfold PathCache.get.
    destruct (PathCache.lookupKey (PathCache.generateKey s d sf df o)
                (PathCache.cache (pathCache e))) as [cached |] eqn:Hlook.
    + intros [= <- <-].
      edestruct (findRoute_cached
                   (withCache e
                      (PathCache.mk
                         (PathCache.deleteKey (PathCache.generateKey s d sf df o)
                            (PathCache.cache (pathCache e))
                          ++ [(PathCache.generateKey s d sf df o, cached)])
                         (PathCache.maxSize (pathCache e))))
                   s d sf df o cached Hinit Hcache) as (e2 & Hagain & _); [| eauto].
      cbn [pathCache withCache PathCache.cache]. apply lookupKey_moved.
    + apply freshRoute_repeats; [exact Hinit | right; exact Hlook].
  - apply freshRoute_repeats; [exact Hinit | left; exact Hcache].
Qed.

(** Whenever [findRoute] returns null, the error slot holds one of the
    codes no-path, no-door and blocked. *)
Theorem findRoute_failure_codes (e e' : PathfindingEngine.t) (s d : Coord)
    (sf df : string) (o : Options) :
  findRoute e s d sf df o = (Ret None, e') ->
  exists code message,
    failureCode code /\ getLastRouteError e' = Some (mkRouteError code message).
Proof.
  unfold findRoute. destruct (initialized e); [| discriminate]. cbn [negb].
  assert (Hfresh : freshRoute e s d sf df o = (Ret None, e') ->
            exists code message,
              failureCode code /\ getLastRouteError e' = Some (mkRouteError code message)).
  { intros Hfresh. apply freshRoute_outcome in Hfresh as (code & message & Hcode & ->).
    exists code, message. split; [exact Hcode | reflexivity]. }
  destruct (useCache o); [| exact Hfresh].
  destruct (PathCache.get _ _ _ _ _ _) as [[cached |] pc]; [discriminate | exact Hfresh].
Qed.

(** A computed route that names graph nodes is a walk of the graph between
    its start node and its end node: every step follows an edge that passes
    the edge tests to a node that passes the node test, and the distance of
    the route is the length of the walk and of the two connectors. *)
Theorem findRoute_follows_edges (e e' : PathfindingEngine.t) (s d : Coord)
    (sf df : string) (o : Options) (r : Route.t) :
  initialized e = true ->
  computed e s d sf df o ->
  findRoute e s d sf df o = (Ret (Some r), e') ->
  Route.nodeIds r = []
  \/ exists applied allowed startNode endNode cost,
       Route.startNode r = Some startNode
       /\ Route.endNode r = Some endNode
       /\ Walk (graph e) (routeOptionsOf o applied allowed) (id startNode) (id endNode)
               (Route.nodeIds r) cost
       /\ Route.distance r
          = (cost + turf_distance s (coords startNode)
             + turf_distance d (coords endNode))%Q.
Proof.
  intros Hinit Hcomputed Hroute.
  destruct (computed_graphRoute _ _ _ _ _ _ _ _ Hinit Hcomputed Hroute) as [Hnone | Hgraph];
    [left; exact Hnone | right; exact (graphRoute_walk _ _ _ _ _ _ _ Hgraph)].
Qed.

(** A route computed without [allowLockedDoors] passes no locked door:
    every node it names after the first is a node of the graph that is not
    a locked door. *)
Theorem findRoute_avoids_locked_doors (e e' : PathfindingEngine.t) (s d : Coord)
    (sf df : string) (o : Options) (r : Route.t) :
  initialized e = true ->
  computed e s d sf df o ->
  allowLockedDoors o = false ->
  findRoute e s d sf df o = (Ret (Some r), e') ->
  forall n, In n (tail (Route.nodeIds r)) ->
    exists node,
      getNode (graph e) n = Some node
      /\ isDoor (metadata node) && isLocked (metadata node) = false.
Proof.
  intros Hinit Hcomputed Hlocked Hroute n Hn.
  destruct (computed_graphRoute _ _ _ _ _ _ _ _ Hinit Hcomputed Hroute) as [Hnone | Hgraph].
  { rewrite Hnone in Hn. destruct Hn. }
  destruct (graphRoute_walk _ _ _ _ _ _ _ Hgraph)
    as (applied & allowed & startNode & endNode & cost & _ & _ & Hwalk & _).
  destruct (walk_tail_allowed _ _ _ _ _ _ Hwalk n Hn) as (node & Hnode & Hallowed).
  exists node. split; [exact Hnode |].
  revert Hallowed. unfold AStar.findPath_isNodeAllowed.
  change (AStar.passesNodeFilter (routeOptionsOf o applied allowed) node)
    with (routeNodeFilter o node).
  unfold routeNodeFilter. rewrite Hlocked.
  destruct (AStar.passesNodeFilter o node); [| discriminate]. cbn [negb andb].
  destruct (isDoor (metadata node) && isLocked (metadata node)); [discriminate | reflexivity].
Qed.

(** A route computed by [findAccessibleRoute] takes only accessible edges
    that are not stairs: each node it names is joined to the next by such an
    edge of the graph. *)
Theorem findAccessibleRoute_edges (e e' : PathfindingEngine.t) (s d : Coord)
    (sf df : string) (r : Route.t) :
  initialized e = true ->
  computed e s d sf df accessibleOptions ->
  findAccessibleRoute e s d sf df = (Ret (Some r), e') ->
  forall i a b,
    Route.nodeIds r !! i = Some a ->
    Route.nodeIds r !! S i = Some b ->
    exists edge,
      In edge (getEdges (graph e) a)
      /\ target edge = b /\ accessible edge = true /\ etype edge <> "stairs".
Proof.
  unfold findAccessibleRoute. intros Hinit Hcomputed Hroute i a b Ha Hb.
  destruct (computed_graphRoute _ _ _ _ _ _ _ _ Hinit Hcomputed Hroute) as [Hnone | Hgraph].
  { rewrite Hnone in Ha. discriminate. }
  destruct (graphRoute_walk _ _ _ _ _ _ _ Hgraph)
    as (applied & allowed & startNode & endNode & cost & _ & _ & Hwalk & _).
  destruct (walk_steps_passable _ _ _ _ _ _ Hwalk i a b Ha Hb)
    as (edge & Hedge & Htarget & Hpass).
  exists edge. split; [exact Hedge |]. split; [exact Htarget |].
  revert Hpass. unfold passable. cbn [accessibleOnly avoidStairs routeOptionsOf accessibleOptions andb].
  destruct (accessible edge); [| discriminate]. cbn [negb andb].
  destruct (String.eqb_spec (etype edge) "stairs"); [discriminate | auto].
Qed.

End EngineTheorems.

Section EngineOnThePlan.
#[local] Existing Instance Plan.platform.
Import PathfindingEngine.

Lemma findRoute_repeats_witness :
  exists r e1 e2,
    Plan.query Plan.open_ Plan.inRoomA Plan.inCorridor noOptions = (Ret (Some r), e1)
    /\ Plan.query e1 Plan.inRoomA Plan.inCorridor noOptions = (Ret (Some r), e2).
Proof.
  assert (Hfirst : exists r e1,
            Plan.query Plan.open_ Plan.inRoomA Plan.inCorridor noOptions
            = (Ret (Some r), e1))
    by (eexists; eexists; vm_compute; reflexivity).
  destruct Hfirst as (r & e1 & Hfirst).
  destruct (findRoute_repeats Plan.open_ e1 Plan.inRoomA Plan.inCorridor "F0" "F0"
              noOptions (Some r) Hfirst) as [e2 Hsecond].
  exists r, e1, e2. exact (conj Hfirst Hsecond).
Defined.

Lemma findRoute_failure_codes_witness :
  exists e',
    Plan.query Plan.locked_ Plan.inRoomA Plan.inCorridor noOptions = (Ret None, e')
    /\ exists code message,
         failureCode code /\ getLastRouteError e' = Some (mkRouteError code message).
Proof.
  assert (Hfirst : exists e',
            Plan.query Plan.locked_ Plan.inRoomA Plan.inCorridor noOptions = (Ret None, e'))
    by (eexists; vm_compute; reflexivity).
  destruct Hfirst as (e' & Hfirst). exists e'. split; [exact Hfirst |].
  exact (findRoute_failure_codes Plan.locked_ e' Plan.inRoomA Plan.inCorridor "F0" "F0"
           noOptions Hfirst).
Defined.

Lemma findRoute_follows_edges_witness :
  exists r e',
    Plan.query Plan.open_ Plan.inRoomA Plan.inCorridor noOptions = (Ret (Some r), e')
    /\ (Route.nodeIds r = []
        \/ exists applied allowed startNode endNode cost,
             Route.startNode r = Some startNode
             /\ Route.endNode r = Some endNode
             /\ Walk (graph Plan.open_) (routeOptionsOf noOptions applied allowed)
                     (id startNode) (id endNode) (Route.nodeIds r) cost
             /\ Route.distance r
                = (cost + turf_distance Plan.inRoomA (coords startNode)
                   + turf_distance Plan.inCorridor (coords endNode))%Q).
Proof.
  assert (Hfirst : exists r e',
            Plan.query Plan.open_ Plan.inRoomA Plan.inCorridor noOptions
            = (Ret (Some r), e'))
    by (eexists; eexists; vm_compute; reflexivity).
  destruct Hfirst as (r & e' & Hfirst). exists r, e'. split; [exact Hfirst |].
  apply (findRoute_follows_edges Plan.open_ e' Plan.inRoomA Plan.inCorridor "F0" "F0"
           noOptions r); [reflexivity | right; reflexivity | exact Hfirst].
Defined.

Lemma findRoute_avoids_locked_doors_witness :
  exists r e',
    Plan.query Plan.open_ Plan.inRoomA Plan.inCorridor noOptions = (Ret (Some r), e')
    /\ forall n, In n (tail (Route.nodeIds r)) ->
         exists node,
           getNode (graph Plan.open_) n = Some node
           /\ isDoor (metadata node) && isLocked (metadata node) = false.
Proof.
  assert (Hfirst : exists r e',
            Plan.query Plan.open_ Plan.inRoomA Plan.inCorridor noOptions
            = (Ret (Some r), e'))
    by (eexists; eexists; vm_compute; reflexivity).
  destruct Hfirst as (r & e' & Hfirst). exists r, e'. split; [exact Hfirst |].
  apply (findRoute_avoids_locked_doors Plan.open_ e' Plan.inRoomA Plan.inCorridor
           "F0" "F0" noOptions r);
    [reflexivity | right; reflexivity | reflexivity | exact Hfirst].
Defined.

Lemma findAccessibleRoute_edges_witness :
  exists r e',
    findAccessibleRoute Plan.open_ Plan.inRoomA Plan.inCorridor "F0" "F0"
    = (Ret (Some r), e')
    /\ forall i a b,
         Route.nodeIds r !! i = Some a ->
         Route.nodeIds r !! S i = Some b ->
         exists edge,
           In edge (getEdges (graph Plan.open_) a)
           /\ target edge = b /\ accessible edge = true /\ etype edge <> "stairs".
Proof.
  assert (Hfirst : exists r e',
            findAccessibleRoute Plan.open_ Plan.inRoomA Plan.inCorridor "F0" "F0"
            = (Ret (Some r), e'))
    by (eexists; eexists; vm_compute; reflexivity).
  destruct Hfirst as (r & e' & Hfirst). exists r, e'. split; [exact Hfirst |].
  apply (findAccessibleRoute_edges Plan.open_ e' Plan.inRoomA Plan.inCorridor
           "F0" "F0" r); [reflexivity | right; reflexivity | exact Hfirst].
Defined.

End EngineOnThePlan.

(** ** Entrances and positions along a path *)

Section NavigationFacts.
Context `{Platform}.
Import NavigationController.

Lemma interpolateFrom_spec (path : list Coord) (dists : list Q) (targetDist : Q) :
  forall (rest before : list Coord) (previous : Coord) (dbefore : list Q) (start : Q),
    path = before ++ previous :: rest ->
    dists = dbefore ++ start :: cumulativeFrom previous start rest ->
    length dbefore = length before ->
    (start <= targetDist)%Q ->
    exists result,
      interpolateFrom path targetDist (S (length before)) start
                      (cumulativeFrom previous start rest) = Ret result
      /\ ((result = last path
           /\ Forall (fun x => (x < targetDist)%Q) (cumulativeFrom previous start rest))
          \/ exists i p0 p1 a t,
               path !! i = Some p0 /\ path !! S i = Some p1
               /\ dists !! i = Some a
               /\ dists !! S i = Some (a + turf_distance p0 p1)%Q
               /\ (0 <= t)%Q /\ (t <= 1)%Q
               /\ (a + t * turf_distance p0 p1 == targetDist)%Q
               /\ result = Some (pointBetween p0 p1 t)).
Proof.
  induction rest as [| p rest IH]; intros before previous dbefore start Hpath Hdists Hlen Hstart.
  - simpl. eexists. split; [reflexivity |]. left. split; [reflexivity | constructor].
  - cbn [cumulativeFrom interpolateFrom].
    set (segmentEnd := (start + turf_distance previous p)%Q) in *.
    assert (Hp0 : path !! length before = Some previous).
    { rewrite Hpath. now apply list_lookup_middle. }
    assert (Hp1 : path !! S (length before) = Some p).
    { rewrite Hpath. rewrite lookup_app_r by lia.
      replace (S (length before) - length before)%nat with 1%nat by lia. reflexivity. }
    assert (Hd0 : dists !! length before = Some start).
    { rewrite Hdists. now apply list_lookup_middle. }
    assert (Hd1 : dists !! S (length before) = Some segmentEnd).
    { rewrite Hdists. rewrite lookup_app_r by lia.
      replace (S (length before) - length dbefore)%nat with 1%nat by lia. reflexivity. }
    destruct (num_ge segmentEnd targetDist) eqn:Hreached.
    + apply num_ge_true in Hreached.
      replace (S (length before) - 1)%nat with (length before) by lia.
      rewrite Hp0, Hp1. eexists. split; [reflexivity |]. right.
      exists (length before), previous, p, start.
      assert (Hlength : (segmentEnd - start == turf_distance previous p)%Q)
        by (unfold segmentEnd; ring).
      destruct (num_gt (segmentEnd - start) 0) eqn:Hpositive.
      * apply num_lt_true in Hpositive.
        exists ((targetDist - start) / (segmentEnd - start))%Q.
        assert (Hnonzero : ~ (segmentEnd - start == 0)%Q).
        { intros Hzero. rewrite Hzero in Hpositive. now apply Qlt_irrefl in Hpositive. }
        repeat split; try assumption.
        -- apply Qle_shift_div_l; [exact Hpositive |]. rewrite Qmult_0_l.
           rewrite <- (Qplus_opp_r start). apply Qplus_le_compat; [exact Hstart | apply Qle_refl].
        -- apply Qle_shift_div_r; [exact Hpositive |]. rewrite Qmult_1_l.
           apply Qplus_le_compat; [exact Hreached | apply Qle_refl].
        -- rewrite <- Hlength. rewrite Qmult_comm, Qmult_div_r by exact Hnonzero. ring.
      * apply num_gt_false in Hpositive. exists 0%Q.
        repeat split; try assumption; [apply Qle_refl | discriminate |].
        rewrite Qmult_0_l, Qplus_0_r. apply Qle_antisym; [exact Hstart |].
        apply Qle_trans with segmentEnd; [exact Hreached |].
        apply Qle_minus_iff. apply Qle_minus_iff in Hpositive.
        setoid_replace (start + - segmentEnd)%Q with (0 + - (segmentEnd - start))%Q
          using relation Qeq by ring.
        exact Hpositive.
    + apply num_ge_false in Hreached.
      destruct (IH (before ++ [previous]) p (dbefore ++ [start]) segmentEnd)
        as (result & Hresult & Hwhere).
      * rewrite Hpath, <- app_assoc. reflexivity.
      * rewrite Hdists, <- app_assoc. reflexivity.
      * rewrite !length_app. simpl. lia.
      * apply Qlt_le_weak, Hreached.
      * replace (S (length (before ++ [previous]))) with (S (S (length before))) in Hresult
          by (rewrite length_app; simpl; lia).
        exists result. split; [exact Hresult |].
        destruct Hwhere as [[Hlast Hall] | Hbetween]; [left | right; exact Hbetween].
        split; [exact Hlast | constructor; assumption].
Qed.

Lemma nearestByDistance_spec (origin : Coord) (candidates : list Node)
    (nearest : option Node) (bestDist : option Q) :
  match nearest, bestDist with
  | Some n, Some m => m = turf_distance origin (coords n)
  | None, None => True
  | _, _ => False
  end ->
  match nearestByDistance origin candidates nearest bestDist with
  | None => nearest = None /\ candidates = []
  | Some r =>
      (nearest = Some r \/ In r candidates)
      /\ (forall x, In x candidates ->
            (turf_distance origin (coords r) <= turf_distance origin (coords x))%Q)
      /\ (forall n, nearest = Some n ->
            (turf_distance origin (coords r) <= turf_distance origin (coords n))%Q)
  end.
Proof.
  revert nearest bestDist.
  induction candidates as [| c candidates IH]; intros nearest bestDist Hacc; simpl.
  - destruct nearest as [n |]; [| auto].
    split; [auto |]. split; [intros x [] |]. intros n' [= <-]. apply Qle_refl.
  - destruct nearest as [n |], bestDist as [m |]; try contradiction.
    + subst m.
      destruct (num_lt (turf_distance origin (coords c)) (turf_distance origin (coords n)))
        eqn:Hlt.
      * apply num_lt_true in Hlt.
        specialize (IH (Some c) (Some (turf_distance origin (coords c))) eq_refl).
        destruct (nearestByDistance origin candidates (Some c) _) as [r |];
          [| destruct IH; discriminate].
        destruct IH as (Hwhere & Hall & Hacc').
        specialize (Hacc' c eq_refl).
        split; [destruct Hwhere as [[= <-] | Hin]; auto |].
        split.
        -- intros x [<- | Hx]; auto.
        -- intros n' [= <-]. apply Qle_trans with (turf_distance origin (coords c));
             [exact Hacc' | apply Qlt_le_weak, Hlt].
      * apply num_lt_false in Hlt.
        specialize (IH (Some n) (Some (turf_distance origin (coords n))) eq_refl).
        destruct (nearestByDistance origin candidates (Some n) _) as [r |];
          [| destruct IH; discriminate].
        destruct IH as (Hwhere & Hall & Hacc').
        specialize (Hacc' n eq_refl).
        split; [destruct Hwhere as [[= <-] | Hin]; auto |].
        split.
        -- intros x [<- | Hx]; [| auto].
           apply Qle_trans with (turf_distance origin (coords n)); assumption.
        -- intros n' [= <-]. exact Hacc'.
    + specialize (IH (Some c) (Some (turf_distance origin (coords c))) eq_refl).
      destruct (nearestByDistance origin candidates (Some c) _) as [r |];
        [| destruct IH; discriminate].
      destruct IH as (Hwhere & Hall & Hacc').
      split; [destruct Hwhere as [[= <-] | Hin]; auto |].
      split; [| discriminate]. intros x [<- | Hx]; auto.
Qed.

Lemma entrance_listed (nc : NavigationController.t) (node : Node) :
  entrance nc node
  <-> In node (List.filter (fun n => String.eqb (ntype n) "entrance")
                 (map snd (map_to_list (nodes (PathfindingEngine.graph (engine nc)))))).
Proof.
  unfold entrance. rewrite filter_In, in_map_iff, String.eqb_eq. split.
  - intros [[key Hkey] Htype]. split; [| exact Htype].
    exists (key, node). split; [reflexivity |].
    apply list_elem_of_In, elem_of_map_to_list. exact Hkey.
  - intros [([key node'] & Hsnd & Hin) Htype]. simpl in Hsnd. subst node'.
    split; [| exact Htype]. exists key.
    apply elem_of_map_to_list, list_elem_of_In. exact Hin.
Qed.

End NavigationFacts.

Section NavigationTheorems.
Context `{Platform}.
Import NavigationController.

(** On the distances computed from the path, [_interpolatePosition] does
    not throw for a target that is not negative.  It answers the last
    point of the path when no distance after the first reaches the target;
    otherwise it answers a point between two consecutive points of the
    path, at the share of the segment that makes the distance along the
    path equal to the target. *)
Theorem interpolatePosition_on_path (path : list Coord) (targetDist : Q) :
  (0 <= targetDist)%Q ->
  let distances := _computeCumulativeDistances path in
  exists result,
    _interpolatePosition path distances targetDist = Ret result
    /\ ((result = last path
         /\ Forall (fun x => (x < targetDist)%Q) (tail distances))
        \/ exists i p0 p1 a t,
             path !! i = Some p0 /\ path !! S i = Some p1
             /\ distances !! i = Some a
             /\ distances !! S i = Some (a + turf_distance p0 p1)%Q
             /\ (0 <= t)%Q /\ (t <= 1)%Q
             /\ (a + t * turf_distance p0 p1 == targetDist)%Q
             /\ result = Some (pointBetween p0 p1 t)).
Proof.
  intros Htarget distances. subst distances.
  unfold _interpolatePosition, _computeCumulativeDistances.
  destruct path as [| first rest].
  - simpl. eexists. split; [reflexivity |]. left. split; [reflexivity | constructor].
  - cbn [tail].
    exact (interpolateFrom_spec (first :: rest) (0%Q :: cumulativeFrom first 0 rest)
             targetDist rest [] first [] 0%Q eq_refl eq_refl eq_refl Htarget).
Qed.

(** [findNearestEntranceNode] answers null exactly when the graph has no
    entrance.  Otherwise it returns an entrance of the graph, one of the
    ground floor whenever that floor is set and has an entrance, and no
    entrance it considers is nearer to the point. *)
Theorem findNearestEntranceNode_nearest (nc : NavigationController.t) (p : Coord) :
  match findNearestEntranceNode nc p with
  | None => forall node, ~ entrance nc node
  | Some nearest =>
      entranceCandidate nc nearest
      /\ forall other, entranceCandidate nc other ->
           (turf_distance p (coords nearest) <= turf_distance p (coords other))%Q
  end.
Proof.
  unfold findNearestEntranceNode.
  set (entrances := List.filter (fun n => String.eqb (ntype n) "entrance")
                      (map snd (map_to_list (nodes (PathfindingEngine.graph (engine nc)))))).
  assert (Hlisted : forall node, entrance nc node <-> In node entrances)
    by apply entrance_listed.
  set (candidates :=
         match groundFloorId nc with
         | Some EmptyString | None => entrances
         | Some preferred =>
             match List.filter (fun n => String.eqb (floorId n) preferred) entrances with
             | [] => entrances
             | sameFloor => sameFloor
             end
         end).
  assert (Hcandidates : forall node, In node candidates <-> entranceCandidate nc node).
  { intros node. unfold entranceCandidate. subst candidates.
    destruct (groundFloorId nc) as [preferred |] eqn:Hground.
    2: { rewrite <- Hlisted. split; [intros Hin; split; [exact Hin | discriminate] | tauto]. }
    destruct (String.eqb_spec preferred EmptyString) as [-> | Hnamed].
    { rewrite <- Hlisted.
      split; [intros Hin; split; [exact Hin |] | tauto].
      intros preferred [= <-] Hno. contradiction. }
    assert (Hfilter : forall x,
              In x (List.filter (fun n => String.eqb (floorId n) preferred) entrances)
              <-> entrance nc x /\ floorId x = preferred).
    { intros x. rewrite filter_In, String.eqb_eq, Hlisted. tauto. }
    destruct preferred as [| a rest]; [contradiction |].
    destruct (List.filter (fun n => String.eqb (floorId n) (String a rest)) entrances)
      as [| first sameFloor] eqn:Hsame.
    - rewrite <- Hlisted. split; [intros Hin; split; [exact Hin |] | tauto].
      intros preferred [= <-] _ (other & Hother & Hfloor).
      exfalso. apply (proj2 (Hfilter other)). split; assumption.
    - rewrite Hfilter. split.
      + intros [Hin Hfloor]. split; [exact Hin |]. intros preferred [= <-] _ _. exact Hfloor.
      + intros [Hin Hfloor]. split; [exact Hin |].
        apply (Hfloor (String a rest) eq_refl Hnamed).
        exists first. apply Hfilter. left. reflexivity. }
  fold candidates.
  pose proof (nearestByDistance_spec p candidates None None I) as Hspec.
  destruct (nearestByDistance p candidates None None) as [r |].
  - destruct Hspec as ([Hno | Hin] & Hall & _); [discriminate |].
    split; [apply Hcandidates, Hin |].
    intros other Hother. apply Hall, Hcandidates, Hother.
  - destruct Hspec as [_ Hnone]. intros node Hnode.
    assert (Hcandidate : exists x, In x candidates).
    { subst candidates. apply Hlisted in Hnode.
      destruct (groundFloorId nc) as [[| a rest] |]; eauto.
      destruct (List.filter _ entrances) as [| first sameFloor]; [eauto |].
      exists first. left. reflexivity. }
    destruct Hcandidate as [x Hx]. rewrite Hnone in Hx. destruct Hx.
Qed.

End NavigationTheorems.

Section NavigationOnThePlan.
#[local] Existing Instance Plan.platform.
Import NavigationController.

Lemma interpolatePosition_on_path_witness :
  let path := [Plan.at_ 0 0; Plan.at_ 3 0; Plan.at_ 3 4] in
  let distances := _computeCumulativeDistances path in
  (0 <= 5)%Q
  /\ exists result,
       _interpolatePosition path distances 5 = Ret result
       /\ ((result = last path
            /\ Forall (fun x => (x < 5)%Q) (tail distances))
           \/ exists i p0 p1 a t,
                path !! i = Some p0 /\ path !! S i = Some p1
                /\ distances !! i = Some a
                /\ distances !! S i = Some (a + turf_distance p0 p1)%Q
                /\ (0 <= t)%Q /\ (t <= 1)%Q
                /\ (a + t * turf_distance p0 p1 == 5)%Q
                /\ result = Some (pointBetween p0 p1 t)).
Proof.
  intros path distances.
  assert (Htarget : (0 <= 5)%Q) by (vm_compute; discriminate).
  split; [exact Htarget |].
  exact (interpolatePosition_on_path path 5 Htarget).
Defined.

End NavigationOnThePlan.

(** ** The endpoints of a displayed route *)

Section DirectionsFacts.
Context `{Platform}.
Import DirectionsUI.

Lemma defaultFloors_length (n : nat) (startFloorId endFloorId : string) :
  length (defaultFloors n startFloorId endFloorId) = n.
Proof. unfold defaultFloors. now rewrite length_map, length_seq. Qed.

End DirectionsFacts.

Section DirectionsTheorems.
Context `{Platform}.
Import DirectionsUI.

(** [withRouteEndpoints] keeps the path of the route and adds at most the
    start in front and the destination behind; it names one floor for each
    point of the result; and when it warns of nothing, the result starts
    at the start or within the tolerance of it, and ends so at the
    destination. *)
Theorem withRouteEndpoints_joins (detector : CollisionDetector.t) (r : Route.t)
    (startCoords endCoords : Coord) (startFloorId endFloorId : string)
    (enriched : EnrichedRoute) :
  withRouteEndpoints detector r startCoords endCoords startFloorId endFloorId
  = Some enriched ->
  length (floors enriched) = length (path enriched)
  /\ (exists front back,
        path enriched = front ++ Route.path r ++ back
        /\ (front = [] \/ front = [startCoords])
        /\ (back = [] \/ back = [endCoords]))
  /\ (warnings enriched = [] ->
      exists first final,
        head (path enriched) = Some first /\ last (path enriched) = Some final
        /\ (first = startCoords \/ coordsEqual first startCoords = true)
        /\ (final = endCoords \/ coordsEqual final endCoords = true)).
Proof.
  unfold withRouteEndpoints.
  destruct (Route.path r) as [| first rest] eqn:Hpath; [discriminate |].
  destruct (last (first :: rest)) as [final |] eqn:Hlast; [| discriminate].
  intros [= <-]. cbn [floors path warnings].
  split; [| split].
  - match goal with
    | |- context [(length ?fl =? length ?pa)%nat] =>
        destruct (Nat.eqb_spec (length fl) (length pa)) as [Heq | _];
          [exact Heq | apply defaultFloors_length]
    end.
  - exists (if negb (coordsEqual first startCoords)
               && CollisionDetector.isPathClear detector startCoords first startFloorId
            then [startCoords] else []),
           (if negb (coordsEqual final endCoords)
               && CollisionDetector.isPathClear detector final endCoords endFloorId
            then [endCoords] else []).
    destruct (negb (coordsEqual first startCoords)
              && CollisionDetector.isPathClear detector startCoords first startFloorId),
             (negb (coordsEqual final endCoords)
              && CollisionDetector.isPathClear detector final endCoords endFloorId);
      simpl; rewrite ?app_nil_r; auto.
  - destruct (coordsEqual first startCoords) eqn:Hstart,
             (coordsEqual final endCoords) eqn:Hend,
             (CollisionDetector.isPathClear detector startCoords first startFloorId),
             (CollisionDetector.isPathClear detector final endCoords endFloorId);
      cbn [negb andb]; intros Hwarn; try discriminate Hwarn.
    all: try (exists first, final; split; [reflexivity |]; split; [exact Hlast |]; auto; fail).
    all: try (exists first, endCoords; split; [reflexivity |];
              split; [apply last_snoc |]; auto; fail).
    all: try (exists startCoords, final; split; [reflexivity |];
              split; [rewrite last_cons_cons; exact Hlast |]; auto; fail).
    all: try (exists startCoords, endCoords; split; [reflexivity |];
              split; [apply last_snoc |]; auto; fail).
Qed.

End DirectionsTheorems.

Section DirectionsOnThePlan.
#[local] Existing Instance Plan.platform.
Import DirectionsUI.

Lemma withRouteEndpoints_joins_witness :
  let r := PathfindingEngine.sameRoomRoute Plan.inRoomA Plan.inRoomB "F0" "F0"
             Plan.roomR1 Plan.roomR1 in
  exists enriched,
    withRouteEndpoints Plan.detector r Plan.leftOfPillar Plan.inRoomB "F0" "F0"
    = Some enriched
    /\ length (floors enriched) = length (path enriched)
    /\ (exists front back,
          path enriched = front ++ Route.path r ++ back
          /\ (front = [] \/ front = [Plan.leftOfPillar])
          /\ (back = [] \/ back = [Plan.inRoomB]))
    /\ (warnings enriched = [] ->
        exists first final,
          head (path enriched) = Some first /\ last (path enriched) = Some final
          /\ (first = Plan.leftOfPillar \/ coordsEqual first Plan.leftOfPillar = true)
          /\ (final = Plan.inRoomB \/ coordsEqual final Plan.inRoomB = true)).
Proof.
  intros r.
  assert (Hsome : exists enriched,
            withRouteEndpoints Plan.detector r Plan.leftOfPillar Plan.inRoomB "F0" "F0"
            = Some enriched)
    by (eexists; vm_compute; reflexivity).
  destruct Hsome as [enriched Hsome]. exists enriched. split; [exact Hsome |].
  exact (withRouteEndpoints_joins Plan.detector r Plan.leftOfPillar Plan.inRoomB
           "F0" "F0" enriched Hsome).
Defined.

End DirectionsOnThePlan.
